(** * RedInk front end: the real-time session client

  A shallow embedding of the event-stream client of the RedInk front end:

  - [CreationCenter]: the handlers of the creation view that fold the
    [agent:progress], [agent:thought] and [agent:response] events into the
    view's refs and its message list (handleProgress, handleThought,
    handleResponse);
  - [UseSocket]: the composable [useSocket] (composables/useSocket.ts):
    the shared socket, the reference-counted listener registry, room
    joins, instructions, and the mount/unmount life cycle, run on a small
    model of the JavaScript event loop (virtual clock, timers, promises);
  - [UseSocketReconnect]: the bounded retry loop [attemptReconnect] and
    the socket listeners of [setupReconnectHandlers];
  - [CreationCenterSocket]: the creation view on the socket
    (registerEventListeners, handleNewTask).

  JavaScript values are modelled as follows.  Strings are [string];
  an optional property ([token?], [content?]) is an [option string];
  numbers that only count are [Z]; a [Map] that is only looked up is a
  [gmap]; a [Map]/[Set] that is iterated is an insertion-ordered list.
  Console output and DOM scrolling are not modelled. *)

From Equations Require Import Equations.
From stdpp Require Import gmap strings list.

Open Scope string_scope.
Open Scope list_scope.
Open Scope Z_scope.

(** ** JavaScript truthiness on the values the handlers test *)

Module Js.

(** [!!s] for a string: only the empty string is falsy. *)
Definition truthy (s : string) : bool :=
  if decide (s = "") then false else true.

(** [!!x] for an optional string property: [undefined] is falsy. *)
Definition truthy_opt (x : option string) : bool :=
  match x with
  | Some s => truthy s
  | None => false
  end.

(** [x || d] where [x] is an optional string property. *)
Definition or_else (x : option string) (d : string) : string :=
  match x with
  | Some s => if truthy s then s else d
  | None => d
  end.

(** [s + x]: string concatenation coerces [undefined] to its name. *)
Definition to_string (x : option string) : string :=
  match x with
  | Some s => s
  | None => "undefined"
  end.

End Js.

(** ** The creation view: stream assembly and task status *)

Module CreationCenter.

Inductive Role := assistant | system.

(** The fields of [Message] that the three stream handlers write.  The
    tool-call and tool-result payloads are left out: no handler below
    sets them. *)
Record Message := {
  role : Role;
  content : option string;
  thinking : option string;
  thinkingExpanded : option bool;
  thinkingComplete : option bool;
  icon : option string;
  time : string
}.

(** Payload of [agent:thought] and [agent:response]. *)
Record StreamData := {
  sd_type : string;
  sd_token : option string;
  sd_content : option string
}.

(** Payload of [agent:progress]. *)
Record ProgressData := {
  pd_type : string;
  pd_topic : option string;
  pd_error : option string;
  pd_message : option string
}.

(** The refs of the component.  [historyRequests] counts the calls of
    [createHistory] issued by [saveHistoryRecord]; what the backend
    answers arrives later and is not part of the handlers. *)
Record View := {
  topic : string;
  currentThinking : string;
  currentResponse : string;
  isGenerating : bool;
  isComplete : bool;
  hasError : bool;
  errorMessage : string;
  messages : list Message;
  generatedPages : list string;
  historyRequests : nat
}.

Definition set_currentThinking (x : string) (v : View) : View :=
  {| topic := topic v; currentThinking := x;
     currentResponse := currentResponse v; isGenerating := isGenerating v;
     isComplete := isComplete v; hasError := hasError v;
     errorMessage := errorMessage v; messages := messages v;
     generatedPages := generatedPages v;
     historyRequests := historyRequests v |}.

Definition set_currentResponse (x : string) (v : View) : View :=
  {| topic := topic v; currentThinking := currentThinking v;
     currentResponse := x; isGenerating := isGenerating v;
     isComplete := isComplete v; hasError := hasError v;
     errorMessage := errorMessage v; messages := messages v;
     generatedPages := generatedPages v;
     historyRequests := historyRequests v |}.

Definition set_isGenerating (x : bool) (v : View) : View :=
  {| topic := topic v; currentThinking := currentThinking v;
     currentResponse := currentResponse v; isGenerating := x;
     isComplete := isComplete v; hasError := hasError v;
     errorMessage := errorMessage v; messages := messages v;
     generatedPages := generatedPages v;
     historyRequests := historyRequests v |}.

Definition set_isComplete (x : bool) (v : View) : View :=
  {| topic := topic v; currentThinking := currentThinking v;
     currentResponse := currentResponse v; isGenerating := isGenerating v;
     isComplete := x; hasError := hasError v;
     errorMessage := errorMessage v; messages := messages v;
     generatedPages := generatedPages v;
     historyRequests := historyRequests v |}.

Definition set_hasError (x : bool) (v : View) : View :=
  {| topic := topic v; currentThinking := currentThinking v;
     currentResponse := currentResponse v; isGenerating := isGenerating v;
     isComplete := isComplete v; hasError := x;
     errorMessage := errorMessage v; messages := messages v;
     generatedPages := generatedPages v;
     historyRequests := historyRequests v |}.

Definition set_errorMessage (x : string) (v : View) : View :=
  {| topic := topic v; currentThinking := currentThinking v;
     currentResponse := currentResponse v; isGenerating := isGenerating v;
     isComplete := isComplete v; hasError := hasError v;
     errorMessage := x; messages := messages v;
     generatedPages := generatedPages v;
     historyRequests := historyRequests v |}.

Definition set_messages (x : list Message) (v : View) : View :=
  {| topic := topic v; currentThinking := currentThinking v;
     currentResponse := currentResponse v; isGenerating := isGenerating v;
     isComplete := isComplete v; hasError := hasError v;
     errorMessage := errorMessage v; messages := x;
     generatedPages := generatedPages v;
     historyRequests := historyRequests v |}.

Definition set_historyRequests (x : nat) (v : View) : View :=
  {| topic := topic v; currentThinking := currentThinking v;
     currentResponse := currentResponse v; isGenerating := isGenerating v;
     isComplete := isComplete v; hasError := hasError v;
     errorMessage := errorMessage v; messages := messages v;
     generatedPages := generatedPages v;
     historyRequests := x |}.

(** The state of a freshly set up component. *)
Definition initial : View :=
  {| topic := ""; currentThinking := ""; currentResponse := "";
     isGenerating := false; isComplete := false; hasError := false;
     errorMessage := ""; messages := []; generatedPages := [];
     historyRequests := 0 |}.

(** [messages.value.push({role: 'system', content, icon, time})];
    [now] is what [formatTime()] returns at the call. *)
Definition addSystemMessage (now : string) (text : string) (ic : string)
    (v : View) : View :=
  set_messages
    (messages v ++
     [{| role := system; content := Some text; thinking := None;
         thinkingExpanded := None; thinkingComplete := None;
         icon := Some ic; time := now |}]) v.

(** [addAssistantMessage({thinking, thinkingExpanded: false,
    thinkingComplete: true})]. *)
Definition thoughtMessage (now : string) (text : string) : Message :=
  {| role := assistant; content := None; thinking := Some text;
     thinkingExpanded := Some false; thinkingComplete := Some true;
     icon := None; time := now |}.

(** [addAssistantMessage({content})]; [thinkingExpanded: false] comes
    from the defaults that the argument is spread over. *)
Definition responseMessage (now : string) (text : string) : Message :=
  {| role := assistant; content := Some text; thinking := None;
     thinkingExpanded := Some false; thinkingComplete := None;
     icon := None; time := now |}.

Definition addAssistantMessage (m : Message) (v : View) : View :=
  set_messages (messages v ++ [m]) v.

(** The synchronous part of [saveHistoryRecord]: it gives up without a
    topic or without outline pages, and otherwise calls the backend. *)
Definition saveHistoryRecord (v : View) : View :=
  if negb (Js.truthy (topic v)) || (length (generatedPages v) =? 0)%nat
  then v
  else set_historyRequests (S (historyRequests v)) v.

Definition handleProgress (now : string) (data : ProgressData) (v : View)
    : View :=
  if decide (pd_type data = "start") then
    addSystemMessage now
      ("开始创作: " +:+ Js.or_else (pd_topic data) (topic v)) "🚀"
      (set_isGenerating true v)
  else if decide (pd_type data = "complete") then
    saveHistoryRecord
      (addSystemMessage now "创作完成！" "✅"
         (set_isGenerating false (set_isComplete true v)))
  else if decide (pd_type data = "error") then
    let msg :=
      Js.or_else (pd_error data)
        (Js.or_else (pd_message data) "创作过程中发生错误") in
    addSystemMessage now ("错误: " +:+ msg) "❌"
      (set_errorMessage msg (set_isGenerating false (set_hasError true v)))
  else if decide (pd_type data = "retry") then
    addSystemMessage now (Js.or_else (pd_message data) "正在重试...") "🔄" v
  else if decide (pd_type data = "cancelled") then
    addSystemMessage now "任务已取消" "🚫"
      (set_errorMessage "任务已取消"
         (set_isGenerating false (set_hasError true v)))
  else v.

Definition handleThought (now : string) (data : StreamData) (v : View)
    : View :=
  if decide (sd_type data = "start") then
    set_currentThinking "" v
  else if decide (sd_type data = "token") then
    set_currentThinking
      (currentThinking v +:+ Js.to_string (sd_token data)) v
  else if decide (sd_type data = "end") then
    let v' :=
      if Js.truthy (currentThinking v) || Js.truthy_opt (sd_content data)
      then
        addAssistantMessage
          (thoughtMessage now
             (Js.or_else (sd_content data) (currentThinking v))) v
      else v in
    set_currentThinking "" v'
  else v.

Definition handleResponse (now : string) (data : StreamData) (v : View)
    : View :=
  if decide (sd_type data = "token") then
    set_currentResponse
      (Js.or_else (sd_content data)
         (currentResponse v +:+ Js.to_string (sd_token data))) v
  else if decide (sd_type data = "end") then
    let v' :=
      if Js.truthy (currentResponse v) || Js.truthy_opt (sd_content data)
      then
        addAssistantMessage
          (responseMessage now
             (Js.or_else (sd_content data) (currentResponse v))) v
      else v in
    set_currentResponse "" v'
  else if Js.truthy_opt (sd_content data) then
    addAssistantMessage
      (responseMessage now (Js.or_else (sd_content data) "")) v
  else v.

(** The computed properties that show the task's state. *)
Definition statusClass (v : View) : string :=
  if hasError v then "error"
  else if isComplete v then "complete"
  else if isGenerating v then "active"
  else "pending".

Definition statusBadgeText (v : View) : string :=
  if hasError v then "AGENT ERROR"
  else if isComplete v then "AGENT CREATION COMPLETE"
  else if isGenerating v then "AGENT WORKING..."
  else "AGENT READY".

Definition taskStatus (v : View) : string :=
  if isComplete v then "Completed"
  else if isGenerating v then "In Progress"
  else "Ready".

(** The two token streams and what the glossary calls their kind. *)
Inductive StreamKind := thought | response.

Definition handleStream (k : StreamKind)
    : string -> StreamData -> View -> View :=
  match k with
  | thought => handleThought
  | response => handleResponse
  end.

Definition buffer (k : StreamKind) (v : View) : string :=
  match k with
  | thought => currentThinking v
  | response => currentResponse v
  end.

Definition finalMessage (k : StreamKind) : string -> string -> Message :=
  match k with
  | thought => thoughtMessage
  | response => responseMessage
  end.

(** The events of the wire table, with no optional property beyond the
    one each carries. *)
Definition ev_start : StreamData :=
  {| sd_type := "start"; sd_token := None; sd_content := None |}.
Definition ev_token (a : string) : StreamData :=
  {| sd_type := "token"; sd_token := Some a; sd_content := None |}.
Definition ev_end : StreamData :=
  {| sd_type := "end"; sd_token := None; sd_content := None |}.

(** Events are delivered one at a time, in order; each comes with the
    wall-clock string the handler reads while it runs. *)
Definition deliver (k : StreamKind) (evs : list (string * StreamData))
    (v : View) : View :=
  foldl (fun acc e => handleStream k (fst e) (snd e) acc) v evs.

Definition progress (evs : list (string * ProgressData)) (v : View)
    : View :=
  foldl (fun acc e => handleProgress (fst e) (snd e) acc) v evs.

Definition pd_of (ty : string) (err : option string) : ProgressData :=
  {| pd_type := ty; pd_topic := None; pd_error := err;
     pd_message := None |}.

(** *** More of the view *)

(** The text under the status card. *)
Definition statusMessage (v : View) : string :=
  if hasError v then
    (if Js.truthy (errorMessage v) then errorMessage v
     else "创作过程中发生错误，请重试")
  else if isComplete v then
    "您的创作已完成！AI 已生成全部内容，请查看右侧预览。"
  else if isGenerating v then
    "您的任务已就绪，Agent 正在创作中，请耐心等待..."
  else "准备开始创作...".

Definition statusBadgeClass (v : View) : string :=
  if hasError v then "error"
  else if isComplete v then "complete"
  else if isGenerating v then "active"
  else "pending".

Definition set_thinkingExpanded (x : option bool) (m : Message) : Message :=
  {| role := role m; content := content m; thinking := thinking m;
     thinkingExpanded := x; thinkingComplete := thinkingComplete m;
     icon := icon m; time := time m |}.

(** [!x] for a property that holds a boolean or is missing. *)
Definition not_opt (x : option bool) : bool :=
  match x with
  | Some true => false
  | _ => true
  end.

(** [toggleThinking(index)], called with the position of a rendered
    message; [messages.value[index]] is [undefined] past the end. *)
Definition toggleThinking (index : nat) (v : View) : View :=
  match messages v !! index with
  | Some msg =>
      if Js.truthy_opt (thinking msg) then
        set_messages
          (<[index := set_thinkingExpanded
                        (Some (not_opt (thinkingExpanded msg))) msg]>
             (messages v)) v
      else v
  | None => v
  end.

(** What reaches the view while a task runs: the three agent events
    bound by [registerEventListeners] that this model covers, and a click
    on the header of a thinking block. *)
Inductive Input :=
| agent_progress (now : string) (data : ProgressData)
| agent_thought (now : string) (data : StreamData)
| agent_response (now : string) (data : StreamData)
| click_thinking (index : nat).

Definition handle (x : Input) (v : View) : View :=
  match x with
  | agent_progress now data => handleProgress now data v
  | agent_thought now data => handleThought now data v
  | agent_response now data => handleResponse now data v
  | click_thinking index => toggleThinking index v
  end.

Definition session (xs : list Input) (v : View) : View :=
  foldl (fun acc x => handle x acc) v xs.

(** The token events of one stream, each with its time stamp. *)
Definition tokens (toks : list (string * string))
    : list (string * StreamData) :=
  (fun x => (x.1, ev_token x.2)) <$> toks.

(** The text a list of fragments adds up to. *)
Definition joined (toks : list (string * string)) : string :=
  foldr (fun x acc => x.2 +:+ acc) "" toks.

(** The events of one kind among the inputs. *)
Definition of_kind (k : StreamKind) (xs : list Input)
    : list (string * StreamData) :=
  xs ≫= fun x =>
    match x, k with
    | agent_thought now data, thought => [(now, data)]
    | agent_response now data, response => [(now, data)]
    | _, _ => []
    end.

Definition completions (evs : list (string * ProgressData)) : nat :=
  length (filter (fun e => pd_type e.2 = "complete") evs).

(** What a message shows apart from whether its thinking block is open. *)
Definition same_but_expanded (m m' : Message) : Prop :=
  set_thinkingExpanded None m' = set_thinkingExpanded None m.

(** Every thinking block made by the handlers has its flag set. *)
Definition flagged (v : View) : Prop :=
  Forall (fun m => Js.truthy_opt (thinking m) = true
                   -> is_Some (thinkingExpanded m)) (messages v).

End CreationCenter.

(** ** The composable useSocket on a model of the event loop *)

Module UseSocket.

(** An event payload: a JavaScript object with string properties;
    [d !! "task_id"] is [d.task_id]. *)
Abbreviation Payload := (gmap string string).

(** Function objects.  [handler f] is a function a caller passes to
    [on]/[off]; the others are the closures this module creates, told
    apart by the promise whose executor created them. *)
Inductive Callback :=
| handler (f : nat)
| onConnect (p : nat) (timeoutId : nat)
| onDisconnect (p : nat)
| onConnectError (p : nat) (timeoutId : nat)
| onJoined (p : nat) (taskId : string)
| onConfirmed (p : nat) (taskId : string)
| onReceived (p : nat) (taskId : string)
| onError (p : nat) (taskId : string).

#[global] Instance Callback_eq_dec : EqDecision Callback.
Proof. solve_decision. Defined.

Definition Callback_code (c : Callback) : nat * (nat * nat * string) :=
  match c with
  | handler f => (0%nat, (f, 0%nat, ""))
  | onConnect p t => (1%nat, (p, t, ""))
  | onDisconnect p => (2%nat, (p, 0%nat, ""))
  | onConnectError p t => (3%nat, (p, t, ""))
  | onJoined p x => (4%nat, (p, 0%nat, x))
  | onConfirmed p x => (5%nat, (p, 0%nat, x))
  | onReceived p x => (6%nat, (p, 0%nat, x))
  | onError p x => (7%nat, (p, 0%nat, x))
  end.

Definition Callback_of_code (c : nat * (nat * nat * string)) : Callback :=
  match c with
  | (0%nat, (f, _, _)) => handler f
  | (1%nat, (p, t, _)) => onConnect p t
  | (2%nat, (p, _, _)) => onDisconnect p
  | (3%nat, (p, t, _)) => onConnectError p t
  | (4%nat, (p, _, x)) => onJoined p x
  | (5%nat, (p, _, x)) => onConfirmed p x
  | (6%nat, (p, _, x)) => onReceived p x
  | (_, (p, _, x)) => onError p x
  end.

#[global] Instance Callback_countable : Countable Callback.
Proof.
  apply (inj_countable' Callback_code Callback_of_code).
  intros []; reflexivity.
Defined.

(** The socket.io client object, as far as this module drives it: its
    [connected] property, the listeners bound with [on] in binding
    order (the emitter keeps duplicates), and what was sent. *)
Record Socket := {
  sk_connected : bool;
  sk_listeners : list (string * Callback);
  sk_sent : list (string * Payload)
}.

Definition sk_on (ev : string) (cb : Callback) (sk : Socket) : Socket :=
  {| sk_connected := sk_connected sk;
     sk_listeners := sk_listeners sk ++ [(ev, cb)];
     sk_sent := sk_sent sk |}.

(** The emitter's [off(ev, fn)] drops the first listener that matches. *)
Fixpoint remove_first (x : string * Callback)
    (l : list (string * Callback)) : list (string * Callback) :=
  match l with
  | [] => []
  | y :: l' => if decide (x = y) then l' else y :: remove_first x l'
  end.

Definition sk_off (ev : string) (cb : Callback) (sk : Socket) : Socket :=
  {| sk_connected := sk_connected sk;
     sk_listeners := remove_first (ev, cb) (sk_listeners sk);
     sk_sent := sk_sent sk |}.

(** [off(ev)] with no function drops every listener of the event. *)
Definition sk_off_all (ev : string) (sk : Socket) : Socket :=
  {| sk_connected := sk_connected sk;
     sk_listeners :=
       filter (fun x => fst x ≠ ev) (sk_listeners sk);
     sk_sent := sk_sent sk |}.

Definition sk_emit (ev : string) (d : Payload) (sk : Socket) : Socket :=
  {| sk_connected := sk_connected sk;
     sk_listeners := sk_listeners sk;
     sk_sent := sk_sent sk ++ [(ev, d)] |}.

Definition sk_set_connected (b : bool) (sk : Socket) : Socket :=
  {| sk_connected := b;
     sk_listeners := sk_listeners sk;
     sk_sent := sk_sent sk |}.

(** What [io(baseUrl, options)] returns. *)
Definition io : Socket :=
  {| sk_connected := false; sk_listeners := []; sk_sent := [] |}.

(** A promise is pending until its first [resolve] or [reject]. *)
Inductive Settlement :=
| Pending
| Resolved (v : Payload)
| Rejected (msg : string).

(** The functions handed to [setTimeout]. *)
Inductive TimerTask :=
| connectTimeout (p : nat)
| joinTimeout (p : nat) (taskId : string)
| confirmTimeout (p : nat) (taskId : string)
| instructionTimeout (p : nat) (taskId : string)
| graceTeardown.

#[global] Instance TimerTask_eq_dec : EqDecision TimerTask.
Proof. solve_decision. Defined.

Record Timer := { timer_id : nat; due : Z; task : TimerTask }.

#[global] Instance Timer_eq_dec : EqDecision Timer.
Proof. solve_decision. Defined.

(** The module-level state ([socket], [connected], [connectionRefCount],
    [globalEventListeners]) together with the event loop it runs on: the
    virtual clock in milliseconds, the pending timers, the counter that
    names them, and the promises made so far (a promise's handle is its
    index). *)
Record World := {
  socket : option Socket;
  connected : bool;
  connectionRefCount : Z;
  globalEventListeners : gmap string (gmap Callback Z);
  clock : Z;
  timers : list Timer;
  next_timer : nat;
  promises : list Settlement
}.

Definition set_socket (x : option Socket) (w : World) : World :=
  {| socket := x; connected := connected w;
     connectionRefCount := connectionRefCount w;
     globalEventListeners := globalEventListeners w;
     clock := clock w; timers := timers w; next_timer := next_timer w;
     promises := promises w |}.

Definition set_connected (x : bool) (w : World) : World :=
  {| socket := socket w; connected := x;
     connectionRefCount := connectionRefCount w;
     globalEventListeners := globalEventListeners w;
     clock := clock w; timers := timers w; next_timer := next_timer w;
     promises := promises w |}.

Definition set_connectionRefCount (x : Z) (w : World) : World :=
  {| socket := socket w; connected := connected w;
     connectionRefCount := x;
     globalEventListeners := globalEventListeners w;
     clock := clock w; timers := timers w; next_timer := next_timer w;
     promises := promises w |}.

Definition set_globalEventListeners (x : gmap string (gmap Callback Z))
    (w : World) : World :=
  {| socket := socket w; connected := connected w;
     connectionRefCount := connectionRefCount w;
     globalEventListeners := x;
     clock := clock w; timers := timers w; next_timer := next_timer w;
     promises := promises w |}.

Definition set_clock (x : Z) (w : World) : World :=
  {| socket := socket w; connected := connected w;
     connectionRefCount := connectionRefCount w;
     globalEventListeners := globalEventListeners w;
     clock := x; timers := timers w; next_timer := next_timer w;
     promises := promises w |}.

Definition set_timers (x : list Timer) (w : World) : World :=
  {| socket := socket w; connected := connected w;
     connectionRefCount := connectionRefCount w;
     globalEventListeners := globalEventListeners w;
     clock := clock w; timers := x; next_timer := next_timer w;
     promises := promises w |}.

Definition set_next_timer (x : nat) (w : World) : World :=
  {| socket := socket w; connected := connected w;
     connectionRefCount := connectionRefCount w;
     globalEventListeners := globalEventListeners w;
     clock := clock w; timers := timers w; next_timer := x;
     promises := promises w |}.

Definition set_promises (x : list Settlement) (w : World) : World :=
  {| socket := socket w; connected := connected w;
     connectionRefCount := connectionRefCount w;
     globalEventListeners := globalEventListeners w;
     clock := clock w; timers := timers w; next_timer := next_timer w;
     promises := x |}.

(** The state right after the module is loaded. *)
Definition loaded : World :=
  {| socket := None; connected := false; connectionRefCount := 0;
     globalEventListeners := ∅; clock := 0; timers := [];
     next_timer := 0; promises := [] |}.

(** *** Event-loop primitives *)

(** [new Promise(...)]: a fresh pending promise and its handle. *)
Definition new_promise (w : World) : World * nat :=
  (set_promises (promises w ++ [Pending]) w, length (promises w)).

(** [resolve]/[reject]: only the first call on a promise counts. *)
Definition settle (p : nat) (r : Settlement) (w : World) : World :=
  match promises w !! p with
  | Some Pending => set_promises (<[p := r]> (promises w)) w
  | _ => w
  end.

Definition promise (p : nat) (w : World) : Settlement :=
  default Pending (promises w !! p).

(** [setTimeout(task, delay)] returns the new timer's id. *)
Definition setTimeout (tk : TimerTask) (delay : Z) (w : World)
    : World * nat :=
  (set_next_timer (S (next_timer w))
     (set_timers
        (timers w ++
         [{| timer_id := next_timer w; due := clock w + delay;
             task := tk |}]) w),
   next_timer w).

Definition clearTimeout (id : nat) (w : World) : World :=
  set_timers (filter (fun t => timer_id t ≠ id) (timers w)) w.

(** [socket.value?.m(...)] for a method [m] of the socket. *)
Definition with_socket (f : Socket -> Socket) (w : World) : World :=
  match socket w with
  | Some sk => set_socket (Some (f sk)) w
  | None => w
  end.

(** [socket.value?.connected], as a condition. *)
Definition socket_connected (w : World) : bool :=
  match socket w with
  | Some sk => sk_connected sk
  | None => false
  end.

Definition CONNECTION_TIMEOUT : Z := 10000.

(** *** connect, disconnect *)

Definition connect (w : World) : World * nat :=
  let (w, p) := new_promise w in
  if socket_connected w then (settle p (Resolved ∅) w, p)
  else
    let w := set_socket (Some io) w in
    let (w, timeoutId) := setTimeout (connectTimeout p) CONNECTION_TIMEOUT w in
    let w := with_socket (sk_on "connect" (onConnect p timeoutId)) w in
    let w := with_socket (sk_on "disconnect" (onDisconnect p)) w in
    let w :=
      with_socket (sk_on "connect_error" (onConnectError p timeoutId)) w in
    (w, p).

(** [disconnect()].  The notification the closing socket sends to its
    own listeners reaches [onDisconnect], which clears the flag that is
    cleared here anyway, and is not replayed. *)
Definition disconnect (w : World) : World :=
  match socket w with
  | Some _ => set_connected false (set_socket None w)
  | None => w
  end.

(** *** Rooms and instructions *)

Definition joinTask (taskId : string) (w : World) : World * nat :=
  let (w, p) := new_promise w in
  if negb (socket_connected w)
  then (settle p (Rejected "WebSocket 未连接") w, p)
  else
    let w :=
      with_socket (sk_emit "join_task" {[ "task_id" := taskId ]}) w in
    let w := with_socket (sk_on "joined" (onJoined p taskId)) w in
    let w := fst (setTimeout (joinTimeout p taskId) 2000 w) in
    (w, p).

Definition leaveTask (taskId : string) (w : World) : World :=
  if socket_connected w
  then with_socket (sk_emit "leave_task" {[ "task_id" := taskId ]}) w
  else w.

Definition sendInstruction (taskId instruction : string) (w : World)
    : World * nat :=
  let (w, p) := new_promise w in
  if negb (socket_connected w)
  then (settle p (Rejected "WebSocket 未连接") w, p)
  else
    let w :=
      with_socket
        (sk_emit "send_instruction"
           (<[ "instruction" := instruction ]>
              {[ "task_id" := taskId ]})) w in
    let w :=
      with_socket (sk_on "instruction_received" (onReceived p taskId)) w in
    let w :=
      with_socket (sk_on "instruction_error" (onError p taskId)) w in
    let w := fst (setTimeout (instructionTimeout p taskId) 30000 w) in
    (w, p).

Definition confirmRoom (taskId : string) (w : World) : World * nat :=
  let (w, p) := new_promise w in
  if negb (socket_connected w)
  then (settle p (Rejected "WebSocket 未连接") w, p)
  else
    let w :=
      with_socket (sk_emit "confirm_room" {[ "task_id" := taskId ]}) w in
    let w :=
      with_socket (sk_on "room_confirmed" (onConfirmed p taskId)) w in
    let w := fst (setTimeout (confirmTimeout p taskId) 1000 w) in
    (w, p).

Definition emit (ev : string) (d : Payload) (w : World) : World :=
  with_socket (sk_emit ev d) w.

(** Both listeners of one [sendInstruction] call are dropped together. *)
Definition drop_instruction_listeners (p : nat) (taskId : string)
    (w : World) : World :=
  with_socket (sk_off "instruction_error" (onError p taskId))
    (with_socket (sk_off "instruction_received" (onReceived p taskId)) w).

(** *** Running a listener and a timer *)

(** The body of each closure, applied to the payload of the event.  A
    caller's [handler] acts on its own component, not on this state. *)
Definition run_callback (cb : Callback) (data : Payload) (w : World)
    : World :=
  match cb with
  | handler _ => w
  | onConnect p timeoutId =>
      settle p (Resolved ∅) (set_connected true (clearTimeout timeoutId w))
  | onDisconnect _ => set_connected false w
  | onConnectError p timeoutId =>
      settle p (Rejected (default "" (data !! "message")))
        (clearTimeout timeoutId w)
  | onJoined p taskId =>
      if decide (data !! "task_id" = Some taskId)
      then settle p (Resolved ∅)
             (with_socket (sk_off "joined" (onJoined p taskId)) w)
      else w
  | onConfirmed p taskId =>
      if decide (data !! "task_id" = Some taskId)
      then settle p (Resolved ∅)
             (with_socket (sk_off "room_confirmed" (onConfirmed p taskId))
                w)
      else w
  | onReceived p taskId =>
      if decide (data !! "task_id" = Some taskId)
      then settle p (Resolved data) (drop_instruction_listeners p taskId w)
      else w
  | onError p taskId =>
      if decide (data !! "task_id" = Some taskId)
      then settle p
             (Rejected (Js.or_else (data !! "error") "发送指令失败"))
             (drop_instruction_listeners p taskId w)
      else w
  end.

(** The emitter calls a copy of the listener array taken when the event
    arrives, so a listener removed by an earlier one still runs. *)
Definition deliver (ev : string) (data : Payload) (w : World) : World :=
  match socket w with
  | Some sk =>
      foldl (fun acc l => run_callback (snd l) data acc) w
        (filter (fun l => fst l = ev) (sk_listeners sk))
  | None => w
  end.

Definition fire (tk : TimerTask) (w : World) : World :=
  match tk with
  | connectTimeout p =>
      if connected w then w else settle p (Rejected "WebSocket 连接超时") w
  | joinTimeout p taskId =>
      settle p (Resolved ∅)
        (with_socket (sk_off "joined" (onJoined p taskId)) w)
  | confirmTimeout p taskId =>
      settle p (Resolved ∅)
        (with_socket (sk_off "room_confirmed" (onConfirmed p taskId)) w)
  | instructionTimeout p taskId =>
      settle p (Rejected "发送指令超时")
        (drop_instruction_listeners p taskId w)
  | graceTeardown =>
      if decide (connectionRefCount w = 0) then
        match socket w with
        | Some _ => disconnect w
        | None => w
        end
      else w
  end.

(** Timers that are due run in the order of their deadlines, and in the
    order they were set when the deadlines agree. *)
Fixpoint insert_by_due (t : Timer) (l : list Timer) : list Timer :=
  match l with
  | [] => [t]
  | u :: l' =>
      if decide (due t <= due u) then t :: l
      else u :: insert_by_due t l'
  end.

Definition by_due (l : list Timer) : list Timer :=
  foldr insert_by_due [] l.

(** Let [dt] milliseconds pass: every timer due by then runs, and the
    clock moves on.  No timer task sets or clears a timer. *)
Definition elapse (dt : Z) (w : World) : World :=
  let t1 := clock w + dt in
  let ready := by_due (filter (fun t => due t <= t1) (timers w)) in
  let w := set_timers (filter (fun t => ¬ (due t <= t1)) (timers w)) w in
  set_clock t1 (foldl (fun acc t => fire (task t) acc) w ready).

(** *** The listener registry *)

(** What one call of [useSocket()] closes over.  [componentListeners] is
    a [Map<string, Set<Function>>]; both levels keep insertion order,
    which is the order [cleanupComponentListeners] walks them in. *)
Record Instance := {
  componentMounted : bool;
  componentListeners : list (string * list Callback)
}.

Definition set_componentMounted (x : bool) (i : Instance) : Instance :=
  {| componentMounted := x; componentListeners := componentListeners i |}.

Definition set_componentListeners (x : list (string * list Callback))
    (i : Instance) : Instance :=
  {| componentMounted := componentMounted i; componentListeners := x |}.

(** [m.get(ev)] *)
Fixpoint cl_get (ev : string) (m : list (string * list Callback))
    : option (list Callback) :=
  match m with
  | [] => None
  | (e, s) :: m' => if decide (e = ev) then Some s else cl_get ev m'
  end.

(** Apply a mutation to the set stored under [ev], if there is one:
    [m.get(ev)?.f(...)]. *)
Fixpoint cl_update (ev : string) (f : list Callback -> list Callback)
    (m : list (string * list Callback)) : list (string * list Callback) :=
  match m with
  | [] => []
  | (e, s) :: m' =>
      if decide (e = ev) then (e, f s) :: m'
      else (e, s) :: cl_update ev f m'
  end.

(** [s.add(cb)] and [s.delete(cb)] on a [Set]. *)
Definition set_add (cb : Callback) (s : list Callback) : list Callback :=
  if decide (cb ∈ s) then s else s ++ [cb].

Definition set_delete (cb : Callback) (s : list Callback)
    : list Callback :=
  filter (fun c => c ≠ cb) s.

(** The last four lines of [on]. *)
Definition track (ev : string) (cb : Callback)
    (m : list (string * list Callback)) : list (string * list Callback) :=
  let m :=
    match cl_get ev m with
    | Some _ => m
    | None => m ++ [(ev, [])]
    end in
  cl_update ev (set_add cb) m.

Definition on (event : string) (callback : Callback)
    (wi : World * Instance) : World * Instance :=
  let (w, i) := wi in
  match socket w with
  | None => (w, i)
  | Some _ =>
      let g := globalEventListeners w in
      let g :=
        match g !! event with
        | Some _ => g
        | None => <[event := ∅]> g
        end in
      let eventCallbacks := default ∅ (g !! event) in
      let w :=
        match eventCallbacks !! callback with
        | Some count =>
            set_globalEventListeners
              (<[event := <[callback := count + 1]> eventCallbacks]> g) w
        | None =>
            with_socket (sk_on event callback)
              (set_globalEventListeners
                 (<[event := <[callback := 1]> eventCallbacks]> g) w)
        end in
      (w, set_componentListeners
            (track event callback (componentListeners i)) i)
  end.

Definition off (event : string) (callback : option Callback)
    (wi : World * Instance) : World * Instance :=
  let (w, i) := wi in
  match socket w with
  | None => (w, i)
  | Some _ =>
      match callback with
      | Some cb =>
          let g := globalEventListeners w in
          let w :=
            match g !! event with
            | Some eventCallbacks =>
                match eventCallbacks !! cb with
                | Some count =>
                    if decide (1 < count) then
                      set_globalEventListeners
                        (<[event := <[cb := count - 1]> eventCallbacks]> g)
                        w
                    else
                      with_socket (sk_off event cb)
                        (set_globalEventListeners
                           (<[event := delete cb eventCallbacks]> g) w)
                | None => w
                end
            | None => w
            end in
          (w, set_componentListeners
                (cl_update event (set_delete cb) (componentListeners i)) i)
      | None =>
          let w := with_socket (sk_off_all event) w in
          let w :=
            set_globalEventListeners
              (delete event (globalEventListeners w)) w in
          (w, set_componentListeners
                (filter (fun x => fst x ≠ event) (componentListeners i)) i)
      end
  end.

(** The two loops visit every pair that is tracked when they start: the
    only change [off] makes to the collection under iteration is to
    delete the element being visited. *)
Definition cleanupComponentListeners (wi : World * Instance)
    : World * Instance :=
  let (w', i') :=
    foldl
      (fun acc entry =>
         foldl (fun acc cb => off (fst entry) (Some cb) acc) acc
           (snd entry))
      wi (componentListeners (snd wi)) in
  (w', set_componentListeners [] i').

(** *** Life cycle of an owner *)

Definition onMounted (wi : World * Instance) : World * Instance :=
  let (w, i) := wi in
  (set_connectionRefCount (connectionRefCount w + 1) w,
   set_componentMounted true i).

Definition onUnmounted (wi : World * Instance) : World * Instance :=
  let (w, i) := wi in
  if componentMounted i then
    let i := set_componentMounted false i in
    let w := set_connectionRefCount (connectionRefCount w - 1) w in
    let (w, i) := cleanupComponentListeners (w, i) in
    if decide (connectionRefCount w = 0)
    then (fst (setTimeout graceTeardown 5000 w), i)
    else (w, i)
  else (w, i).

(** What [useSocket()] sets up for its caller. *)
Definition fresh_instance : Instance :=
  {| componentMounted := false; componentListeners := [] |}.

(** *** The whole system and what can happen to it *)

Record System := { world : World; owners : list Instance }.

Definition start : System := {| world := loaded; owners := [] |}.

(** Calls made by the UI, events raised by the transport, messages of
    the server, and the passing of time. *)
Inductive Action :=
| UseSocket
| Mount (o : nat)
| Unmount (o : nat)
| On (o : nat) (event : string) (f : nat)
| Off (o : nat) (event : string) (f : option nat)
| Cleanup (o : nat)
| Connect
| Disconnect
| JoinTask (taskId : string)
| LeaveTask (taskId : string)
| ConfirmRoom (taskId : string)
| SendInstruction (taskId instruction : string)
| Emit (event : string) (data : gmap string string)
| TransportUp
| TransportDown (reason : string)
| TransportError (msg : string)
| Recv (event : string) (data : gmap string string)
| Elapse (dt : Z).

Definition in_world (f : World -> World) (s : System) : System :=
  {| world := f (world s); owners := owners s |}.

(** A call made through the functions owner [o] got from [useSocket()];
    there is nothing to call for an [o] that was never handed out. *)
Definition as_owner (o : nat)
    (f : World * Instance -> World * Instance) (s : System) : System :=
  match owners s !! o with
  | Some i =>
      let (w, i') := f (world s, i) in
      {| world := w; owners := <[o := i']> (owners s) |}
  | None => s
  end.

(** The names socket.io keeps for its own notifications; the server
    cannot send them. *)
Definition reserved (ev : string) : bool :=
  bool_decide (ev ∈ ["connect"; "disconnect"; "connect_error"]).

Definition step (a : Action) (s : System) : System :=
  match a with
  | UseSocket =>
      {| world := world s; owners := owners s ++ [fresh_instance] |}
  | Mount o => as_owner o onMounted s
  | Unmount o => as_owner o onUnmounted s
  | On o ev f => as_owner o (on ev (handler f)) s
  | Off o ev f => as_owner o (off ev (handler <$> f)) s
  | Cleanup o => as_owner o cleanupComponentListeners s
  | Connect => in_world (fun w => fst (connect w)) s
  | Disconnect => in_world disconnect s
  | JoinTask t => in_world (fun w => fst (joinTask t w)) s
  | LeaveTask t => in_world (leaveTask t) s
  | ConfirmRoom t => in_world (fun w => fst (confirmRoom t w)) s
  | SendInstruction t x => in_world (fun w => fst (sendInstruction t x w)) s
  | Emit ev d => in_world (emit ev d) s
  | TransportUp =>
      in_world
        (fun w => deliver "connect" ∅
                    (with_socket (sk_set_connected true) w)) s
  | TransportDown reason =>
      in_world
        (fun w => deliver "disconnect" {[ "reason" := reason ]}
                    (with_socket (sk_set_connected false) w)) s
  | TransportError msg =>
      in_world (deliver "connect_error" {[ "message" := msg ]}) s
  | Recv ev d =>
      if reserved ev then s else in_world (deliver ev d) s
  | Elapse dt => in_world (elapse dt) s
  end.

Definition run (tr : list Action) (s : System) : System :=
  foldl (fun acc a => step a acc) s tr.

(** *** Observations *)

(** [globalEventListeners.get(event)?.get(cb)]: the count stored for a
    binding, if the registry holds one. *)
Definition binding (event : string) (cb : Callback) (w : World)
    : option Z :=
  globalEventListeners w !! event ≫= fun m => m !! cb.

(** The reference count of a binding; a binding that is not in the
    registry counts as zero. *)
Definition refCount (event : string) (cb : Callback) (w : World) : Z :=
  default 0 (binding event cb w).

(** How many times the pair is bound on the socket itself. *)
Definition subscriptions (event : string) (cb : Callback) (w : World)
    : nat :=
  match socket w with
  | Some sk =>
      length (filter (fun x => x = (event, cb)) (sk_listeners sk))
  | None => 0%nat
  end.

Definition mounted_owners (l : list Instance) : Z :=
  Z.of_nat (length (filter (fun i => componentMounted i = true) l)).

(** *** Vocabulary of the registry properties *)

(** The calls [on(event, f)] and [off(event, f)] made by owner [o]. *)
Definition to_on (event : string) (f : nat) (o : nat) : Action :=
  On o event f.
Definition to_off (event : string) (f : nat) (o : nat) : Action :=
  Off o event (Some f).

Definition on_this_pair (event : string) (f : nat) (a : Action) : Prop :=
  exists o, a = to_on event f o \/ a = to_off event f o.

(** The state of one binding: absent from the registry and from the
    socket, or counted at least once and bound on the socket once. *)
Definition bound_once (event : string) (cb : Callback) (w : World) : Prop :=
  is_Some (socket w)
  /\ ((binding event cb w = None /\ subscriptions event cb w = 0%nat)
      \/ (exists c, 1 <= c /\ binding event cb w = Some c
                    /\ subscriptions event cb w = 1%nat)).

(** An owner whose tracking set does not hold the pair (any more):
    [componentListeners.get(event)?.delete(cb)] would change nothing. *)
Definition released (event : string) (cb : Callback) (i : Instance) : Prop :=
  cl_update event (set_delete cb) (componentListeners i)
  = componentListeners i.

(** The pairs an owner tracks, in the order its cleanup visits them. *)
Definition tracked_pairs (m : list (string * list Callback))
    : list (string * Callback) :=
  m ≫= fun x => pair x.1 <$> x.2.

(** What a [Map] of [Set]s is: no key twice, no element twice. *)
Definition well_tracked (m : list (string * list Callback)) : Prop :=
  NoDup m.*1 /\ Forall (fun x => NoDup x.2) m.

(** *** Vocabulary of the life-cycle properties *)

(** Does a teardown timer come due while [dt] milliseconds pass? *)
Definition teardown_due (dt : Z) (w : World) : bool :=
  bool_decide
    (Exists (fun t => task t = graceTeardown /\ due t <= clock w + dt)
       (timers w)).

(** Along the trace, whenever time passes far enough for a teardown timer
    to run, the reference count is not zero. *)
Fixpoint held_when_due (tr : list Action) (s : System) : bool :=
  match tr with
  | [] => true
  | a :: tr' =>
      match a with
      | Elapse dt =>
          implb (teardown_due dt (world s))
            (bool_decide (connectionRefCount (world s) ≠ 0))
      | _ => true
      end && held_when_due tr' (step a s)
  end.

(** What most of the module does to the shared connection: nothing.  The
    count is the same and a socket that was there is still there. *)
Definition keeps_connection (w w' : World) : Prop :=
  connectionRefCount w' = connectionRefCount w
  /\ (is_Some (socket w) -> is_Some (socket w')).

Definition b2z (b : bool) : Z := if b then 1 else 0.

(** More owners are never counted as mounted than hold a reference. *)
Definition count_covers_owners (s : System) : Prop :=
  mounted_owners (owners s) <= connectionRefCount (world s).

(** *** Vocabulary of the promise properties *)

(** The promise whose executor created a closure, and the timer the
    closure clears. *)
Definition cb_promise (cb : Callback) : option nat :=
  match cb with
  | handler _ => None
  | onConnect p _ | onDisconnect p | onConnectError p _
  | onJoined p _ | onConfirmed p _ | onReceived p _ | onError p _ => Some p
  end.

Definition cb_timer (cb : Callback) : option nat :=
  match cb with
  | onConnect _ timeoutId | onConnectError _ timeoutId => Some timeoutId
  | _ => None
  end.

Definition task_promise (tk : TimerTask) : option nat :=
  match tk with
  | connectTimeout p | joinTimeout p _ | confirmTimeout p _
  | instructionTimeout p _ => Some p
  | graceTeardown => None
  end.

(** The listeners bound on the current socket, none without a socket. *)
Definition listeners (w : World) : list (string * Callback) :=
  from_option sk_listeners [] (socket w).

Definition below (n : nat) (x : option nat) : Prop :=
  match x with
  | Some k => (k < n)%nat
  | None => True
  end.

(** Closures and timers only mention promises and timers that exist: the
    next promise and the next timer are not referred to yet. *)
Definition fresh_refs (w : World) : Prop :=
  Forall
    (fun tm => below (length (promises w)) (task_promise (task tm))
               /\ (timer_id tm < next_timer w)%nat) (timers w)
  /\ Forall
       (fun l => below (length (promises w)) (cb_promise l.2)
                 /\ below (next_timer w) (cb_timer l.2))
       (listeners w).

(** Settled promises stay as they are, and the two counters only grow. *)
Definition grows (w w' : World) : Prop :=
  (forall p, promise p w ≠ Pending -> promise p w' = promise p w)
  /\ (length (promises w) <= length (promises w'))%nat
  /\ (next_timer w <= next_timer w')%nat.

(** While a [joinTask] promise [p] with timer [tid] is around: nothing
    but its own listener and its own timer refers to [p], no closure
    clears [tid], and [p] is pending or resolved. *)
Definition join_confined (p tid : nat) (t : string) (w : World) : Prop :=
  (p < length (promises w))%nat
  /\ (tid < next_timer w)%nat
  /\ Forall
       (fun tm => task_promise (task tm) = Some p
                  -> task tm = joinTimeout p t) (timers w)
  /\ Forall
       (fun l => (cb_promise l.2 = Some p -> l.2 = onJoined p t)
                 /\ cb_timer l.2 ≠ Some tid)
       (listeners w)
  /\ (promise p w = Pending \/ promise p w = Resolved ∅).

(** A pending [joinTask] promise still has its timer ahead of it. *)
Definition join_armed (p tid : nat) (deadline : Z) (t : string)
    (w : World) : Prop :=
  promise p w = Pending ->
  {| timer_id := tid; due := deadline; task := joinTimeout p t |}
    ∈ timers w
  /\ clock w < deadline.

(** What may be bound or scheduled next to a [joinTask] promise. *)
Definition ok_listener (p tid : nat) (t : string) (l : string * Callback)
    : Prop :=
  (cb_promise l.2 = Some p -> l.2 = onJoined p t) /\ cb_timer l.2 ≠ Some tid.

Definition ok_task (p : nat) (t : string) (tk : TimerTask) : Prop :=
  task_promise tk = Some p -> tk = joinTimeout p t.

(** The invariant of a [joinTask] promise; while timers run, the ones
    that are due have left the queue, and only the first half is asked
    for ([strict = false]). *)
Definition join_ok (p tid : nat) (deadline : Z) (t : string)
    (strict : bool) (w : World) : Prop :=
  join_confined p tid t w
  /\ (strict = true -> join_armed p tid deadline t w).

(** *** Vocabulary of the instruction properties *)

(** What the world outside the UI does: the transport's notifications,
    the server's messages, and time. *)
Definition from_outside (a : Action) : Prop :=
  match a with
  | TransportUp | TransportDown _ | TransportError _ | Recv _ _
  | Elapse _ => True
  | _ => False
  end.

(** The rule for an instruction sent for task [t] at time [now] with the
    deadline [deadline], read off a trace of outside events: the first of
    an [instruction_received] for [t], an [instruction_error] for [t], and
    the deadline decides, and it decides for good. *)
Fixpoint instruction_outcome (t : string) (deadline now : Z)
    (tr : list Action) : Settlement :=
  match tr with
  | [] => Pending
  | Recv ev d :: tr' =>
      if decide (ev = "instruction_received" /\ d !! "task_id" = Some t)
      then Resolved d
      else if decide (ev = "instruction_error" /\ d !! "task_id" = Some t)
      then Rejected (Js.or_else (d !! "error") "发送指令失败")
      else instruction_outcome t deadline now tr'
  | Elapse dt :: tr' =>
      if decide (deadline <= now + dt) then Rejected "发送指令超时"
      else instruction_outcome t deadline (now + dt) tr'
  | _ :: tr' => instruction_outcome t deadline now tr'
  end.

(** Around a [sendInstruction] promise [p] with timer [tid]: some owner
    holds the connection, the only timer that refers to [p] is its own,
    the only listeners that refer to [p] are its own two, and no closure
    clears [tid]. *)
Definition instr_confined (p tid : nat) (deadline : Z) (t : string)
    (w : World) : Prop :=
  (p < length (promises w))%nat
  /\ connectionRefCount w ≠ 0
  /\ Forall
       (fun tm => task_promise (task tm) = Some p
                  -> tm = {| timer_id := tid; due := deadline;
                             task := instructionTimeout p t |}) (timers w)
  /\ Forall
       (fun l => (cb_promise l.2 = Some p
                  -> l = ("instruction_received", onReceived p t)
                     \/ l = ("instruction_error", onError p t))
                 /\ cb_timer l.2 ≠ Some tid) (listeners w).

(** The promise is pending with both listeners bound once. *)
Definition instr_waiting (p : nat) (t : string) (w : World) : Prop :=
  promise p w = Pending
  /\ subscriptions "instruction_received" (onReceived p t) w = 1%nat
  /\ subscriptions "instruction_error" (onError p t) w = 1%nat.

(** The promise is settled and neither listener is bound any more. *)
Definition instr_done (p : nat) (t : string) (w : World) : Prop :=
  promise p w ≠ Pending
  /\ subscriptions "instruction_received" (onReceived p t) w = 0%nat
  /\ subscriptions "instruction_error" (onError p t) w = 0%nat.

(** No pair is bound more often in [w'] than in [w]. *)
Definition sheds (w w' : World) : Prop :=
  forall ev cb, (subscriptions ev cb w' <= subscriptions ev cb w)%nat.

(** The timer of a [sendInstruction] promise. *)
Definition own_timer (p tid : nat) (deadline : Z) (t : string) : Timer :=
  {| timer_id := tid; due := deadline; task := instructionTimeout p t |}.

(** The waiting state of a [sendInstruction] promise at clock value [c]. *)
Definition instr_ok (p tid : nat) (deadline : Z) (t : string) (c : Z)
    (w : World) : Prop :=
  instr_confined p tid deadline t w /\ instr_waiting p t w /\ clock w = c.

(** A listener that does nothing to promise [p] when it hears [d], and
    does not clear timer [tid]. *)
Definition quiet (p tid : nat) (d : gmap string string)
    (l : string * Callback) : Prop :=
  (cb_promise l.2 ≠ Some p \/ forall w, run_callback l.2 d w = w)
  /\ cb_timer l.2 ≠ Some tid.

(** *** Vocabulary of the registry invariant *)

(** The registry and the socket agree on every pair a caller can
    register: the pair is bound at most once, a pair that is bound is
    counted, and a stored count is at least one. *)
Definition registry_ok (w : World) : Prop :=
  forall event f,
    (subscriptions event (handler f) w <= 1)%nat
    /\ match binding event (handler f) w with
       | Some c => 1 <= c
       | None => subscriptions event (handler f) w = 0%nat
       end.

(** What the parts of the module that are not [on] and [off] do to the
    callers' listeners: the registry is untouched and no pair of a caller
    gets bound (again). *)
Definition spares_handlers (w w' : World) : Prop :=
  globalEventListeners w' = globalEventListeners w
  /\ forall event f,
       (subscriptions event (handler f) w'
        <= subscriptions event (handler f) w)%nat.

(** *** Vocabulary of the room confirmation *)

(** While a [confirmRoom] promise [p] with timer [tid] is around: nothing
    but its own listener and its own timer refers to [p], no closure
    clears [tid], and [p] is pending or resolved. *)
Definition confirm_confined (p tid : nat) (t : string) (w : World) : Prop :=
  (p < length (promises w))%nat
  /\ (tid < next_timer w)%nat
  /\ Forall
       (fun tm => task_promise (task tm) = Some p
                  -> task tm = confirmTimeout p t) (timers w)
  /\ Forall
       (fun l => (cb_promise l.2 = Some p -> l.2 = onConfirmed p t)
                 /\ cb_timer l.2 ≠ Some tid)
       (listeners w)
  /\ (promise p w = Pending \/ promise p w = Resolved ∅).

(** A pending [confirmRoom] promise still has its timer ahead of it. *)
Definition confirm_armed (p tid : nat) (deadline : Z) (t : string)
    (w : World) : Prop :=
  promise p w = Pending ->
  {| timer_id := tid; due := deadline; task := confirmTimeout p t |}
    ∈ timers w
  /\ clock w < deadline.

(** What may be bound or scheduled next to a [confirmRoom] promise. *)
Definition confirm_listener (p tid : nat) (t : string) (l : string * Callback)
    : Prop :=
  (cb_promise l.2 = Some p -> l.2 = onConfirmed p t)
  /\ cb_timer l.2 ≠ Some tid.

Definition confirm_task (p : nat) (t : string) (tk : TimerTask) : Prop :=
  task_promise tk = Some p -> tk = confirmTimeout p t.

(** The invariant of a [confirmRoom] promise; while timers run, the ones
    that are due have left the queue, and only the first half is asked
    for ([strict = false]). *)
Definition confirm_ok (p tid : nat) (deadline : Z) (t : string)
    (strict : bool) (w : World) : Prop :=
  confirm_confined p tid t w
  /\ (strict = true -> confirm_armed p tid deadline t w).

End UseSocket.

(** ** The reconnection loop of useSocketReconnect *)

Module UseSocketReconnect.

Definition MAX_RECONNECT_ATTEMPTS : Z := 5.
Definition RECONNECT_DELAY : Z := 2000.

(** The refs of one [useSocketReconnect()]. *)
Record Supervisor := {
  reconnectAttempts : Z;
  isReconnecting : bool;
  currentTaskId : string
}.


(** How the awaited promises of one pass through the [try] block come
    back: [connect()] rejects, or it resolves and [joinTask] rejects, or
    neither rejects.  The transport decides; the loop only observes. *)
Inductive Awaited := connect_rejected | join_rejected | none_rejected.

(** What the loop asks of the event loop and of the composable. *)
Inductive Call :=
| wait (ms : Z)
| call_connect
| call_joinTask (taskId : string).

#[global] Instance Call_eq_dec : EqDecision Call.
Proof. solve_decision. Defined.

(** An [async] function that has run to its end: the refs it leaves,
    the calls it made, and how its promise settled, with [returned b]
    for a resolved promise and [threw] for a rejected one. *)
Inductive Completion := returned (b : bool) | threw.

Record Finished := {
  refs : Supervisor;
  calls : list Call;
  completion : Completion
}.

Definition more_calls (cs : list Call) (r : Finished) : Finished :=
  {| refs := refs r; calls := cs ++ calls r;
     completion := completion r |}.

(** The calls of the [try] block up to the first rejected promise;
    [joinTask] is only called for a non-empty [currentTaskId]. *)
Definition try_calls (a : Awaited) (taskId : string) : list Call :=
  match a with
  | connect_rejected => [wait RECONNECT_DELAY; call_connect]
  | _ =>
      if Js.truthy taskId
      then [wait RECONNECT_DELAY; call_connect; call_joinTask taskId]
      else [wait RECONNECT_DELAY; call_connect]
  end.

(** Does the [try] block reach its [catch]? *)
Definition caught (a : Awaited) (taskId : string) : bool :=
  match a with
  | connect_rejected => true
  | join_rejected => Js.truthy taskId
  | none_rejected => false
  end.

(** [attemptReconnect], run from its [k]-th pass on; [env k] tells how
    the promises awaited in pass [k] come back.  The recursion is the
    one of the source: the call in the [catch] block, guarded by the
    counter. *)
Equations? attemptReconnect (env : nat -> Awaited) (k : nat)
    (sup : Supervisor) : Finished
    by wf (Z.to_nat (MAX_RECONNECT_ATTEMPTS - reconnectAttempts sup)) lt :=
  attemptReconnect env k sup
    with decide (MAX_RECONNECT_ATTEMPTS <= reconnectAttempts sup) => {
    | left _ :=
        {| refs := {| reconnectAttempts := reconnectAttempts sup;
                      isReconnecting := false;
                      currentTaskId := currentTaskId sup |};
           calls := [];
           completion := returned false |};
    | right _ with caught (env k) (currentTaskId sup) => {
      | true :=
          more_calls (try_calls (env k) (currentTaskId sup))
            (attemptReconnect env (S k)
               {| reconnectAttempts := reconnectAttempts sup + 1;
                  isReconnecting := true;
                  currentTaskId := currentTaskId sup |});
      | false :=
          {| refs := {| reconnectAttempts := 0;
                        isReconnecting := false;
                        currentTaskId := currentTaskId sup |};
             calls := try_calls (env k) (currentTaskId sup);
             completion := returned true |} } }.
Proof. simpl. unfold MAX_RECONNECT_ATTEMPTS in *. lia. Qed.

(** The number of passes through the [try] block: each makes exactly
    one call of [connect()]. *)
Definition tries (r : Finished) : nat :=
  length (filter (fun c => c = call_connect) (calls r)).

(** The listeners that [setupReconnectHandlers] binds on the socket, as
    they act on the refs. *)

(** The listener of [reconnect_attempt]. *)
Definition onReconnectAttempt (attemptNumber : Z) (sup : Supervisor)
    : Supervisor :=
  {| reconnectAttempts := attemptNumber;
     isReconnecting := true;
     currentTaskId := currentTaskId sup |}.

(** The listener of [reconnect_failed]. *)
Definition onReconnectFailed (sup : Supervisor) : Supervisor :=
  {| reconnectAttempts := 0;
     isReconnecting := false;
     currentTaskId := currentTaskId sup |}.

(** The listener of [reconnect]: the refs it leaves and the call it
    makes; a rejected [joinTask] is caught and only logged. *)
Definition onReconnect (sup : Supervisor) : Supervisor * list Call :=
  ({| reconnectAttempts := 0;
      isReconnecting := false;
      currentTaskId := currentTaskId sup |},
   if Js.truthy (currentTaskId sup)
   then [call_joinTask (currentTaskId sup)] else []).

(** The listener of [disconnect]: only a disconnect by the server starts
    the loop. *)
Definition onDisconnect (env : nat -> Awaited) (reason : string)
    (sup : Supervisor) : Supervisor * list Call :=
  if decide (reason = "io server disconnect") then
    let r := attemptReconnect env 0 sup in (refs r, calls r)
  else (sup, []).

(** How many passes the counter still allows. *)
Definition budget (sup : Supervisor) : nat :=
  Z.to_nat (MAX_RECONNECT_ATTEMPTS - reconnectAttempts sup).

(** The calls of the passes [k], [k+1], ..., [k+n-1], in order. *)
Definition passes (env : nat -> Awaited) (taskId : string) (k n : nat)
    : list Call :=
  seq k n ≫= fun j => try_calls (env j) taskId.

Definition waited (cs : list Call) : Z :=
  foldr (fun c acc => match c with wait ms => ms + acc | _ => acc end) 0 cs.

End UseSocketReconnect.

(** ** The creation view on the socket: registerEventListeners,
    handleNewTask *)

Module CreationCenterSocket.
Import UseSocket.

(** The refs of the creation view next to those of [CreationCenter.View]
    that [handleNewTask] resets, and the flag [eventListenersRegistered].
    [handlers] numbers the function objects of this component instance:
    [handleProgress] is [handler handlers], [handleThought] the next one,
    and so on. *)
Record Component := {
  view : CreationCenter.View;
  taskId : string;
  topicInput : string;
  isTaskStarted : bool;
  generatedTitle : string;
  generatedSummary : string;
  generatedImages : list (string * Z);
  eventListenersRegistered : bool;
  handlers : nat
}.

(** The pairs that [registerEventListeners] binds, in its order. *)
Definition agent_listeners (c : Component) : list (string * Callback) :=
  [("agent:progress", handler (handlers c));
   ("agent:thought", handler (handlers c + 1));
   ("agent:response", handler (handlers c + 2));
   ("agent:tool_call", handler (handlers c + 3));
   ("agent:tool_result", handler (handlers c + 4))].

Definition set_eventListenersRegistered (x : bool) (c : Component)
    : Component :=
  {| view := view c; taskId := taskId c; topicInput := topicInput c;
     isTaskStarted := isTaskStarted c; generatedTitle := generatedTitle c;
     generatedSummary := generatedSummary c;
     generatedImages := generatedImages c;
     eventListenersRegistered := x; handlers := handlers c |}.

Definition registerEventListeners (c : Component) (wi : World * Instance)
    : Component * (World * Instance) :=
  if eventListenersRegistered c then (c, wi)
  else
    (set_eventListenersRegistered true c,
     foldl (fun acc l => on l.1 l.2 acc) wi (agent_listeners c)).

(** [handleNewTask]: leave the room, release the five listeners, reset
    the refs.  The flag is not among them.  The store that is reset last
    is outside this module. *)
Definition handleNewTask (c : Component) (wi : World * Instance)
    : Component * (World * Instance) :=
  let w :=
    if Js.truthy (taskId c) then leaveTask (taskId c) wi.1 else wi.1 in
  let wi :=
    foldl (fun acc l => off l.1 (Some l.2) acc) (w, wi.2)
      (agent_listeners c) in
  ({| view :=
        {| CreationCenter.topic := "";
           CreationCenter.currentThinking := "";
           CreationCenter.currentResponse := "";
           CreationCenter.isGenerating := false;
           CreationCenter.isComplete := false;
           CreationCenter.hasError := false;
           CreationCenter.errorMessage := "";
           CreationCenter.messages := [];
           CreationCenter.generatedPages := [];
           CreationCenter.historyRequests :=
             CreationCenter.historyRequests (view c) |};
      taskId := ""; topicInput := ""; isTaskStarted := false;
      generatedTitle := ""; generatedSummary := ""; generatedImages := [];
      eventListenersRegistered := eventListenersRegistered c;
      handlers := handlers c |},
   wi).

End CreationCenterSocket.

(** * Properties *)

(** ** Stream assembly (handleThought, handleResponse) *)

Section StreamAssembly.
Import CreationCenter.

Lemma truthy_nonempty (s : string) : s ≠ "" -> Js.truthy s = true.
Proof. intros H. unfold Js.truthy. destruct (decide (s = "")); congruence. Qed.

Lemma truthy_empty : Js.truthy "" = false.
Proof. reflexivity. Qed.

Lemma append_empty_l (s : string) : "" +:+ s = s.
Proof. reflexivity. Qed.

(** What each handler does with the three events of the wire table. *)
Lemma start_resets_thinking (t : string) (v : View) :
  handleThought t ev_start v = set_currentThinking "" v.
Proof. reflexivity. Qed.

Lemma start_is_ignored_by_response (t : string) (v : View) :
  handleResponse t ev_start v = v.
Proof. reflexivity. Qed.

Lemma token_extends_thinking (t a : string) (v : View) :
  handleThought t (ev_token a) v
  = set_currentThinking (currentThinking v +:+ a) v.
Proof. reflexivity. Qed.

Lemma token_extends_response (t a : string) (v : View) :
  handleResponse t (ev_token a) v
  = set_currentResponse (currentResponse v +:+ a) v.
Proof. reflexivity. Qed.

Lemma end_of_thinking (t : string) (v : View) :
  handleThought t ev_end v
  = set_currentThinking ""
      (if Js.truthy (currentThinking v)
       then addAssistantMessage (thoughtMessage t (currentThinking v)) v
       else v).
Proof. unfold handleThought. cbn. rewrite orb_false_r. reflexivity. Qed.

Lemma end_of_response (t : string) (v : View) :
  handleResponse t ev_end v
  = set_currentResponse ""
      (if Js.truthy (currentResponse v)
       then addAssistantMessage (responseMessage t (currentResponse v)) v
       else v).
Proof. unfold handleResponse. cbn. rewrite orb_false_r. reflexivity. Qed.

(** C1, as stated, fails: two empty fragments leave the buffer empty, and
    [end] then appends no message at all, for either kind. *)
Lemma empty_tokens_yield_no_message :
  messages
    (deliver thought
       [("09:00:00", ev_start); ("09:00:01", ev_token "");
        ("09:00:02", ev_token ""); ("09:00:03", ev_end)] initial) = []
  /\ messages
       (deliver response
          [("09:00:00", ev_start); ("09:00:01", ev_token "");
           ("09:00:02", ev_token ""); ("09:00:03", ev_end)] initial) = [].
Proof. split; reflexivity. Qed.

(** C1, amended: for either stream kind, from an empty buffer, the events
    start, token(a), token(b), end (carrying nothing but their fragment)
    with [a +:+ b] non-empty append exactly one message of that kind, whose
    text is [a +:+ b], and leave the buffer of the kind empty. *)
Theorem stream_yields_one_message (k : StreamKind)
    (a b t1 t2 t3 t4 : string) (v : View) :
  buffer k v = "" ->
  a +:+ b ≠ "" ->
  let v' :=
    deliver k
      [(t1, ev_start); (t2, ev_token a); (t3, ev_token b); (t4, ev_end)]
      v in
  messages v' = messages v ++ [finalMessage k t4 (a +:+ b)]
  /\ buffer k v' = "".
Proof.
  intros Hbuf Hne. destruct k; cbn in Hbuf |- *.
  - rewrite end_of_thinking, !token_extends_thinking, start_resets_thinking.
    cbn. rewrite append_empty_l, (truthy_nonempty _ Hne).
    split; reflexivity.
  - rewrite end_of_response, !token_extends_response,
      start_is_ignored_by_response.
    cbn. rewrite Hbuf, append_empty_l, (truthy_nonempty _ Hne).
    split; reflexivity.
Qed.

Lemma stream_yields_one_message_witness :
  buffer thought initial = ""
  /\ "Hi" +:+ "!" ≠ ""
  /\ messages
       (deliver thought
          [("09:00:00", ev_start); ("09:00:01", ev_token "Hi");
           ("09:00:02", ev_token "!"); ("09:00:03", ev_end)] initial)
     = [thoughtMessage "09:00:03" "Hi!"].
Proof.
  split; [reflexivity |]. split; [discriminate |].
  apply (stream_yields_one_message thought "Hi" "!" "09:00:00" "09:00:01"
           "09:00:02" "09:00:03" initial); [reflexivity | discriminate].
Defined.

(** C9: for either stream kind, [end] on an empty buffer with no final
    content (absent, or the empty string, which JavaScript treats alike)
    appends nothing to the message list and leaves the buffer empty. *)
Theorem end_on_empty_buffer (k : StreamKind) (t : string)
    (d : StreamData) (v : View) :
  sd_type d = "end" ->
  buffer k v = "" ->
  Js.truthy_opt (sd_content d) = false ->
  messages (handleStream k t d v) = messages v
  /\ buffer k (handleStream k t d v) = "".
Proof.
  intros Hty Hbuf Hc.
  destruct k; cbn in Hbuf |- *;
    unfold handleThought, handleResponse; rewrite Hty, Hbuf, Hc; cbn;
    split; reflexivity.
Qed.

Lemma end_on_empty_buffer_witness :
  messages (handleStream response "09:00:00" ev_end initial) = []
  /\ buffer response (handleStream response "09:00:00" ev_end initial) = "".
Proof.
  apply (end_on_empty_buffer response "09:00:00" ev_end initial);
    reflexivity.
Defined.

End StreamAssembly.

(** ** Task status (handleProgress) *)

Section TaskStatus.
Import CreationCenter.

(** No branch of [handleProgress] clears [hasError]. *)
Lemma handleProgress_keeps_error (t : string) (d : ProgressData)
    (v : View) :
  hasError v = true -> hasError (handleProgress t d v) = true.
Proof.
  intros H. unfold handleProgress, saveHistoryRecord.
  repeat case_decide; cbn; try done.
  destruct (negb _ || _); cbn; done.
Qed.

Lemma progress_keeps_error (evs : list (string * ProgressData))
    (v : View) :
  hasError v = true -> hasError (progress evs v) = true.
Proof.
  revert v. induction evs as [|e evs IH]; intros v H; [done |].
  cbn. apply IH, handleProgress_keeps_error, H.
Qed.

Lemma handleProgress_raises_error (t : string) (d : ProgressData)
    (v : View) :
  pd_type d = "error" \/ pd_type d = "cancelled" ->
  hasError (handleProgress t d v) = true.
Proof.
  intros [H | H]; unfold handleProgress; rewrite H; reflexivity.
Qed.

(** C2, as stated, fails: after [error] with message "boom", a later
    [complete] is neither ignored nor flagged.  It sets [isComplete],
    the computed [taskStatus] reads "Completed", and the completion
    notice is appended after the error notice. *)
Lemma complete_after_error_is_accepted :
  let failed := progress [("09:00:00", pd_of "error" (Some "boom"))] initial in
  let later := progress [("09:00:01", pd_of "complete" None)] failed in
  errorMessage failed = "boom"
  /\ isComplete failed = false
  /\ isComplete later = true
  /\ taskStatus later = "Completed"
  /\ content <$> messages later = [Some "错误: boom"; Some "创作完成！"].
Proof. repeat split. Qed.

(** C2, amended: once a progress event of subtype error or cancelled has
    been processed, [hasError] stays set under every later sequence of
    progress events, so the computed status class and badge keep reading
    "error" whatever [complete] events follow.  (Such a [complete] still
    sets [isComplete]; that part is not promised.) *)
Theorem error_status_is_sticky (t : string) (d : ProgressData)
    (evs : list (string * ProgressData)) (v : View) :
  pd_type d = "error" \/ pd_type d = "cancelled" ->
  let v' := progress ((t, d) :: evs) v in
  hasError v' = true
  /\ statusClass v' = "error"
  /\ statusBadgeText v' = "AGENT ERROR".
Proof.
  intros H v'.
  assert (He : hasError v' = true).
  { subst v'.
    change (progress ((t, d) :: evs) v)
      with (progress evs (handleProgress t d v)).
    apply progress_keeps_error, handleProgress_raises_error, H. }
  unfold statusClass, statusBadgeText. rewrite He. done.
Qed.

Lemma error_status_is_sticky_witness :
  let v' :=
    progress [("09:00:00", pd_of "error" (Some "boom"));
              ("09:00:01", pd_of "complete" None)] initial in
  hasError v' = true
  /\ statusClass v' = "error"
  /\ statusBadgeText v' = "AGENT ERROR".
Proof.
  apply (error_status_is_sticky "09:00:00" (pd_of "error" (Some "boom"))
           [("09:00:01", pd_of "complete" None)] initial).
  left. reflexivity.
Defined.

End TaskStatus.

(** ** The listener registry (on, off, cleanupComponentListeners) *)

Section Registry.
Import UseSocket.

Implicit Types (w : World) (i : Instance) (s : System) (cb : Callback).

Lemma count_remove_first (x y : string * Callback)
    (l : list (string * Callback)) :
  length (filter (fun z => z = y) (remove_first x l))
  = if decide (x = y) then pred (length (filter (fun z => z = y) l))
    else length (filter (fun z => z = y) l).
Proof.
  induction l as [|z l IH]; [by case_decide |].
  change (remove_first x (z :: l))
    with (if decide (x = z) then l else z :: remove_first x l).
  destruct (decide (x = z)) as [->|Hxz]; rewrite !filter_cons.
  - destruct (decide (z = y)) as [->|]; done.
  - destruct (decide (z = y)) as [->|]; cbn; rewrite IH.
    + destruct (decide (x = y)); done.
    + done.
Qed.

Lemma count_snoc (x y : string * Callback) (l : list (string * Callback)) :
  length (filter (fun z => z = y) (l ++ [x]))
  = if decide (x = y) then S (length (filter (fun z => z = y) l))
    else length (filter (fun z => z = y) l).
Proof.
  rewrite filter_app, length_app, filter_cons, filter_nil.
  case_decide; cbn; lia.
Qed.

(** [on] with a socket: the binding is created at one or counted up, and
    the socket is subscribed only when the binding is created. *)
Lemma on_binding event cb w i sk :
  socket w = Some sk ->
  binding event cb (on event cb (w, i)).1
  = Some (match binding event cb w with Some c => c + 1 | None => 1 end).
Proof.
  intros Hs. unfold on, binding. rewrite Hs.
  destruct (globalEventListeners w !! event) as [m|] eqn:Hg; cbn.
  - rewrite Hg. cbn. destruct (m !! cb) as [c|] eqn:Hm; cbn.
    + by rewrite lookup_insert_eq; cbn; rewrite lookup_insert_eq.
    + unfold with_socket; cbn. rewrite Hs; cbn.
      by rewrite lookup_insert_eq; cbn; rewrite lookup_insert_eq.
  - rewrite lookup_insert_eq. cbn. rewrite lookup_empty.
    unfold with_socket; cbn. rewrite Hs; cbn.
    by rewrite lookup_insert_eq; cbn; rewrite lookup_insert_eq.
Qed.

Lemma on_subscriptions event cb w i sk :
  socket w = Some sk ->
  subscriptions event cb (on event cb (w, i)).1
  = match binding event cb w with
    | Some _ => subscriptions event cb w
    | None => S (subscriptions event cb w)
    end.
Proof.
  intros Hs. unfold on, binding, subscriptions. rewrite Hs.
  destruct (globalEventListeners w !! event) as [m|] eqn:Hg; cbn.
  - rewrite Hg. cbn. destruct (m !! cb) as [c|] eqn:Hm; cbn.
    + by rewrite Hs.
    + unfold with_socket; cbn. rewrite Hs; cbn.
      rewrite count_snoc. by case_decide.
  - rewrite lookup_insert_eq. cbn. rewrite lookup_empty.
    unfold with_socket; cbn. rewrite Hs; cbn.
    rewrite count_snoc. by case_decide.
Qed.

Lemma on_keeps_socket event cb w i :
  is_Some (socket w) -> is_Some (socket (on event cb (w, i)).1).
Proof.
  intros [sk Hs]. unfold on. rewrite Hs.
  repeat case_match; cbn; unfold with_socket; cbn; rewrite ?Hs; cbn; eauto.
Qed.

Lemma off_binding event cb w i sk :
  socket w = Some sk ->
  binding event cb (off event (Some cb) (w, i)).1
  = match binding event cb w with
    | Some c => if decide (1 < c) then Some (c - 1) else None
    | None => None
    end.
Proof.
  intros Hs. unfold off, binding. rewrite Hs.
  destruct (globalEventListeners w !! event) as [m|] eqn:Hg; cbn.
  - destruct (m !! cb) as [c|] eqn:Hm; cbn.
    + case_decide; cbn.
      * by rewrite lookup_insert_eq; cbn; rewrite lookup_insert_eq.
      * unfold with_socket; cbn. rewrite Hs; cbn.
        by rewrite lookup_insert_eq; cbn; rewrite lookup_delete_eq.
    + by rewrite Hg; cbn.
  - by rewrite Hg.
Qed.

Lemma off_subscriptions event cb w i sk :
  socket w = Some sk ->
  subscriptions event cb (off event (Some cb) (w, i)).1
  = match binding event cb w with
    | Some c =>
        if decide (1 < c) then subscriptions event cb w
        else pred (subscriptions event cb w)
    | None => subscriptions event cb w
    end.
Proof.
  intros Hs. unfold off, binding, subscriptions. rewrite Hs.
  destruct (globalEventListeners w !! event) as [m|] eqn:Hg; cbn.
  - destruct (m !! cb) as [c|] eqn:Hm; cbn.
    + case_decide; cbn.
      * by rewrite Hs.
      * unfold with_socket; cbn. rewrite Hs; cbn.
        rewrite count_remove_first. by case_decide.
    + by rewrite Hs.
  - by rewrite Hs.
Qed.

(** [off] for a pair the registry does not hold leaves the shared state
    as it is. *)
Lemma off_unbound event cb w i :
  binding event cb w = None -> (off event (Some cb) (w, i)).1 = w.
Proof.
  unfold off, binding. intros Hb.
  destruct (socket w); [|done].
  destruct (globalEventListeners w !! event) as [m|]; cbn in *; [|done].
  by rewrite Hb.
Qed.

Lemma off_keeps_socket event cb w i :
  is_Some (socket w) -> is_Some (socket (off event (Some cb) (w, i)).1).
Proof.
  intros [sk Hs]. unfold off. rewrite Hs.
  repeat case_match; cbn; unfold with_socket; cbn; rewrite ?Hs; cbn; eauto.
Qed.

(** Calls for one pair do not touch the count of another. *)
Lemma on_binding_other event cb event' cb' w i :
  (event', cb') ≠ (event, cb) ->
  binding event cb (on event' cb' (w, i)).1 = binding event cb w.
Proof.
  intros Hne. unfold on, binding.
  destruct (socket w) as [sk|] eqn:Hs; [|done].
  destruct (decide (event' = event)) as [->|He].
  - assert (cb' ≠ cb) by congruence.
    destruct (globalEventListeners w !! event) as [m|] eqn:Hg; cbn.
    + rewrite Hg; cbn.
      destruct (m !! cb'); cbn; unfold with_socket; cbn; rewrite ?Hs; cbn;
        rewrite lookup_insert_eq; cbn; by rewrite lookup_insert_ne.
    + rewrite lookup_insert_eq; cbn. rewrite lookup_empty.
      unfold with_socket; cbn; rewrite Hs; cbn.
      rewrite lookup_insert_eq; cbn. by rewrite lookup_insert_ne.
  - destruct (globalEventListeners w !! event') as [m|] eqn:Hg; cbn.
    + rewrite Hg; cbn.
      destruct (m !! cb'); cbn; unfold with_socket; cbn; rewrite ?Hs; cbn;
        by rewrite lookup_insert_ne.
    + rewrite lookup_insert_eq; cbn. rewrite lookup_empty.
      unfold with_socket; cbn; rewrite Hs; cbn.
      by rewrite !lookup_insert_ne.
Qed.

Lemma off_binding_other event cb event' cb' w i :
  (event', cb') ≠ (event, cb) ->
  binding event cb (off event' (Some cb') (w, i)).1 = binding event cb w.
Proof.
  intros Hne. unfold off, binding.
  destruct (socket w) as [sk|] eqn:Hs; [|done].
  destruct (globalEventListeners w !! event') as [m|] eqn:Hg; cbn; [|done].
  destruct (m !! cb') as [c|] eqn:Hm; cbn; [|done].
  destruct (decide (event' = event)) as [->|He].
  - assert (cb' ≠ cb) by congruence. rewrite Hg; cbn.
    case_decide; cbn; unfold with_socket; cbn; rewrite ?Hs; cbn;
      rewrite lookup_insert_eq; cbn.
    + by rewrite lookup_insert_ne.
    + by rewrite lookup_delete_ne.
  - case_decide; cbn; unfold with_socket; cbn; rewrite ?Hs; cbn;
      by rewrite lookup_insert_ne.
Qed.

(** *** Calls made by owners *)

Lemma as_owner_world o f s i :
  owners s !! o = Some i ->
  world (as_owner o f s) = (f (world s, i)).1.
Proof. intros H. unfold as_owner. rewrite H. by destruct (f _). Qed.

Lemma as_owner_owners o f s i :
  owners s !! o = Some i ->
  owners (as_owner o f s) = <[o := (f (world s, i)).2]> (owners s).
Proof. intros H. unfold as_owner. rewrite H. by destruct (f _). Qed.

Lemma as_owner_nobody o f s :
  owners s !! o = None -> as_owner o f s = s.
Proof. intros H. unfold as_owner. by rewrite H. Qed.

Lemma as_owner_length o f s :
  length (owners (as_owner o f s)) = length (owners s).
Proof.
  destruct (owners s !! o) as [i|] eqn:H.
  - rewrite (as_owner_owners _ _ _ _ H). apply length_insert.
  - by rewrite as_owner_nobody.
Qed.

Lemma run_app tr1 tr2 s : run (tr1 ++ tr2) s = run tr2 (run tr1 s).
Proof. apply foldl_app. Qed.

Lemma run_cons a tr s : run (a :: tr) s = run tr (step a s).
Proof. reflexivity. Qed.

Section OnePair.
Variables (event : string) (f : nat).

Lemma bound_once_bounds w :
  bound_once event (handler f) w ->
  0 <= refCount event (handler f) w
  /\ (subscriptions event (handler f) w <= 1)%nat.
Proof.
  unfold refCount. intros [_ [[-> ->]|(c & Hc & -> & ->)]]; cbn; lia.
Qed.

Lemma on_bound_once w i :
  bound_once event (handler f) w ->
  bound_once event (handler f) (on event (handler f) (w, i)).1.
Proof.
  intros [[sk Hs] H]. split; [apply on_keeps_socket; eauto |].
  right. rewrite (on_binding _ _ _ _ _ Hs), (on_subscriptions _ _ _ _ _ Hs).
  destruct H as [[-> ->]|(c & Hc & -> & ->)].
  - exists 1. done.
  - exists (c + 1). split; [lia | done].
Qed.

Lemma off_bound_once w i :
  bound_once event (handler f) w ->
  bound_once event (handler f) (off event (Some (handler f)) (w, i)).1.
Proof.
  intros [[sk Hs] H]. split; [apply off_keeps_socket; eauto |].
  rewrite (off_binding _ _ _ _ _ Hs), (off_subscriptions _ _ _ _ _ Hs).
  destruct H as [[-> ->]|(c & Hc & -> & ->)].
  - left. done.
  - case_decide.
    + right. exists (c - 1). split; [lia | done].
    + left. done.
Qed.

Lemma step_bound_once a s :
  on_this_pair event f a ->
  bound_once event (handler f) (world s) ->
  bound_once event (handler f) (world (step a s)).
Proof.
  intros [o [-> | ->]] H; cbn;
    (destruct (owners s !! o) as [i|] eqn:Ho;
     [rewrite (as_owner_world _ _ _ _ Ho) | by rewrite as_owner_nobody]).
  - by apply on_bound_once.
  - by apply off_bound_once.
Qed.

Lemma run_bound_once tr s :
  Forall (on_this_pair event f) tr ->
  bound_once event (handler f) (world s) ->
  bound_once event (handler f) (world (run tr s)).
Proof.
  intros Htr. revert s. induction Htr as [|a tr Ha _ IH]; intros s H; [done |].
  rewrite run_cons. by apply IH, step_bound_once.
Qed.

(** [n] calls of [on] by owners that exist count the binding up by [n]. *)
Lemma run_ons os s :
  Forall (fun o => o < length (owners s))%nat os ->
  is_Some (socket (world s)) ->
  let s' := run (to_on event f <$> os) s in
  is_Some (socket (world s'))
  /\ length (owners s') = length (owners s)
  /\ match binding event (handler f) (world s) with
     | Some c =>
         binding event (handler f) (world s') = Some (c + Z.of_nat (length os))
         /\ subscriptions event (handler f) (world s')
            = subscriptions event (handler f) (world s)
     | None =>
         os ≠ [] ->
         binding event (handler f) (world s') = Some (Z.of_nat (length os))
         /\ subscriptions event (handler f) (world s')
            = S (subscriptions event (handler f) (world s))
     end.
Proof.
  intros Hos. revert s Hos.
  induction os as [|o os IH]; intros s Hos Hsock; cbn.
  - split; [done |]. split; [done |].
    destruct (binding _ _ _) as [c|] eqn:Hb; [|done].
    split; [f_equal; lia | done].
  - apply Forall_cons in Hos as [Ho Hos].
    destruct (lookup_lt_is_Some_2 _ _ Ho) as [i Hi].
    destruct Hsock as [sk Hs].
    set (s1 := as_owner o (on event (handler f)) s).
    assert (Hw1 : world s1 = (on event (handler f) (world s, i)).1)
      by by apply as_owner_world.
    assert (Hlen : length (owners s1) = length (owners s))
      by apply as_owner_length.
    assert (Hs1 : is_Some (socket (world s1))).
    { rewrite Hw1. apply on_keeps_socket. eauto. }
    specialize (IH s1). rewrite Hlen in IH.
    destruct (IH Hos Hs1) as (IH1 & IH2 & IH3).
    change (foldl (fun acc a => step a acc) s1 (to_on event f <$> os))
      with (run (to_on event f <$> os) s1).
    split; [done |]. split; [done |].
    rewrite Hw1, (on_binding _ _ _ _ _ Hs), (on_subscriptions _ _ _ _ _ Hs)
      in IH3.
    destruct (binding event (handler f) (world s)) as [c|].
    + destruct IH3 as [-> ->]. split; [f_equal; lia | done].
    + intros _. destruct IH3 as [-> ->]. split; [f_equal; lia | done].
Qed.

(** Calls of [off] by owners that exist count the binding down, and the
    call that finds it at one removes it from registry and socket. *)
Lemma run_offs os s c :
  Forall (fun o => o < length (owners s))%nat os ->
  is_Some (socket (world s)) ->
  binding event (handler f) (world s) = Some c ->
  Z.of_nat (length os) <= c ->
  1 <= c ->
  let s' := run (to_off event f <$> os) s in
  is_Some (socket (world s'))
  /\ length (owners s') = length (owners s)
  /\ if decide (Z.of_nat (length os) = c) then
       binding event (handler f) (world s') = None
       /\ subscriptions event (handler f) (world s')
          = pred (subscriptions event (handler f) (world s))
     else
       binding event (handler f) (world s') = Some (c - Z.of_nat (length os))
       /\ subscriptions event (handler f) (world s')
          = subscriptions event (handler f) (world s).
Proof.
  intros Hos. revert s c Hos.
  induction os as [|o os IH]; intros s c Hos Hsock Hb Hle Hc; cbn.
  - split; [done |]. split; [done |]. rewrite decide_False by (cbn; lia).
    rewrite Hb. split; [f_equal; lia | done].
  - apply Forall_cons in Hos as [Ho Hos].
    destruct (lookup_lt_is_Some_2 _ _ Ho) as [i Hi].
    destruct Hsock as [sk Hs].
    set (s1 := as_owner o (off event (Some (handler f))) s).
    assert (Hw1 : world s1 = (off event (Some (handler f)) (world s, i)).1)
      by by apply as_owner_world.
    assert (Hlen : length (owners s1) = length (owners s))
      by apply as_owner_length.
    assert (Hs1 : is_Some (socket (world s1))).
    { rewrite Hw1. apply off_keeps_socket. eauto. }
    change (foldl (fun acc a => step a acc) s1 (to_off event f <$> os))
      with (run (to_off event f <$> os) s1).
    pose proof (off_binding event (handler f) _ i _ Hs) as Hb1.
    pose proof (off_subscriptions event (handler f) _ i _ Hs) as Hn1.
    rewrite Hb in Hb1, Hn1. rewrite <- Hw1 in Hb1, Hn1.
    cbn in Hle. destruct (decide (1 < c)) as [Hgt|Hgt].
    + specialize (IH s1 (c - 1)). rewrite Hlen in IH.
      destruct (IH Hos Hs1 Hb1 ltac:(lia) ltac:(lia)) as (IH1 & IH2 & IH3).
      split; [done |]. split; [done |].
      rewrite Hn1 in IH3.
      destruct (decide (Z.of_nat (length os) = c - 1)).
      * rewrite decide_True by (cbn; lia). done.
      * rewrite decide_False by (cbn; lia).
        destruct IH3 as [-> ->]. split; [f_equal; lia | done].
    + assert (c = 1) as -> by lia.
      destruct os as [|o' os]; [|cbn in Hle; lia].
      cbn. rewrite decide_True by done. done.
Qed.

Lemma cl_update_twice ev (g : list Callback -> list Callback) m :
  (forall x, g (g x) = g x) ->
  cl_update ev g (cl_update ev g m) = cl_update ev g m.
Proof.
  intros Hg. induction m as [|[e x] m IH]; [done |]. cbn.
  case_decide; cbn; rewrite decide_bool_decide;
    [rewrite bool_decide_true by done | rewrite bool_decide_false by done].
  - by rewrite Hg.
  - by rewrite IH.
Qed.

Lemma set_delete_twice cb x : set_delete cb (set_delete cb x) = set_delete cb x.
Proof.
  unfold set_delete. induction x as [|y x IH]; [done |].
  rewrite filter_cons. case_decide.
  - rewrite filter_cons. rewrite decide_True by done. by rewrite IH.
  - done.
Qed.

Lemma off_releases w i :
  is_Some (socket w) ->
  released event (handler f) (off event (Some (handler f)) (w, i)).2.
Proof.
  intros [sk Hs]. unfold off, released. rewrite Hs. cbn.
  apply cl_update_twice, set_delete_twice.
Qed.

Lemma off_released_fixed w i :
  released event (handler f) i -> (off event (Some (handler f)) (w, i)).2 = i.
Proof.
  unfold off, released. intros H. destruct (socket w); [|done]. cbn.
  rewrite H. by destruct i.
Qed.

Lemma run_offs_released os s o :
  o ∈ os ->
  Forall (fun o => o < length (owners s))%nat os ->
  is_Some (socket (world s)) ->
  exists i,
    owners (run (to_off event f <$> os) s) !! o = Some i
    /\ released event (handler f) i.
Proof.
  intros Hin Hos. revert s Hos.
  assert (Hkeep : forall os' s i,
            owners s !! o = Some i -> released event (handler f) i ->
            exists i', owners (run (to_off event f <$> os') s) !! o = Some i'
                       /\ released event (handler f) i').
  { induction os' as [|o' os' IH]; intros s i Hi Hrel; [by eauto |].
    cbn. apply (IH _ i); [|done].
    destruct (owners s !! o') as [i'|] eqn:Ho'.
    - rewrite (as_owner_owners _ _ _ _ Ho').
      destruct (decide (o' = o)) as [->|Hne].
      + rewrite list_lookup_insert_eq by by eapply lookup_lt_Some.
        simplify_eq. by rewrite off_released_fixed.
      + by rewrite list_lookup_insert_ne.
    - by rewrite as_owner_nobody. }
  induction os as [|o' os IH]; intros s Hos Hsock;
    [by apply elem_of_nil in Hin |].
  apply Forall_cons in Hos as [Ho Hos]. cbn.
  destruct (lookup_lt_is_Some_2 _ _ Ho) as [i Hi].
  assert (Hs1 : is_Some (socket (world
                  (as_owner o' (off event (Some (handler f))) s)))).
  { rewrite (as_owner_world _ _ _ _ Hi). by apply off_keeps_socket. }
  destruct (decide (o = o')) as [->|Hne].
  - apply (Hkeep os _ (off event (Some (handler f)) (world s, i)).2).
    + rewrite (as_owner_owners _ _ _ _ Hi).
      apply list_lookup_insert_eq. by eapply lookup_lt_Some.
    + by apply off_releases.
  - apply elem_of_cons in Hin as [?|Hin]; [done |].
    apply IH; [done | by rewrite as_owner_length | done].
Qed.

(** C3: from a state with a socket in which the pair is not bound, [N >= 1]
    calls of [on(event, cb)], by whichever owners, leave exactly one
    subscription on the socket and a count of [N]; [N] calls of
    [off(event, cb)] then bring the count to zero and remove the
    subscription; one more [off] leaves the shared state as it is (and the
    whole system, when the caller is one of those who already called
    [off]); and after every prefix of these calls the count is not negative
    and the pair is subscribed at most once. *)
Theorem listener_reference_counting (os1 os2 : list nat) (o3 : nat)
    (s : System) :
  is_Some (socket (world s)) ->
  binding event (handler f) (world s) = None ->
  subscriptions event (handler f) (world s) = 0%nat ->
  Forall (fun o => o < length (owners s))%nat (os1 ++ os2) ->
  (1 <= length os1)%nat ->
  length os2 = length os1 ->
  let s1 := run (to_on event f <$> os1) s in
  let s2 := run (to_off event f <$> os2) s1 in
  let s3 := step (to_off event f o3) s2 in
  (subscriptions event (handler f) (world s1) = 1%nat
   /\ refCount event (handler f) (world s1) = Z.of_nat (length os1))
  /\ (refCount event (handler f) (world s2) = 0
      /\ subscriptions event (handler f) (world s2) = 0%nat)
  /\ (world s3 = world s2 /\ (o3 ∈ os2 -> s3 = s2))
  /\ (forall tr,
        tr `prefix_of` (to_on event f <$> os1) ++ (to_off event f <$> os2)
                         ++ [to_off event f o3] ->
        0 <= refCount event (handler f) (world (run tr s))
        /\ (subscriptions event (handler f) (world (run tr s)) <= 1)%nat).
Proof.
  intros Hsock Hb Hn Hos HN Hlen s1 s2 s3.
  apply Forall_app in Hos as [Hos1 Hos2].
  destruct (run_ons os1 s Hos1 Hsock) as (Hs1 & Hl1 & H1).
  rewrite Hb, Hn in H1.
  destruct H1 as [Hb1 Hn1]; [by destruct os1; cbn in HN; [lia |] |].
  fold s1 in Hs1, Hl1, Hb1, Hn1.
  rewrite <- Hl1 in Hos2.
  destruct (run_offs os2 s1 _ Hos2 Hs1 Hb1 ltac:(lia) ltac:(lia))
    as (Hs2 & Hl2 & H2).
  rewrite decide_True in H2 by (f_equal; lia).
  destruct H2 as [Hb2 Hn2]. fold s2 in Hs2, Hl2, Hb2, Hn2.
  rewrite Hn1 in Hn2. cbn in Hn2.
  split; [|split; [|split]].
  - split; [done |]. unfold refCount. by rewrite Hb1.
  - split; [|done]. unfold refCount. by rewrite Hb2.
  - subst s3. cbn.
    destruct (owners s2 !! o3) as [i|] eqn:Ho3;
      [|by rewrite as_owner_nobody].
    split.
    + rewrite (as_owner_world _ _ _ _ Ho3). by apply off_unbound.
    + intros Hin.
      destruct (run_offs_released os2 s1 o3 Hin Hos2 Hs1) as (i' & Hi' & Hrel).
      fold s2 in Hi'. assert (i' = i) as -> by congruence.
      unfold as_owner. rewrite Ho3.
      pose proof (off_unbound event (handler f) (world s2) i Hb2) as Hw.
      pose proof (off_released_fixed (world s2) i Hrel) as Hi.
      destruct (off event (Some (handler f)) (world s2, i)) as [w' i''].
      cbn in Hw, Hi. subst. rewrite list_insert_id by done. by destruct s2.
  - intros tr [rest Htr].
    apply bound_once_bounds, run_bound_once.
    + assert (Hall : Forall (on_this_pair event f)
                ((to_on event f <$> os1) ++ (to_off event f <$> os2)
                 ++ [to_off event f o3])).
      { rewrite !Forall_app, !Forall_fmap. repeat split.
        - apply Forall_true. intros o. exists o. by left.
        - apply Forall_true. intros o. exists o. by right.
        - repeat constructor. exists o3. by right. }
      rewrite Htr in Hall. by apply Forall_app in Hall as [? _].
    + split; [done |]. left. done.
Qed.

End OnePair.

Lemma listener_reference_counting_witness :
  let s := run [UseSocket; UseSocket; Connect; TransportUp] start in
  let s1 := run (to_on "agent:thought" 1 <$> [0; 1; 0]%nat) s in
  let s2 := run (to_off "agent:thought" 1 <$> [1; 0; 1]%nat) s1 in
  let s3 := step (to_off "agent:thought" 1 0%nat) s2 in
  (subscriptions "agent:thought" (handler 1) (world s1) = 1%nat
   /\ refCount "agent:thought" (handler 1) (world s1)
      = Z.of_nat (length [0; 1; 0]%nat))
  /\ (refCount "agent:thought" (handler 1) (world s2) = 0
      /\ subscriptions "agent:thought" (handler 1) (world s2) = 0%nat)
  /\ (world s3 = world s2 /\ (0%nat ∈ [1; 0; 1]%nat -> s3 = s2))
  /\ (forall tr,
        tr `prefix_of` (to_on "agent:thought" 1 <$> [0; 1; 0]%nat)
                        ++ (to_off "agent:thought" 1 <$> [1; 0; 1]%nat)
                        ++ [to_off "agent:thought" 1 0%nat] ->
        0 <= refCount "agent:thought" (handler 1) (world (run tr s))
        /\ (subscriptions "agent:thought" (handler 1) (world (run tr s))
            <= 1)%nat).
Proof.
  apply (listener_reference_counting "agent:thought" 1
           [0; 1; 0]%nat [1; 0; 1]%nat 0%nat).
  - vm_compute. eauto.
  - vm_compute. reflexivity.
  - vm_compute. reflexivity.
  - vm_compute. repeat constructor.
  - vm_compute. repeat constructor.
  - reflexivity.
Defined.

Lemma on_without_socket (event : string) (cb : Callback) (w : World)
    (i : Instance) :
  socket w = None -> on event cb (w, i) = (w, i).
Proof. intros Hs. unfold on. by rewrite Hs. Qed.

(** C10: without a socket, [on] returns at once: shared state and the
    caller's tracking set are what they were, nothing is subscribed, and
    the call completes normally (the function has no other exit). *)
Theorem on_before_connect (event : string) (cb : Callback) (w : World)
    (i : Instance) :
  socket w = None ->
  on event cb (w, i) = (w, i)
  /\ subscriptions event cb (on event cb (w, i)).1 = 0%nat.
Proof.
  intros Hs. unfold on, subscriptions. rewrite Hs. cbn. by rewrite Hs.
Qed.

Lemma on_before_connect_witness :
  on "agent:thought" (handler 1) (loaded, fresh_instance)
  = (loaded, fresh_instance)
  /\ subscriptions "agent:thought" (handler 1)
       (on "agent:thought" (handler 1) (loaded, fresh_instance)).1 = 0%nat.
Proof.
  apply (on_before_connect "agent:thought" (handler 1) loaded fresh_instance).
  reflexivity.
Defined.

(** The same seen from the UI: the action changes nothing at all. *)
Lemma On_action_without_socket (o : nat) (event : string) (f : nat)
  (s : System) :
  socket (world s) = None -> step (On o event f) s = s.
Proof.
  intros Hs. cbn. unfold as_owner.
  destruct (owners s !! o) as [i|] eqn:Ho; [|done].
  rewrite (on_without_socket event (handler f) (world s) i Hs).
  rewrite list_insert_id by done. by destruct s.
Qed.

(** *** Cleaning up after an owner *)

Lemma cl_update_keys ev g m : (cl_update ev g m).*1 = m.*1.
Proof.
  induction m as [|[e x] m IH]; [done |]. cbn.
  case_decide; cbn; [done | by rewrite IH].
Qed.

Lemma cl_get_None ev m : cl_get ev m = None <-> ev ∉ m.*1.
Proof.
  induction m as [|[e x] m IH]; cbn.
  - split; [intros _; apply not_elem_of_nil | done].
  - rewrite not_elem_of_cons. case_decide as He.
    + split; [done | intros [Hne _]; congruence].
    + rewrite IH. split; [intros H; split; [congruence | done] |].
      by intros [_ H].
Qed.

Lemma set_add_NoDup cb x : NoDup x -> NoDup (set_add cb x).
Proof.
  intros H. unfold set_add. case_decide; [done |].
  apply NoDup_app. split; [done |]. split; [|apply NoDup_singleton].
  intros y Hy ->%list_elem_of_singleton. done.
Qed.

Lemma cl_update_Forall (P : list Callback -> Prop) ev g m :
  (forall x, P x -> P (g x)) ->
  Forall (fun x => P x.2) m -> Forall (fun x => P x.2) (cl_update ev g m).
Proof.
  intros Hg. induction 1 as [|[e x] m Hx Hm IH]; [done |]. cbn.
  case_decide; constructor; cbn; auto.
Qed.

Lemma track_well_tracked ev cb m :
  well_tracked m -> well_tracked (track ev cb m).
Proof.
  intros [Hk Hs]. unfold track, well_tracked.
  rewrite cl_update_keys.
  destruct (cl_get ev m) eqn:Hget.
  - split; [done |]. apply cl_update_Forall; [apply set_add_NoDup | done].
  - apply cl_get_None in Hget. split.
    + rewrite fmap_app. apply NoDup_app. split; [done |].
      split; [|apply NoDup_singleton].
      intros y Hy ->%list_elem_of_singleton. done.
    + apply (cl_update_Forall NoDup); [apply set_add_NoDup |].
      apply Forall_app. split; [done |]. repeat constructor.
Qed.

Lemma tracked_pairs_update ev g m p :
  (forall x, p.2 ∈ x -> p.2 ∈ g x) ->
  p ∈ tracked_pairs m -> p ∈ tracked_pairs (cl_update ev g m).
Proof.
  intros Hg. unfold tracked_pairs.
  induction m as [|[e x] m IH]; [done |]. cbn.
  rewrite !elem_of_app. intros [Hp|Hp].
  - case_decide; cbn; rewrite elem_of_app; [|by left].
    left. apply list_elem_of_fmap in Hp as (c & -> & Hc).
    apply list_elem_of_fmap. exists c. split; [done |]. by apply Hg.
  - case_decide; cbn; rewrite elem_of_app; [by right |].
    right. by apply IH.
Qed.

Lemma tracked_pairs_track ev cb m : (ev, cb) ∈ tracked_pairs (track ev cb m).
Proof.
  unfold track.
  assert (Hadd : forall m',
            ev ∈ m'.*1 ->
            (ev, cb) ∈ tracked_pairs (cl_update ev (set_add cb) m')).
  { unfold tracked_pairs.
    induction m' as [|[e x] m' IH]; [by intros ?%elem_of_nil |]. cbn.
    intros Hin. case_decide as He; cbn; rewrite elem_of_app.
    - left. subst e. apply list_elem_of_fmap. exists cb. split; [done |].
      unfold set_add. case_decide; [done |].
      apply elem_of_app. right. by apply list_elem_of_singleton.
    - right. apply IH.
      apply elem_of_cons in Hin as [?|?]; [congruence | done]. }
  destruct (cl_get ev m) eqn:Hget; apply Hadd.
  - destruct (decide (ev ∈ m.*1)); [done |].
    apply cl_get_None in n. congruence.
  - rewrite fmap_app. apply elem_of_app. right. by apply list_elem_of_singleton.
Qed.

Lemma well_tracked_NoDup m : well_tracked m -> NoDup (tracked_pairs m).
Proof.
  intros [Hk Hs]. unfold tracked_pairs.
  induction m as [|[e x] m IH]; [constructor |]. cbn.
  apply NoDup_cons in Hk as [He Hk]. apply Forall_cons in Hs as [Hx Hs].
  apply NoDup_app. split; [|split; [|by apply IH]].
  - apply NoDup_fmap_2; [|done]. intros ??; congruence.
  - intros p (c & -> & Hc)%list_elem_of_fmap Hin.
    apply list_elem_of_bind in Hin as ([e' x'] & Hin & Hm).
    apply list_elem_of_fmap in Hin as (c' & Heq & _). cbn in Heq.
    simplify_eq. apply He. apply list_elem_of_fmap. by exists (e', x').
Qed.

(** The two nested loops are one pass over the tracked pairs. *)
Lemma cleanup_is_one_pass (wi : World * Instance) m :
  foldl
    (fun acc entry =>
       foldl (fun acc cb => off entry.1 (Some cb) acc) acc entry.2) wi m
  = foldl (fun acc p => off p.1 (Some p.2) acc) wi (tracked_pairs m).
Proof.
  revert wi. induction m as [|[e x] m IH]; intros wi; [done |].
  unfold tracked_pairs. cbn. rewrite foldl_app, <- IH. f_equal.
  rewrite foldl_fmap. done.
Qed.

Lemma pass_keeps_socket ps (wi : World * Instance) :
  is_Some (socket wi.1) ->
  is_Some (socket (foldl (fun acc p => off p.1 (Some p.2) acc) wi ps).1).
Proof.
  revert wi. induction ps as [|[e c] ps IH]; intros [w i] H; [done |].
  cbn. apply IH. by apply off_keeps_socket.
Qed.

Lemma pass_binding_other event cb ps (wi : World * Instance) :
  (event, cb) ∉ ps ->
  binding event cb (foldl (fun acc p => off p.1 (Some p.2) acc) wi ps).1
  = binding event cb wi.1.
Proof.
  revert wi. induction ps as [|[e c] ps IH]; intros [w i] H; [done |].
  apply not_elem_of_cons in H as [Hne H]. cbn. rewrite IH by done.
  apply off_binding_other. congruence.
Qed.

(** A pass over pairs that hold [(event, cb)] exactly once counts its
    binding down once. *)
Lemma pass_binding_once event cb ps (wi : World * Instance) :
  NoDup ps -> (event, cb) ∈ ps ->
  is_Some (socket wi.1) ->
  binding event cb (foldl (fun acc p => off p.1 (Some p.2) acc) wi ps).1
  = match binding event cb wi.1 with
    | Some c => if decide (1 < c) then Some (c - 1) else None
    | None => None
    end.
Proof.
  intros Hnd Hin Hs.
  apply list_elem_of_split in Hin as (l1 & l2 & ->).
  apply NoDup_app in Hnd as (_ & H1 & [H2 _]%NoDup_cons).
  rewrite foldl_app. cbn [foldl fst snd].
  rewrite pass_binding_other by done.
  pose proof (pass_keeps_socket l1 wi Hs) as Hs1.
  pose proof (pass_binding_other event cb l1 wi) as Hb1.
  destruct (foldl _ wi l1) as [w1 i1]. cbn [fst snd] in *.
  destruct Hs1 as [sk Hsk].
  rewrite (off_binding _ _ _ _ _ Hsk), Hb1; [done |].
  intros Hin. by apply (H1 _ Hin), elem_of_cons; left.
Qed.

Lemma on_instance event cb w i :
  is_Some (socket w) ->
  (on event cb (w, i)).2
  = set_componentListeners (track event cb (componentListeners i)) i.
Proof. intros [sk Hs]. unfold on. by rewrite Hs. Qed.

Lemma run_ons_instance event f K o s i :
  owners s !! o = Some i ->
  is_Some (socket (world s)) ->
  well_tracked (componentListeners i) ->
  (1 <= K)%nat ->
  exists i', owners (run (replicate K (On o event f)) s) !! o = Some i'
    /\ well_tracked (componentListeners i')
    /\ (event, handler f) ∈ tracked_pairs (componentListeners i').
Proof.
  intros Ho Hs Hwt HK.
  assert (Hkeep : forall K s i,
            owners s !! o = Some i ->
            is_Some (socket (world s)) ->
            well_tracked (componentListeners i) ->
            (event, handler f) ∈ tracked_pairs (componentListeners i) ->
            exists i',
              owners (run (replicate K (On o event f)) s) !! o = Some i'
              /\ well_tracked (componentListeners i')
              /\ (event, handler f) ∈ tracked_pairs (componentListeners i')).
  { clear. induction K as [|K IH]; intros s i Ho Hs Hwt Hin; [by eauto |].
    cbn. eapply IH.
    - rewrite (as_owner_owners _ _ _ _ Ho).
      apply list_lookup_insert_eq. by eapply lookup_lt_Some.
    - rewrite (as_owner_world _ _ _ _ Ho). by apply on_keeps_socket.
    - rewrite on_instance by done. cbn. by apply track_well_tracked.
    - rewrite on_instance by done. cbn. apply tracked_pairs_track. }
  destruct K as [|K]; [lia |]. cbn. eapply Hkeep.
  - rewrite (as_owner_owners _ _ _ _ Ho).
    apply list_lookup_insert_eq. by eapply lookup_lt_Some.
  - rewrite (as_owner_world _ _ _ _ Ho). by apply on_keeps_socket.
  - rewrite on_instance by done. cbn. by apply track_well_tracked.
  - rewrite on_instance by done. cbn. apply tracked_pairs_track.
Qed.

(** C8: an owner that called [on(event, cb)] [K >= 1] times has the pair
    in its tracking set once, and its cleanup lowers the reference count of
    the pair by exactly one, not by [K]. *)
Theorem cleanup_releases_once (event : string) (f : nat) (K : nat) (o : nat)
    (s : System) (i : Instance) :
  owners s !! o = Some i ->
  well_tracked (componentListeners i) ->
  is_Some (socket (world s)) ->
  0 <= refCount event (handler f) (world s) ->
  (1 <= K)%nat ->
  let s1 := run (replicate K (On o event f)) s in
  let s2 := step (Cleanup o) s1 in
  refCount event (handler f) (world s1)
  = refCount event (handler f) (world s) + Z.of_nat K
  /\ refCount event (handler f) (world s2)
     = refCount event (handler f) (world s1) - 1.
Proof.
  intros Ho Hwt Hs Hc HK s1 s2.
  assert (Hos : Forall (fun o => o < length (owners s))%nat (replicate K o)).
  { apply Forall_replicate. by eapply lookup_lt_Some. }
  destruct (run_ons event f (replicate K o) s Hos Hs) as (Hs1 & _ & H1).
  rewrite fmap_replicate in Hs1, H1. rewrite length_replicate in H1.
  change (to_on event f o) with (On o event f) in Hs1, H1.
  fold s1 in Hs1, H1.
  destruct (run_ons_instance event f K o s i Ho Hs Hwt HK)
    as (i1 & Hi1 & Hwt1 & Hin1).
  fold s1 in Hi1.
  assert (Hb1 : binding event (handler f) (world s1)
                = Some (refCount event (handler f) (world s) + Z.of_nat K)).
  { unfold refCount in *.
    destruct (binding event (handler f) (world s)) as [c|]; cbn.
    - by destruct H1.
    - destruct H1 as [-> _]; [by destruct K; [lia |] | done]. }
  split; [unfold refCount at 1; by rewrite Hb1 |].
  subst s2. cbn. rewrite (as_owner_world _ _ _ _ Hi1).
  unfold cleanupComponentListeners. cbn.
  rewrite cleanup_is_one_pass.
  pose proof (pass_binding_once event (handler f)
                (tracked_pairs (componentListeners i1)) (world s1, i1)
                (well_tracked_NoDup _ Hwt1) Hin1 Hs1) as Hpass.
  destruct (foldl _ (world s1, i1) _) as [w' i']. cbn in *.
  unfold refCount at 1 2. rewrite Hpass, Hb1. cbn.
  case_decide; cbn; lia.
Qed.

Lemma cleanup_releases_once_witness :
  let s := run [UseSocket; Connect; TransportUp] start in
  let s1 := run (replicate 2 (On 0 "agent:thought" 1)) s in
  let s2 := step (Cleanup 0) s1 in
  refCount "agent:thought" (handler 1) (world s1)
  = refCount "agent:thought" (handler 1) (world s) + Z.of_nat 2
  /\ refCount "agent:thought" (handler 1) (world s2)
     = refCount "agent:thought" (handler 1) (world s1) - 1.
Proof.
  apply (cleanup_releases_once "agent:thought" 1 2 0 _ fresh_instance).
  - vm_compute. reflexivity.
  - split; constructor.
  - vm_compute. eauto.
  - vm_compute. discriminate.
  - lia.
Defined.

End Registry.

(** ** The shared connection and its grace window (onMounted, onUnmounted) *)

Section LifeCycle.
Import UseSocket.

Implicit Types (w : World) (i : Instance) (s : System) (cb : Callback).

Lemma foldl_preserves {A B} (P : A -> Prop) (g : A -> B -> A) (l : list B)
    (a : A) :
  (forall x b, b ∈ l -> P x -> P (g x b)) -> P a -> P (foldl g a l).
Proof.
  revert a. induction l as [|b l IH]; intros a Hg Ha; [done |].
  cbn. apply IH.
  - intros x b' Hb'. apply Hg. by right.
  - apply Hg; [by left | done].
Qed.

Lemma keeps_connection_refl w : keeps_connection w w.
Proof. by split. Qed.

Lemma keeps_connection_trans w1 w2 w3 :
  keeps_connection w1 w2 -> keeps_connection w2 w3 -> keeps_connection w1 w3.
Proof. intros [? ?] [? ?]. split; [congruence | auto]. Qed.

Lemma settle_keeps p r w : keeps_connection w (settle p r w).
Proof. unfold settle. repeat case_match; by split. Qed.

Lemma with_socket_keeps g w : keeps_connection w (with_socket g w).
Proof.
  unfold with_socket. destruct (socket w) eqn:H; split; cbn; eauto.
Qed.

Lemma clearTimeout_keeps id w : keeps_connection w (clearTimeout id w).
Proof. by split. Qed.

Lemma setTimeout_keeps tk d w : keeps_connection w (setTimeout tk d w).1.
Proof. by split. Qed.

Lemma new_promise_keeps w : keeps_connection w (new_promise w).1.
Proof. by split. Qed.

Lemma drop_instruction_listeners_keeps p t w :
  keeps_connection w (drop_instruction_listeners p t w).
Proof.
  unfold drop_instruction_listeners.
  eapply keeps_connection_trans; apply with_socket_keeps.
Qed.

Lemma run_callback_keeps cb d w : keeps_connection w (run_callback cb d w).
Proof.
  destruct cb; cbn; repeat case_decide;
    try apply keeps_connection_refl;
    try (eapply keeps_connection_trans; [|apply settle_keeps]);
    try apply with_socket_keeps;
    try apply drop_instruction_listeners_keeps;
    by split.
Qed.

Lemma deliver_keeps ev d w : keeps_connection w (deliver ev d w).
Proof.
  unfold deliver. destruct (socket w) as [sk|]; [|apply keeps_connection_refl].
  apply (foldl_preserves (keeps_connection w)); [|apply keeps_connection_refl].
  intros x b _ Hx. eapply keeps_connection_trans; [exact Hx |].
  apply run_callback_keeps.
Qed.

Lemma connect_keeps w : keeps_connection w (connect w).1.
Proof.
  unfold connect. cbn. case_match; cbn.
  - eapply keeps_connection_trans; [|apply settle_keeps]. by split.
  - unfold with_socket. cbn. split; cbn; eauto.
Qed.

Lemma joinTask_keeps t w : keeps_connection w (joinTask t w).1.
Proof.
  unfold joinTask. cbn. case_match; cbn.
  - eapply keeps_connection_trans; [|apply settle_keeps]. by split.
  - eapply keeps_connection_trans; [|apply setTimeout_keeps].
    eapply keeps_connection_trans; [|apply with_socket_keeps].
    eapply keeps_connection_trans; [|apply with_socket_keeps]. by split.
Qed.

Lemma confirmRoom_keeps t w : keeps_connection w (confirmRoom t w).1.
Proof.
  unfold confirmRoom. cbn. case_match; cbn.
  - eapply keeps_connection_trans; [|apply settle_keeps]. by split.
  - eapply keeps_connection_trans; [|apply setTimeout_keeps].
    eapply keeps_connection_trans; [|apply with_socket_keeps].
    eapply keeps_connection_trans; [|apply with_socket_keeps]. by split.
Qed.

Lemma sendInstruction_keeps t x w :
  keeps_connection w (sendInstruction t x w).1.
Proof.
  unfold sendInstruction. cbn. case_match; cbn.
  - eapply keeps_connection_trans; [|apply settle_keeps]. by split.
  - eapply keeps_connection_trans; [|apply setTimeout_keeps].
    eapply keeps_connection_trans; [|apply with_socket_keeps].
    eapply keeps_connection_trans; [|apply with_socket_keeps].
    eapply keeps_connection_trans; [|apply with_socket_keeps]. by split.
Qed.

Lemma leaveTask_keeps t w : keeps_connection w (leaveTask t w).
Proof.
  unfold leaveTask. case_match;
    [apply with_socket_keeps | apply keeps_connection_refl].
Qed.

Lemma on_keeps event cb w i : keeps_connection w (on event cb (w, i)).1.
Proof.
  unfold on. destruct (socket w) eqn:Hs; [|apply keeps_connection_refl].
  cbn. case_match; cbn.
  - split; cbn; [done | by rewrite Hs].
  - eapply keeps_connection_trans; [|apply with_socket_keeps].
    split; cbn; [done | by rewrite Hs].
Qed.

Lemma off_keeps event c w i : keeps_connection w (off event c (w, i)).1.
Proof.
  unfold off. destruct (socket w) eqn:Hs; [|apply keeps_connection_refl].
  destruct c as [cb|]; cbn.
  - repeat case_match; try apply keeps_connection_refl.
    + split; cbn; [done | by rewrite Hs].
    + eapply keeps_connection_trans; [|apply with_socket_keeps].
      split; cbn; [done | by rewrite Hs].
  - eapply keeps_connection_trans;
      [apply (with_socket_keeps (sk_off_all event)) |].
    by split.
Qed.

Lemma cleanup_keeps w i :
  keeps_connection w (cleanupComponentListeners (w, i)).1.
Proof.
  unfold cleanupComponentListeners. rewrite cleanup_is_one_pass. cbn [snd].
  assert (H : keeps_connection w
                (foldl (fun acc p => off p.1 (Some p.2) acc) (w, i)
                   (tracked_pairs (componentListeners i))).1).
  { apply (foldl_preserves (fun x => keeps_connection w x.1));
      [|apply keeps_connection_refl].
    intros [w' i'] p _ Hx.
    eapply keeps_connection_trans; [exact Hx | apply off_keeps]. }
  by destruct (foldl _ _ _).
Qed.

(** A timer task keeps the connection unless it is a teardown that finds
    the count at zero. *)
Lemma fire_keeps tk w :
  tk ≠ graceTeardown \/ connectionRefCount w ≠ 0 ->
  keeps_connection w (fire tk w).
Proof.
  intros H. destruct tk; cbn.
  - case_match; [apply keeps_connection_refl | apply settle_keeps].
  - eapply keeps_connection_trans; [|apply settle_keeps].
    apply with_socket_keeps.
  - eapply keeps_connection_trans; [|apply settle_keeps].
    apply with_socket_keeps.
  - eapply keeps_connection_trans; [|apply settle_keeps].
    apply drop_instruction_listeners_keeps.
  - case_decide; [|apply keeps_connection_refl]. by destruct H.
Qed.

(** Whatever a timer task does, it leaves the count alone. *)
Lemma fire_count tk w : connectionRefCount (fire tk w) = connectionRefCount w.
Proof.
  destruct (decide (tk = graceTeardown)) as [->|Hne].
  - cbn. case_decide; [|done]. unfold disconnect. by repeat case_match.
  - apply fire_keeps. by left.
Qed.

Lemma by_due_elem_of t l : t ∈ by_due l <-> t ∈ l.
Proof.
  assert (Hins : forall u l', t ∈ insert_by_due u l' <-> t = u \/ t ∈ l').
  { intros u. induction l' as [|v l' IH]; cbn.
    - rewrite list_elem_of_singleton, elem_of_nil. tauto.
    - case_decide; rewrite !elem_of_cons, ?IH; tauto. }
  induction l as [|u l IH]; cbn; [done |].
  rewrite Hins, elem_of_cons, IH. tauto.
Qed.

Lemma elapse_count dt w :
  connectionRefCount (elapse dt w) = connectionRefCount w.
Proof.
  unfold elapse. cbn.
  apply (foldl_preserves
           (fun x => connectionRefCount x = connectionRefCount w)); [|done].
  intros x t _ <-. apply fire_count.
Qed.

Lemma elapse_keeps dt w :
  (teardown_due dt w = true -> connectionRefCount w ≠ 0) ->
  keeps_connection w (elapse dt w).
Proof.
  intros Hheld. split; [apply elapse_count |].
  unfold elapse. cbn. intros Hs.
  match goal with
  | |- context [foldl ?g ?a ?l] =>
      assert (H : keeps_connection w (foldl g a l)); [|by apply H]
  end.
  apply (foldl_preserves (keeps_connection w)); [|by split].
  intros x t Ht Hx. eapply keeps_connection_trans; [exact Hx |].
  apply fire_keeps.
  destruct (decide (task t = graceTeardown)) as [Htk|]; [right | by left].
  destruct Hx as [-> _]. apply Hheld.
  apply bool_decide_eq_true, Exists_exists. exists t.
  apply by_due_elem_of, list_elem_of_filter in Ht as [Hdue Hin].
  done.
Qed.

(** *** Owners and the reference count *)

Lemma on_mounted event cb w i :
  componentMounted (on event cb (w, i)).2 = componentMounted i.
Proof. unfold on. by destruct (socket w). Qed.

Lemma off_mounted event c w i :
  componentMounted (off event c (w, i)).2 = componentMounted i.
Proof. unfold off. destruct (socket w); [|done]. by destruct c. Qed.

Lemma cleanup_mounted w i :
  componentMounted (cleanupComponentListeners (w, i)).2 = componentMounted i.
Proof.
  unfold cleanupComponentListeners. rewrite cleanup_is_one_pass. cbn [snd].
  assert (H : componentMounted
                (foldl (fun acc p => off p.1 (Some p.2) acc) (w, i)
                   (tracked_pairs (componentListeners i))).2
              = componentMounted i).
  { apply (foldl_preserves
             (fun x => componentMounted x.2 = componentMounted i)); [|done].
    intros [w' i'] p _ <-. apply off_mounted. }
  by destruct (foldl _ _ _).
Qed.

Lemma onUnmounted_keeps_socket w i :
  is_Some (socket w) -> is_Some (socket (onUnmounted (w, i)).1).
Proof.
  intros Hs. unfold onUnmounted. destruct (componentMounted i); [|done].
  match goal with
  | |- context [cleanupComponentListeners (?w0, ?i0)] =>
      pose proof (cleanup_keeps w0 i0) as [_ Hk];
      destruct (cleanupComponentListeners (w0, i0)) as [w' i']
  end.
  cbn in Hk. specialize (Hk Hs). by case_decide.
Qed.

Lemma onUnmounted_count w i :
  connectionRefCount (onUnmounted (w, i)).1
  = connectionRefCount w - (if componentMounted i then 1 else 0)
  /\ componentMounted (onUnmounted (w, i)).2 = false.
Proof.
  unfold onUnmounted. destruct (componentMounted i) eqn:Hm; cbn;
    [|split; [lia | done]].
  match goal with
  | |- context [cleanupComponentListeners (?w0, ?i0)] =>
      pose proof (cleanup_keeps w0 i0) as [Hk _];
      pose proof (cleanup_mounted w0 i0) as Hmo;
      destruct (cleanupComponentListeners (w0, i0)) as [w' i']
  end.
  cbn in Hk, Hmo. by case_decide.
Qed.

Lemma mounted_owners_app l1 l2 :
  mounted_owners (l1 ++ l2) = mounted_owners l1 + mounted_owners l2.
Proof. unfold mounted_owners. rewrite filter_app, length_app. lia. Qed.

Lemma mounted_owners_cons i l :
  mounted_owners (i :: l) = b2z (componentMounted i) + mounted_owners l.
Proof.
  unfold mounted_owners. rewrite filter_cons.
  destruct (componentMounted i); case_decide; try done;
    cbn [length b2z]; lia.
Qed.

Lemma mounted_owners_insert l o i i' :
  l !! o = Some i ->
  mounted_owners (<[o := i']> l)
  = mounted_owners l - b2z (componentMounted i) + b2z (componentMounted i').
Proof.
  intros Ho.
  rewrite <- (take_drop_middle l o i Ho) at 2.
  rewrite insert_take_drop by by eapply lookup_lt_Some.
  rewrite !mounted_owners_app, !mounted_owners_cons. lia.
Qed.

Lemma mounted_owners_nonneg l : 0 <= mounted_owners l.
Proof. unfold mounted_owners. lia. Qed.

Lemma as_owner_covers o g s :
  (forall w i,
     connectionRefCount (g (w, i)).1 - b2z (componentMounted (g (w, i)).2)
     >= connectionRefCount w - b2z (componentMounted i)) ->
  count_covers_owners s -> count_covers_owners (as_owner o g s).
Proof.
  intros Hg H. unfold count_covers_owners in *.
  destruct (owners s !! o) as [i|] eqn:Ho; [|by rewrite as_owner_nobody].
  rewrite (as_owner_world _ _ _ _ Ho), (as_owner_owners _ _ _ _ Ho).
  rewrite (mounted_owners_insert _ _ _ _ Ho).
  specialize (Hg (world s) i). lia.
Qed.

Lemma in_world_covers g s :
  (forall w, connectionRefCount (g w) = connectionRefCount w) ->
  count_covers_owners s -> count_covers_owners (in_world g s).
Proof. intros Hg H. unfold count_covers_owners in *. cbn. by rewrite Hg. Qed.

Lemma step_covers a s :
  count_covers_owners s -> count_covers_owners (step a s).
Proof.
  intros H. destruct a; cbn [step].
  - unfold count_covers_owners in *. cbn.
    rewrite mounted_owners_app.
    change (mounted_owners [fresh_instance]) with 0. lia.
  - apply as_owner_covers; [|done]. intros w i. cbn.
    destruct (componentMounted i); cbn; lia.
  - apply as_owner_covers; [|done]. intros w i.
    destruct (onUnmounted_count w i) as [-> ->].
    destruct (componentMounted i); cbn; lia.
  - apply as_owner_covers; [|done]. intros w i.
    rewrite on_mounted.
    destruct (on_keeps event (handler f) w i) as [-> _]. lia.
  - apply as_owner_covers; [|done]. intros w i.
    rewrite off_mounted.
    destruct (off_keeps event (handler <$> f) w i) as [-> _]. lia.
  - apply as_owner_covers; [|done]. intros w i.
    rewrite cleanup_mounted. destruct (cleanup_keeps w i) as [-> _]. lia.
  - apply in_world_covers; [|done]. intros w. apply connect_keeps.
  - apply in_world_covers; [|done]. intros w.
    unfold disconnect. by case_match.
  - apply in_world_covers; [|done]. intros w. apply joinTask_keeps.
  - apply in_world_covers; [|done]. intros w. apply leaveTask_keeps.
  - apply in_world_covers; [|done]. intros w. apply confirmRoom_keeps.
  - apply in_world_covers; [|done]. intros w. apply sendInstruction_keeps.
  - apply in_world_covers; [|done]. intros w. apply with_socket_keeps.
  - apply in_world_covers; [|done]. intros w.
    destruct (deliver_keeps "connect" ∅
                (with_socket (sk_set_connected true) w))
      as [-> _]. apply with_socket_keeps.
  - apply in_world_covers; [|done]. intros w.
    destruct (deliver_keeps "disconnect" {[ "reason" := reason ]}
                (with_socket (sk_set_connected false) w)) as [-> _].
    apply with_socket_keeps.
  - apply in_world_covers; [|done]. intros w. apply deliver_keeps.
  - case_match; [done |]. apply in_world_covers; [|done].
    intros w. apply deliver_keeps.
  - apply in_world_covers; [|done]. intros w. apply elapse_count.
Qed.

Lemma run_covers tr s :
  count_covers_owners s -> count_covers_owners (run tr s).
Proof.
  revert s. induction tr as [|a tr IH]; intros s H; [done |].
  rewrite run_cons. by apply IH, step_covers.
Qed.

(** A step keeps the socket unless it is [disconnect()] itself or lets a
    teardown timer run while nobody holds the connection. *)
Lemma step_keeps_socket a s :
  a ≠ Disconnect ->
  held_when_due [a] s = true ->
  is_Some (socket (world s)) -> is_Some (socket (world (step a s))).
Proof.
  intros Hne Hheld Hs. destruct a; cbn [step]; try done.
  - destruct (owners s !! o) as [i|] eqn:Ho; [|by rewrite as_owner_nobody].
    by rewrite (as_owner_world _ _ _ _ Ho).
  - destruct (owners s !! o) as [i|] eqn:Ho; [|by rewrite as_owner_nobody].
    rewrite (as_owner_world _ _ _ _ Ho). by apply onUnmounted_keeps_socket.
  - destruct (owners s !! o) as [i|] eqn:Ho; [|by rewrite as_owner_nobody].
    rewrite (as_owner_world _ _ _ _ Ho). by apply on_keeps.
  - destruct (owners s !! o) as [i|] eqn:Ho; [|by rewrite as_owner_nobody].
    rewrite (as_owner_world _ _ _ _ Ho). by apply off_keeps.
  - destruct (owners s !! o) as [i|] eqn:Ho; [|by rewrite as_owner_nobody].
    rewrite (as_owner_world _ _ _ _ Ho). by apply cleanup_keeps.
  - by apply connect_keeps.
  - by apply joinTask_keeps.
  - by apply leaveTask_keeps.
  - by apply confirmRoom_keeps.
  - by apply sendInstruction_keeps.
  - by apply with_socket_keeps.
  - cbn. by apply deliver_keeps, with_socket_keeps.
  - cbn. by apply deliver_keeps, with_socket_keeps.
  - by apply deliver_keeps.
  - case_match; [done |]. by apply deliver_keeps.
  - cbn in Hheld. rewrite andb_true_r in Hheld.
    apply elapse_keeps; [|done]. intros Hdue. rewrite Hdue in Hheld.
    cbn in Hheld. by apply bool_decide_eq_true in Hheld.
Qed.

Lemma prefix_cons_cases {A} (a : A) (p l : list A) :
  p `prefix_of` a :: l ->
  p = [] \/ exists p', p = a :: p' /\ p' `prefix_of` l.
Proof.
  intros [k Hk]. destruct p as [|b p]; [by left |]. right.
  cbn in Hk. simplify_eq. exists p. split; [done |]. by exists k.
Qed.

(** C6, amended: the reference count is never negative, and a teardown set
    when the count reached zero disconnects only if it finds the count at
    zero when it fires, five seconds later.  So along every trace without
    an explicit [disconnect()] in which the count is not zero whenever a
    teardown timer comes due (a new owner has mounted within the window
    and is still there), the socket is never torn down. *)
Theorem grace_window (tr : list Action) (s : System) :
  count_covers_owners s ->
  (forall p, p `prefix_of` tr -> 0 <= connectionRefCount (world (run p s)))
  /\ (Forall (fun a => a ≠ Disconnect) tr ->
      is_Some (socket (world s)) ->
      held_when_due tr s = true ->
      forall p, p `prefix_of` tr -> is_Some (socket (world (run p s)))).
Proof.
  intros Hcov. split.
  - intros p _. pose proof (run_covers p s Hcov) as H.
    pose proof (mounted_owners_nonneg (owners (run p s))).
    unfold count_covers_owners in H. lia.
  - intros Htr. clear Hcov. revert s. induction Htr as [|a tr Ha _ IH];
      intros s Hs Hheld p Hp.
    + apply prefix_nil_inv in Hp as ->. done.
    + apply prefix_cons_cases in Hp as [->|(p' & -> & Hp')]; [done |].
      cbn [held_when_due] in Hheld. apply andb_true_iff in Hheld as [H1 H2].
      rewrite run_cons. apply IH; [|done | done].
      apply step_keeps_socket; [done | | done].
      cbn [held_when_due]. by rewrite H1.
Qed.

Lemma grace_window_witness :
  let s := run [UseSocket; Mount 0; Connect; TransportUp] start in
  let tr := [Unmount 0; Elapse 2000; UseSocket; Mount 1; Elapse 4000] in
  (forall p, p `prefix_of` tr -> 0 <= connectionRefCount (world (run p s)))
  /\ (forall p, p `prefix_of` tr -> is_Some (socket (world (run p s)))).
Proof.
  intros s tr.
  destruct (grace_window tr s) as [Hcount Hsocket].
  - vm_compute. discriminate.
  - split; [exact Hcount |]. apply Hsocket.
    + repeat constructor; discriminate.
    + vm_compute. eauto.
    + vm_compute. reflexivity.
Defined.

(** C6, as stated, fails: the last owner unmounts at 0 ms, a new owner
    mounts at 2000 ms, inside the window, and unmounts again at 3000 ms.
    The teardown set at 0 ms is not cancelled; at 5000 ms it finds the
    count at zero and disconnects, although the count was not zero
    throughout the window, and only 2000 ms after it last reached zero. *)
Lemma remount_within_window_is_torn_down :
  let s := run [UseSocket; Mount 0; Connect; TransportUp] start in
  let remounted := run [Unmount 0; Elapse 2000; UseSocket; Mount 1] s in
  let final := run [Elapse 1000; Unmount 1; Elapse 2000] remounted in
  (clock (world s) = 0 /\ connectionRefCount (world s) = 1
   /\ is_Some (socket (world s)))
  /\ (clock (world remounted) = 2000
      /\ connectionRefCount (world remounted) = 1
      /\ is_Some (socket (world remounted)))
  /\ (clock (world final) = 5000
      /\ socket (world final) = None
      /\ connected (world final) = false).
Proof. vm_compute. repeat split; eauto. Qed.

(** With no remount the window is exactly five seconds. *)
Example teardown_after_five_seconds :
  let s := run [UseSocket; Mount 0; Connect; TransportUp] start in
  is_Some (socket (world (run [Unmount 0; Elapse 4999] s)))
  /\ socket (world (run [Unmount 0; Elapse 5000] s)) = None.
Proof. vm_compute. split; eauto. Qed.

End LifeCycle.

(** ** Promises: joinTask and sendInstruction *)

Section Promises.
Import UseSocket.

Implicit Types (w : World) (i : Instance) (s : System) (cb : Callback)
  (p q : nat).

(** *** Settling *)

Lemma promise_pending_lookup p w :
  (p < length (promises w))%nat -> promise p w = Pending ->
  promises w !! p = Some Pending.
Proof.
  unfold promise. intros Hlt Hp.
  destruct (lookup_lt_is_Some_2 _ _ Hlt) as [r Hr]. rewrite Hr in *.
  cbn in Hp. by subst.
Qed.

Lemma settle_other q p r w : q ≠ p -> promise q (settle p r w) = promise q w.
Proof.
  intros Hne. unfold settle, promise.
  destruct (promises w !! p) as [[]|]; cbn; try done.
  by rewrite list_lookup_insert_ne.
Qed.

Lemma settle_settled p r w : promise p w ≠ Pending -> settle p r w = w.
Proof.
  unfold settle, promise. destruct (promises w !! p) as [[]|]; cbn; done.
Qed.

Lemma settle_pending p r w :
  promises w !! p = Some Pending -> promise p (settle p r w) = r.
Proof.
  intros H. unfold settle, promise. rewrite H. cbn.
  rewrite list_lookup_insert_eq; [done |]. by eapply lookup_lt_Some.
Qed.

Lemma settle_length p r w :
  length (promises (settle p r w)) = length (promises w).
Proof.
  unfold settle. destruct (promises w !! p) as [[]|]; cbn; try done.
  apply length_insert.
Qed.

Lemma new_promise_old p w :
  (p < length (promises w))%nat -> promise p (new_promise w).1 = promise p w.
Proof. intros H. unfold promise. cbn. by rewrite lookup_app_l. Qed.

Lemma new_promise_new w :
  promises (new_promise w).1 !! (new_promise w).2 = Some Pending.
Proof. cbn. by rewrite lookup_app_r, Nat.sub_diag. Qed.

Lemma settled_in_range p w :
  promise p w ≠ Pending -> (p < length (promises w))%nat.
Proof.
  unfold promise. intros H. apply lookup_lt_is_Some.
  destruct (promises w !! p); [eauto | done].
Qed.

(** *** Settled promises are final *)

(** A step that leaves the list of promises alone. *)
Ltac grows_same := split; [by intros ? ? | split; cbn; lia].

Lemma grows_refl w : grows w w.
Proof. grows_same. Qed.

Lemma grows_trans w1 w2 w3 : grows w1 w2 -> grows w2 w3 -> grows w1 w3.
Proof.
  intros (H1 & ? & ?) (H2 & ? & ?). split; [|split; lia].
  intros p Hp. rewrite H2; rewrite H1; done.
Qed.

Lemma grows_settle p r w : grows w (settle p r w).
Proof.
  split; [|split; [by rewrite settle_length |]].
  - intros q Hq. destruct (decide (q = p)) as [->|];
      [by rewrite settle_settled | by apply settle_other].
  - unfold settle. by repeat case_match.
Qed.

Lemma grows_with_socket g w : grows w (with_socket g w).
Proof. unfold with_socket. case_match; grows_same. Qed.

Lemma grows_setTimeout tk d w : grows w (setTimeout tk d w).1.
Proof. grows_same. Qed.

Lemma grows_new_promise w : grows w (new_promise w).1.
Proof.
  split; [|split; cbn; [rewrite length_app; lia | done]].
  intros p Hp. by apply new_promise_old, settled_in_range.
Qed.

(** A chain of primitives, peeled from the outside in. *)
Ltac grows_prim :=
  first
    [ apply grows_settle
    | apply grows_with_socket
    | apply grows_setTimeout
    | apply grows_new_promise ].

Ltac grows_chain :=
  repeat first
    [ apply grows_refl
    | grows_prim
    | eapply grows_trans; [|grows_prim] ];
  try grows_same.

Lemma grows_drop_instruction_listeners p t w :
  grows w (drop_instruction_listeners p t w).
Proof. unfold drop_instruction_listeners. grows_chain. Qed.

Lemma grows_run_callback cb d w : grows w (run_callback cb d w).
Proof.
  destruct cb; cbn; repeat case_decide;
    try apply grows_drop_instruction_listeners; grows_chain.
  all: eapply grows_trans; [|apply grows_settle];
    apply grows_drop_instruction_listeners.
Qed.

Lemma grows_deliver ev d w : grows w (deliver ev d w).
Proof.
  unfold deliver. destruct (socket w); [|apply grows_refl].
  apply (foldl_preserves (grows w)); [|apply grows_refl].
  intros x l _ Hx. eapply grows_trans; [exact Hx | apply grows_run_callback].
Qed.

Lemma grows_disconnect w : grows w (disconnect w).
Proof. unfold disconnect. case_match; grows_same. Qed.

Lemma grows_fire tk w : grows w (fire tk w).
Proof.
  destruct tk; cbn; repeat case_match;
    try apply grows_disconnect; grows_chain.
  all: eapply grows_trans; [|apply grows_settle];
    apply grows_drop_instruction_listeners.
Qed.

Lemma grows_elapse dt w : grows w (elapse dt w).
Proof.
  unfold elapse.
  match goal with
  | |- grows _ (set_clock _ ?x) => assert (H : grows w x)
  end.
  { apply (foldl_preserves (grows w)); [|grows_same].
    intros x t _ Hx. eapply grows_trans; [exact Hx | apply grows_fire]. }
  destruct H as (H1 & H2 & H3). split; [exact H1 | split; cbn; lia].
Qed.

Lemma grows_connect w : grows w (connect w).1.
Proof.
  unfold connect.
  destruct (new_promise w) as [w1 p1] eqn:Hn.
  assert (H1 : grows w w1) by (change w1 with (w1, p1).1; rewrite <- Hn;
                               apply grows_new_promise).
  case_match; cbn.
  - eapply grows_trans; [exact H1 | apply grows_settle].
  - eapply grows_trans; [exact H1 |].
    unfold with_socket. cbn. grows_same.
Qed.

Lemma grows_joinTask t w : grows w (joinTask t w).1.
Proof.
  unfold joinTask.
  destruct (new_promise w) as [w1 p1] eqn:Hn.
  assert (H1 : grows w w1) by (change w1 with (w1, p1).1; rewrite <- Hn;
                               apply grows_new_promise).
  case_match; cbn [fst]; (eapply grows_trans; [exact H1 |]); grows_chain.
Qed.

Lemma grows_confirmRoom t w : grows w (confirmRoom t w).1.
Proof.
  unfold confirmRoom.
  destruct (new_promise w) as [w1 p1] eqn:Hn.
  assert (H1 : grows w w1) by (change w1 with (w1, p1).1; rewrite <- Hn;
                               apply grows_new_promise).
  case_match; cbn [fst]; (eapply grows_trans; [exact H1 |]); grows_chain.
Qed.

Lemma grows_sendInstruction t x w : grows w (sendInstruction t x w).1.
Proof.
  unfold sendInstruction.
  destruct (new_promise w) as [w1 p1] eqn:Hn.
  assert (H1 : grows w w1) by (change w1 with (w1, p1).1; rewrite <- Hn;
                               apply grows_new_promise).
  case_match; cbn [fst]; (eapply grows_trans; [exact H1 |]); grows_chain.
Qed.

Lemma grows_leaveTask t w : grows w (leaveTask t w).
Proof. unfold leaveTask. case_match; grows_chain. Qed.

Lemma grows_on event cb w i : grows w (on event cb (w, i)).1.
Proof.
  unfold on. destruct (socket w); [|apply grows_refl].
  cbn. case_match; grows_chain.
Qed.

Lemma grows_off event c w i : grows w (off event c (w, i)).1.
Proof.
  unfold off. destruct (socket w); [|apply grows_refl].
  destruct c as [cb|]; cbn; repeat case_match; grows_chain.
Qed.

Lemma grows_cleanup w i : grows w (cleanupComponentListeners (w, i)).1.
Proof.
  unfold cleanupComponentListeners. rewrite cleanup_is_one_pass. cbn [snd].
  assert (H : grows w
                (foldl (fun acc x => off x.1 (Some x.2) acc) (w, i)
                   (tracked_pairs (componentListeners i))).1).
  { apply (foldl_preserves (fun x => grows w x.1)); [|apply grows_refl].
    intros [w' i'] x _ Hx. eapply grows_trans; [exact Hx | apply grows_off]. }
  by destruct (foldl _ _ _).
Qed.

Lemma grows_onUnmounted w i : grows w (onUnmounted (w, i)).1.
Proof.
  unfold onUnmounted. destruct (componentMounted i); [|apply grows_refl].
  match goal with
  | |- context [cleanupComponentListeners (?w0, ?i0)] =>
      pose proof (grows_cleanup w0 i0) as Hk;
      destruct (cleanupComponentListeners (w0, i0)) as [w' i']
  end.
  cbn [fst] in Hk.
  assert (grows w w') by (eapply grows_trans; [|exact Hk]; grows_same).
  case_decide; cbn [fst]; [|done].
  eapply grows_trans; [eassumption | apply grows_setTimeout].
Qed.

Lemma grows_step a s : grows (world s) (world (step a s)).
Proof.
  destruct a; cbn [step];
    try (destruct (owners s !! o) as [i|] eqn:Ho;
         [rewrite (as_owner_world _ _ _ _ Ho)
         | rewrite as_owner_nobody by done; apply grows_refl]);
    cbn [in_world world].
  - apply grows_refl.
  - grows_same.
  - apply grows_onUnmounted.
  - apply grows_on.
  - apply grows_off.
  - apply grows_cleanup.
  - apply grows_connect.
  - apply grows_disconnect.
  - apply grows_joinTask.
  - apply grows_leaveTask.
  - apply grows_confirmRoom.
  - apply grows_sendInstruction.
  - apply grows_with_socket.
  - eapply grows_trans; [apply grows_with_socket | apply grows_deliver].
  - eapply grows_trans; [apply grows_with_socket | apply grows_deliver].
  - apply grows_deliver.
  - case_match; [apply grows_refl | apply grows_deliver].
  - apply grows_elapse.
Qed.

Lemma grows_run tr s : grows (world s) (world (run tr s)).
Proof.
  revert s. induction tr as [|a tr IH]; intros s; [apply grows_refl |].
  rewrite run_cons. eapply grows_trans; [apply grows_step | apply IH].
Qed.

(** Exactly one outcome: once a promise is settled, nothing that happens
    later changes it. *)
Lemma settled_is_final p tr s :
  promise p (world s) ≠ Pending ->
  promise p (world (run tr s)) = promise p (world s).
Proof. intros H. by apply grows_run. Qed.

(** *** A joinTask promise and everything else *)

Lemma settle_fields p r w :
  timers (settle p r w) = timers w
  /\ next_timer (settle p r w) = next_timer w
  /\ clock (settle p r w) = clock w
  /\ socket (settle p r w) = socket w
  /\ connected (settle p r w) = connected w.
Proof. unfold settle. by repeat case_match. Qed.

Lemma listeners_with_socket g w :
  listeners (with_socket g w) = from_option (sk_listeners ∘ g) [] (socket w).
Proof.
  unfold listeners, with_socket.
  destruct (socket w) eqn:Hs; cbn; by rewrite ?Hs.
Qed.

Lemma Forall_on_subset {A} (P : A -> Prop) (l l' : list A) :
  l' ⊆ l -> Forall P l -> Forall P l'.
Proof. rewrite !Forall_forall. intros Hsub H x Hx. by apply H, Hsub. Qed.

Lemma filter_is_subset {A} (P : A -> Prop) `{forall x, Decision (P x)}
    (l : list A) :
  filter P l ⊆ l.
Proof. intros x Hx. by apply list_elem_of_filter in Hx as [_ ?]. Qed.

Lemma remove_first_subseteq x (l : list (string * Callback)) :
  remove_first x l ⊆ l.
Proof.
  induction l as [|y l IH]; [done |]. cbn. case_decide.
  - by apply list_subseteq_cons.
  - intros z [->|Hz]%elem_of_cons; [by left | right; by apply IH].
Qed.

Section Join.
Variables (p tid : nat) (deadline : Z) (t : string) (strict : bool).
Local Abbreviation Inv := (join_ok p tid deadline t strict).

Lemma ok_settle_other q r w : q ≠ p -> Inv w -> Inv (settle q r w).
Proof.
  intros Hne [(H1 & H2 & H3 & H4 & H5) Ha].
  destruct (settle_fields q r w) as (Et & En & Ec & Es & _).
  split; [split_and! | intros Hst Hp].
  - by rewrite settle_length.
  - by rewrite En.
  - by rewrite Et.
  - unfold listeners. by rewrite Es.
  - by rewrite settle_other.
  - rewrite settle_other in Hp by done. rewrite Et, Ec. by apply Ha.
Qed.

Lemma ok_settle_own w : Inv w -> Inv (settle p (Resolved ∅) w).
Proof.
  intros [(H1 & H2 & H3 & H4 & H5) Ha].
  destruct (settle_fields p (Resolved ∅) w) as (Et & En & Ec & Es & _).
  assert (Hp : promise p (settle p (Resolved ∅) w) = Resolved ∅).
  { destruct H5 as [H5|H5].
    - by apply settle_pending, promise_pending_lookup.
    - rewrite settle_settled; [done | by rewrite H5]. }
  split; [split_and! | intros _ Hq; by rewrite Hp in Hq].
  - by rewrite settle_length.
  - by rewrite En.
  - by rewrite Et.
  - unfold listeners. by rewrite Es.
  - by right.
Qed.

Lemma ok_with_socket g w :
  (forall sk, sk_listeners (g sk) ⊆ sk_listeners sk) ->
  Inv w -> Inv (with_socket g w).
Proof.
  intros Hg [(H1 & H2 & H3 & H4 & H5) Ha].
  assert (Hl : Forall (ok_listener p tid t) (listeners (with_socket g w))).
  { rewrite listeners_with_socket. unfold listeners in H4.
    destruct (socket w) as [sk|]; cbn in *; [|done].
    eapply Forall_on_subset; [apply Hg | done]. }
  unfold with_socket in *. destruct (socket w); [|done].
  split; [split_and!; done | done].
Qed.

Lemma ok_sk_on ev cb w :
  ok_listener p tid t (ev, cb) -> Inv w -> Inv (with_socket (sk_on ev cb) w).
Proof.
  intros Hcb [(H1 & H2 & H3 & H4 & H5) Ha].
  assert (Hl : Forall (ok_listener p tid t)
                 (listeners (with_socket (sk_on ev cb) w))).
  { rewrite listeners_with_socket. unfold listeners in H4.
    destruct (socket w) as [sk|]; cbn in *; [|done].
    apply Forall_app. split; [done | by constructor]. }
  unfold with_socket in *. destruct (socket w); [|done].
  split; [split_and!; done | done].
Qed.

Lemma ok_set_socket x w :
  Forall (ok_listener p tid t) (from_option sk_listeners [] x) ->
  Inv w -> Inv (set_socket x w).
Proof.
  intros Hx [(H1 & H2 & H3 & H4 & H5) Ha]. split; [split_and! |]; done.
Qed.

Lemma ok_setTimeout tk d w :
  ok_task p t tk -> Inv w -> Inv (setTimeout tk d w).1.
Proof.
  intros Htk [(H1 & H2 & H3 & H4 & H5) Ha].
  split; [split_and! |]; cbn; try done.
  - lia.
  - apply Forall_app. split; [done | by constructor].
  - intros Hst Hp. destruct (Ha Hst Hp) as [Hin Hc]. split; [|done].
    apply elem_of_app. by left.
Qed.

Lemma ok_clearTimeout id w :
  id ≠ tid -> Inv w -> Inv (clearTimeout id w).
Proof.
  intros Hne [(H1 & H2 & H3 & H4 & H5) Ha].
  split; [split_and! |]; cbn; try done.
  - eapply Forall_on_subset; [apply filter_is_subset | done].
  - intros Hst Hp. destruct (Ha Hst Hp) as [Hin Hc]. split; [|done].
    apply list_elem_of_filter. split; [by cbn | done].
Qed.

Lemma ok_new_promise w :
  Inv w -> Inv (new_promise w).1 /\ (new_promise w).2 ≠ p.
Proof.
  intros [(H1 & H2 & H3 & H4 & H5) Ha].
  assert (Hp : promise p (new_promise w).1 = promise p w)
    by by apply new_promise_old.
  split; [|cbn; lia].
  split; [split_and! |]; try done.
  - cbn. rewrite length_app. lia.
  - by rewrite Hp.
  - intros Hst Hq. rewrite Hp in Hq. by apply Ha.
Qed.

Lemma ok_set_connected b w : Inv w -> Inv (set_connected b w).
Proof. intros [(H1 & H2 & H3 & H4 & H5) Ha]. split; [split_and! |]; done. Qed.

Lemma ok_set_count c w : Inv w -> Inv (set_connectionRefCount c w).
Proof. intros [(H1 & H2 & H3 & H4 & H5) Ha]. split; [split_and! |]; done. Qed.

Lemma ok_set_registry g w : Inv w -> Inv (set_globalEventListeners g w).
Proof. intros [(H1 & H2 & H3 & H4 & H5) Ha]. split; [split_and! |]; done. Qed.

Lemma ok_sk_off ev cb w : Inv w -> Inv (with_socket (sk_off ev cb) w).
Proof. apply ok_with_socket. intros sk. apply remove_first_subseteq. Qed.

Lemma ok_sk_off_all ev w : Inv w -> Inv (with_socket (sk_off_all ev) w).
Proof.
  apply ok_with_socket. intros sk. apply filter_is_subset.
Qed.

Lemma ok_sk_emit ev d w : Inv w -> Inv (with_socket (sk_emit ev d) w).
Proof. by apply ok_with_socket. Qed.

Lemma ok_sk_set_connected b w :
  Inv w -> Inv (with_socket (sk_set_connected b) w).
Proof. by apply ok_with_socket. Qed.

Lemma ok_drop_instruction_listeners q x w :
  Inv w -> Inv (drop_instruction_listeners q x w).
Proof.
  intros H. unfold drop_instruction_listeners. by do 2 apply ok_sk_off.
Qed.

Lemma ok_run_callback cb d w ev :
  ok_listener p tid t (ev, cb) -> Inv w -> Inv (run_callback cb d w).
Proof.
  intros [Hp Ht] H. cbn [snd] in Hp, Ht.
  destruct cb; cbn [run_callback cb_promise cb_timer] in *;
    repeat case_decide; try done.
  - apply ok_settle_other; [naive_solver |].
    apply ok_set_connected, ok_clearTimeout; [congruence | done].
  - apply ok_settle_other; [naive_solver |].
    apply ok_clearTimeout; [congruence | done].
  - destruct (decide (p0 = p)) as [->|].
    + assert (taskId = t) as -> by naive_solver.
      by apply ok_settle_own, ok_sk_off.
    + by apply ok_settle_other, ok_sk_off.
  - apply ok_settle_other; [naive_solver |]. by apply ok_sk_off.
  - apply ok_settle_other; [naive_solver |].
    by apply ok_drop_instruction_listeners.
  - apply ok_settle_other; [naive_solver |].
    by apply ok_drop_instruction_listeners.
Qed.

Lemma ok_deliver ev d w : Inv w -> Inv (deliver ev d w).
Proof.
  intros H. unfold deliver.
  destruct (socket w) as [sk|] eqn:Hs; [|done].
  assert (Hl : Forall (ok_listener p tid t) (sk_listeners sk)).
  { destruct H as [(_ & _ & _ & H4 & _) _]. unfold listeners in H4.
    by rewrite Hs in H4. }
  apply (foldl_preserves Inv); [|done].
  intros x l Hin Hx. apply (ok_run_callback _ _ _ l.1); [|done].
  apply list_elem_of_filter in Hin as [_ Hin].
  rewrite Forall_forall in Hl. destruct l. by apply Hl.
Qed.

Lemma ok_disconnect w : Inv w -> Inv (disconnect w).
Proof.
  intros H. unfold disconnect. destruct (socket w); [|done].
  apply ok_set_connected, ok_set_socket; [by constructor | done].
Qed.

Lemma ok_fresh_promise w w1 p1 :
  new_promise w = (w1, p1) -> Inv w ->
  Inv w1 /\ p1 ≠ p /\ (tid < next_timer w1)%nat.
Proof.
  intros Hn H. destruct (ok_new_promise w H) as [H1 H2].
  rewrite Hn in H1, H2. cbn in H1, H2. split; [done |]. split; [done |].
  by destruct H1 as [(_ & ? & _) _].
Qed.

Lemma ok_connect w : Inv w -> Inv (connect w).1.
Proof.
  intros H. unfold connect.
  destruct (new_promise w) as [w1 p1] eqn:Hn.
  destruct (ok_fresh_promise _ _ _ Hn H) as (H1 & Hp1 & Htid).
  case_match; cbn [fst].
  - by apply ok_settle_other.
  - set (w2 := set_socket (Some io) w1).
    assert (H2 : Inv w2) by (apply ok_set_socket; [constructor | done]).
    assert (Hid : (setTimeout (connectTimeout p1) CONNECTION_TIMEOUT w2).2
                  ≠ tid) by (cbn; lia).
    pose proof (ok_setTimeout (connectTimeout p1) CONNECTION_TIMEOUT w2) as H3.
    destruct (setTimeout (connectTimeout p1) CONNECTION_TIMEOUT w2)
      as [w3 id]. cbn [fst snd] in *.
    repeat apply ok_sk_on; try (split; cbn; congruence).
    apply H3; [|done]. intros Hq; cbn in Hq; congruence.
Qed.

Lemma ok_joinTask x w : Inv w -> Inv (joinTask x w).1.
Proof.
  intros H. unfold joinTask.
  destruct (new_promise w) as [w1 p1] eqn:Hn.
  destruct (ok_fresh_promise _ _ _ Hn H) as (H1 & Hp1 & Htid).
  case_match; cbn [fst]; [by apply ok_settle_other |].
  apply ok_setTimeout; [intros Hq; cbn in Hq; congruence |].
  apply ok_sk_on; [split; cbn; congruence |]. by apply ok_sk_emit.
Qed.

Lemma ok_confirmRoom x w : Inv w -> Inv (confirmRoom x w).1.
Proof.
  intros H. unfold confirmRoom.
  destruct (new_promise w) as [w1 p1] eqn:Hn.
  destruct (ok_fresh_promise _ _ _ Hn H) as (H1 & Hp1 & Htid).
  case_match; cbn [fst]; [by apply ok_settle_other |].
  apply ok_setTimeout; [intros Hq; cbn in Hq; congruence |].
  apply ok_sk_on; [split; cbn; congruence |]. by apply ok_sk_emit.
Qed.

Lemma ok_sendInstruction x y w :
  Inv w -> Inv (sendInstruction x y w).1.
Proof.
  intros H. unfold sendInstruction.
  destruct (new_promise w) as [w1 p1] eqn:Hn.
  destruct (ok_fresh_promise _ _ _ Hn H) as (H1 & Hp1 & Htid).
  case_match; cbn [fst]; [by apply ok_settle_other |].
  apply ok_setTimeout; [intros Hq; cbn in Hq; congruence |].
  do 2 (apply ok_sk_on; [split; cbn; congruence |]). by apply ok_sk_emit.
Qed.

Lemma ok_leaveTask x w : Inv w -> Inv (leaveTask x w).
Proof.
  intros H. unfold leaveTask. case_match; [by apply ok_sk_emit | done].
Qed.

Lemma ok_on event cb w i :
  ok_listener p tid t (event, cb) -> Inv w -> Inv (on event cb (w, i)).1.
Proof.
  intros Hcb H. unfold on. destruct (socket w); [|done].
  cbn [fst]. case_match.
  - by apply ok_set_registry.
  - by apply ok_sk_on, ok_set_registry.
Qed.

Lemma ok_off event c w i : Inv w -> Inv (off event c (w, i)).1.
Proof.
  intros H. unfold off. destruct (socket w); [|done].
  destruct c as [cb|]; cbn [fst].
  - repeat case_match; try done. by apply ok_sk_off, ok_set_registry.
  - by apply ok_set_registry, ok_sk_off_all.
Qed.

Lemma ok_cleanup w i :
  Inv w -> Inv (cleanupComponentListeners (w, i)).1.
Proof.
  intros H. unfold cleanupComponentListeners.
  rewrite cleanup_is_one_pass. cbn [snd].
  assert (H' : Inv
                 (foldl (fun acc x => off x.1 (Some x.2) acc) (w, i)
                    (tracked_pairs (componentListeners i))).1).
  { apply (foldl_preserves (fun x => Inv x.1)); [|done].
    intros [w' i'] x _ Hx. by apply ok_off. }
  by destruct (foldl _ _ _).
Qed.

Lemma ok_onUnmounted w i : Inv w -> Inv (onUnmounted (w, i)).1.
Proof.
  intros H. unfold onUnmounted. destruct (componentMounted i); [|done].
  match goal with
  | |- context [cleanupComponentListeners (?w0, ?i0)] =>
      pose proof (ok_cleanup w0 i0 (ok_set_count _ _ H)) as Hk;
      destruct (cleanupComponentListeners (w0, i0)) as [w' i']
  end.
  cbn [fst] in Hk. case_decide; cbn [fst]; [|done].
  by apply ok_setTimeout.
Qed.

Lemma ok_fire tk w : ok_task p t tk -> Inv w -> Inv (fire tk w).
Proof.
  intros Htk H. destruct tk; cbn [fire].
  - case_match; [done |]. apply ok_settle_other; [|done].
    intros ->. by specialize (Htk eq_refl).
  - destruct (decide (p0 = p)) as [->|].
    + assert (taskId = t) as ->
        by (specialize (Htk eq_refl); congruence).
      by apply ok_settle_own, ok_sk_off.
    + by apply ok_settle_other, ok_sk_off.
  - apply ok_settle_other; [|by apply ok_sk_off].
    intros ->. by specialize (Htk eq_refl).
  - apply ok_settle_other; [|by apply ok_drop_instruction_listeners].
    intros ->. by specialize (Htk eq_refl).
  - case_decide; [|done]. case_match; [|done]. by apply ok_disconnect.
Qed.

(** Every action but the passing of time. *)
Lemma ok_step a s :
  (forall dt, a ≠ Elapse dt) ->
  Inv (world s) -> Inv (world (step a s)).
Proof.
  intros Ha H. destruct a; cbn [step];
    try (destruct (owners s !! o) as [i|] eqn:Ho;
         [rewrite (as_owner_world _ _ _ _ Ho)
         | by rewrite as_owner_nobody by done]);
    cbn [in_world world].
  - done.
  - by apply ok_set_count.
  - by apply ok_onUnmounted.
  - by apply ok_on.
  - by apply ok_off.
  - by apply ok_cleanup.
  - by apply ok_connect.
  - by apply ok_disconnect.
  - by apply ok_joinTask.
  - by apply ok_leaveTask.
  - by apply ok_confirmRoom.
  - by apply ok_sendInstruction.
  - by apply ok_sk_emit.
  - by apply ok_deliver, ok_sk_set_connected.
  - by apply ok_deliver, ok_sk_set_connected.
  - by apply ok_deliver.
  - case_match; [done | by apply ok_deliver].
  - by destruct (Ha dt).
Qed.

Lemma settle_own_resolves w :
  Inv w -> promise p (settle p (Resolved ∅) w) = Resolved ∅.
Proof.
  intros [(H1 & _ & _ & _ & [H5|H5]) _].
  - by apply settle_pending, promise_pending_lookup.
  - rewrite settle_settled; [done | by rewrite H5].
Qed.

End Join.

Lemma fire_fields tk w :
  timers (fire tk w) = timers w /\ clock (fire tk w) = clock w.
Proof.
  assert (Hws : forall g w', timers (with_socket g w') = timers w'
                             /\ clock (with_socket g w') = clock w').
  { intros g w'. unfold with_socket. by case_match. }
  destruct tk; cbn [fire]; repeat case_match; try done;
    try (destruct (settle_fields p
                     (Rejected "WebSocket 连接超时") w) as (-> & _ & -> & _);
         done);
    try (match goal with
         | |- context [settle ?q ?r ?x] =>
             destruct (settle_fields q r x) as (-> & _ & -> & _)
         end;
         unfold drop_instruction_listeners;
         repeat match goal with
                | |- context [with_socket ?g ?x] =>
                    destruct (Hws g x) as [-> ->]
                end; done).
  all: unfold disconnect; by repeat case_match.
Qed.

Lemma fires_fields (l : list Timer) w :
  timers (foldl (fun acc tm => fire (task tm) acc) w l) = timers w
  /\ clock (foldl (fun acc tm => fire (task tm) acc) w l) = clock w.
Proof.
  apply (foldl_preserves (fun x => timers x = timers w /\ clock x = clock w));
    [|done].
  intros x tm _ [<- <-]. apply fire_fields.
Qed.

Lemma grows_fires (l : list Timer) w :
  grows w (foldl (fun acc tm => fire (task tm) acc) w l).
Proof.
  apply (foldl_preserves (grows w)); [|apply grows_refl].
  intros x tm _ Hx. eapply grows_trans; [exact Hx | apply grows_fire].
Qed.

Lemma ok_fires p tid deadline t (l : list Timer) w :
  Forall (fun tm => ok_task p t (task tm)) l ->
  join_ok p tid deadline t false w ->
  join_ok p tid deadline t false
    (foldl (fun acc tm => fire (task tm) acc) w l).
Proof.
  intros Hl H. apply (foldl_preserves (join_ok p tid deadline t false));
    [|done].
  intros x tm Hin Hx. apply ok_fire; [|done].
  rewrite Forall_forall in Hl. by apply Hl.
Qed.

(** Time passing: the promise's own timer either stays ahead or runs,
    and then the promise is resolved. *)
Lemma ok_elapse p tid deadline t dt w :
  join_ok p tid deadline t true w ->
  join_ok p tid deadline t true (elapse dt w).
Proof.
  intros [Hc Ha]. specialize (Ha eq_refl).
  pose proof Hc as (H1 & H2 & H3 & H4 & H5).
  unfold elapse.
  set (t1 := clock w + dt).
  set (ready := by_due (filter (fun tm => due tm <= t1) (timers w))).
  set (w0 := set_timers (filter (fun tm => ¬ due tm <= t1) (timers w)) w).
  assert (Hready : forall tm, tm ∈ ready <-> due tm <= t1 /\ tm ∈ timers w).
  { intros tm. unfold ready. by rewrite by_due_elem_of, list_elem_of_filter. }
  assert (H0 : join_ok p tid deadline t false w0).
  { split; [|done]. split_and!; try done.
    cbn. eapply Forall_on_subset; [apply filter_is_subset | done]. }
  assert (Hl : Forall (fun tm => ok_task p t (task tm)) ready).
  { apply Forall_forall. intros tm [_ Hin]%Hready.
    rewrite Forall_forall in H3. exact (H3 tm Hin). }
  pose proof (ok_fires p tid deadline t ready w0 Hl H0) as [Hc' _].
  pose proof (fires_fields ready w0) as [Et Ec].
  pose proof (grows_fires ready w0) as [Hg _].
  set (w' := foldl (fun acc tm => fire (task tm) acc) w0 ready) in *.
  split; [destruct Hc' as (? & ? & ? & ? & ?); by split_and! |].
  intros _ Hp. change (promise p w' = Pending) in Hp.
  assert (Hpw : promise p w = Pending).
  { destruct H5 as [|H5]; [done |].
    assert (Hw0 : promise p w0 = promise p w) by done.
    rewrite (Hg p) in Hp by (by rewrite Hw0, H5).
    by rewrite Hw0, H5 in Hp. }
  destruct (Ha Hpw) as [Hin Hclock].
  cbn [timers clock set_clock]. rewrite Et.
  destruct (decide (deadline <= t1)) as [Hdue|Hdue].
  - exfalso.
    assert (Hin' : {| timer_id := tid; due := deadline;
                      task := joinTimeout p t |} ∈ ready)
      by by apply Hready.
    apply list_elem_of_split in Hin' as (l1 & l2 & Hsplit).
    rewrite Hsplit in Hl. apply Forall_app in Hl as [Hl1 _].
    pose proof (ok_fires p tid deadline t l1 w0 Hl1 H0) as Hx1.
    subst w'. rewrite Hsplit, foldl_app in Hp. cbn [foldl task fire] in Hp.
    set (x1 := foldl (fun acc tm => fire (task tm) acc) w0 l1) in *.
    pose proof (settle_own_resolves p tid deadline t false _
                  (ok_sk_off p tid deadline t false "joined" (onJoined p t)
                     x1 Hx1)) as Hres.
    destruct (grows_fires l2
                (settle p (Resolved ∅)
                   (with_socket (sk_off "joined" (onJoined p t)) x1)))
      as [Hg2 _].
    rewrite (Hg2 p) in Hp by by rewrite Hres. by rewrite Hres in Hp.
  - split; [|lia]. apply list_elem_of_filter. split; [by cbn | done].
Qed.

Lemma ok_run p tid deadline t tr s :
  join_ok p tid deadline t true (world s) ->
  join_ok p tid deadline t true (world (run tr s)).
Proof.
  revert s. induction tr as [|a tr IH]; intros s H; [done |].
  rewrite run_cons. apply IH.
  assert (Hcase : (exists dt, a = Elapse dt) \/ forall dt, a ≠ Elapse dt)
    by (destruct a; eauto).
  destruct Hcase as [[dt ->]|Hne].
  - by apply ok_elapse.
  - by apply ok_step.
Qed.

Lemma joinTask_without_connection t w :
  socket_connected w = false ->
  promise (joinTask t w).2 (joinTask t w).1 = Rejected "WebSocket 未连接".
Proof.
  intros Hc. unfold joinTask. cbn.
  change (socket_connected (set_promises _ w)) with (socket_connected w).
  rewrite Hc. cbn [negb fst snd].
  apply settle_pending, (new_promise_new w).
Qed.

Lemma joinTask_starts t w :
  socket_connected w = true ->
  fresh_refs w ->
  (joinTask t w).2 = length (promises w)
  /\ join_ok (length (promises w)) (next_timer w) (clock w + 2000) t true
       (joinTask t w).1.
Proof.
  intros Hc [Ht Hl]. unfold joinTask. cbn.
  change (socket_connected (set_promises _ w)) with (socket_connected w).
  rewrite Hc. cbn [negb fst snd]. split; [done |].
  unfold socket_connected in Hc. unfold listeners in Hl.
  destruct (socket w) as [sk|] eqn:Hs; [|done]. cbn in Hl.
  unfold with_socket. cbn. rewrite Hs. cbn.
  split; [split_and! | intros _ _; split]; cbn.
  - rewrite length_app. cbn. lia.
  - lia.
  - apply Forall_app. split; [|by repeat constructor].
    eapply Forall_impl; [exact Ht |]. intros tm [Hb _] Hq.
    rewrite Hq in Hb. cbn in Hb. lia.
  - unfold listeners. cbn. apply Forall_app. split.
    + eapply Forall_impl; [exact Hl |]. intros l [Hb1 Hb2]. split.
      * intros Hq. rewrite Hq in Hb1. cbn in Hb1. lia.
      * intros Hq. rewrite Hq in Hb2. cbn in Hb2. lia.
    + by repeat constructor.
  - left. unfold promise. cbn. by rewrite lookup_app_r, Nat.sub_diag.
  - apply elem_of_app. right. by apply list_elem_of_singleton.
  - lia.
Qed.

(** An acknowledgment that finds the listener bound resolves the promise. *)
Lemma joined_resolves p tid deadline t strict d w :
  join_ok p tid deadline t strict w ->
  ("joined", onJoined p t) ∈ listeners w ->
  d !! "task_id" = Some t ->
  promise p (deliver "joined" d w) = Resolved ∅.
Proof.
  intros H Hin Hd. unfold deliver, listeners in *.
  destruct (socket w) as [sk|] eqn:Hs; [|by apply elem_of_nil in Hin].
  cbn in Hin.
  assert (Hok : Forall (ok_listener p tid t) (sk_listeners sk)).
  { destruct H as [(_ & _ & _ & H4 & _) _]. unfold listeners in H4.
    by rewrite Hs in H4. }
  assert (Hin' : ("joined", onJoined p t)
                 ∈ filter (fun l => l.1 = "joined") (sk_listeners sk))
    by by apply list_elem_of_filter.
  apply list_elem_of_split in Hin' as (l1 & l2 & Hsplit).
  rewrite Hsplit, foldl_app. cbn [foldl snd run_callback].
  rewrite decide_True by done.
  assert (Hx1 : join_ok p tid deadline t strict
                  (foldl (fun acc l => run_callback l.2 d acc) w l1)).
  { apply (foldl_preserves (join_ok p tid deadline t strict)); [|done].
    intros x l Hl Hx. apply (ok_run_callback _ _ _ _ _ _ _ _ l.1); [|done].
    assert (Hl' : l ∈ filter (fun l => l.1 = "joined") (sk_listeners sk)).
    { rewrite Hsplit. apply elem_of_app. by left. }
    apply list_elem_of_filter in Hl' as [_ Hl'].
    rewrite Forall_forall in Hok. destruct l. by apply Hok. }
  set (x1 := foldl (fun acc l => run_callback l.2 d acc) w l1) in *.
  pose proof (settle_own_resolves p tid deadline t strict _
                (ok_sk_off p tid deadline t strict "joined" (onJoined p t)
                   x1 Hx1)) as Hres.
  match goal with
  | |- promise p (foldl ?g ?x ?l) = _ =>
      assert (Hg : grows x (foldl g x l))
  end.
  { apply (foldl_preserves (grows _)); [|apply grows_refl].
    intros x l _ Hx.
    eapply grows_trans; [exact Hx | apply grows_run_callback]. }
  destruct Hg as [Hg _]. rewrite (Hg p) by by rewrite Hres. done.
Qed.

(** C4: without a connected socket [joinTask] rejects at once with the
    connection error.  With one, whatever happens afterwards (calls of the
    UI, events of the transport, messages of the server, time passing),
    the promise is never rejected; it is resolved once 2000 ms have
    passed, acknowledgment or not; and an acknowledgment for the task that
    arrives while the listener is bound resolves it on the spot. *)
Theorem joinTask_settles (t : string) (s : System) (tr : list Action)
    (d : gmap string string) :
  let p := (joinTask t (world s)).2 in
  let joined := {| world := (joinTask t (world s)).1; owners := owners s |} in
  (socket_connected (world s) = false ->
   promise p (world joined) = Rejected "WebSocket 未连接")
  /\ (socket_connected (world s) = true ->
      fresh_refs (world s) ->
      let s' := run tr joined in
      (forall msg, promise p (world s') ≠ Rejected msg)
      /\ (clock (world s) + 2000 <= clock (world s') ->
          promise p (world s') = Resolved ∅)
      /\ (("joined", onJoined p t) ∈ listeners (world s') ->
          d !! "task_id" = Some t ->
          promise p (world (step (Recv "joined" d) s')) = Resolved ∅)).
Proof.
  intros p joined. split; [apply joinTask_without_connection |].
  intros Hc Hf s'.
  destruct (joinTask_starts t (world s) Hc Hf) as [Hp H0].
  fold p in Hp. rewrite <- Hp in H0.
  pose proof (ok_run p _ _ t tr joined H0) as H. fold s' in H.
  pose proof H as [(_ & _ & _ & _ & H5) Ha]. specialize (Ha eq_refl).
  split; [|split].
  - intros msg. destruct H5 as [-> | ->]; done.
  - intros Hclock. destruct H5 as [H5|H5]; [|done].
    destruct (Ha H5) as [_ Hlt]. lia.
  - intros Hin Hd. cbn. by apply (joined_resolves _ _ _ _ _ _ _ H).
Qed.

Lemma joinTask_settles_witness :
  let s := run [UseSocket; Mount 0; Connect; TransportUp] start in
  let p := (joinTask "t1" (world s)).2 in
  let joined :=
    {| world := (joinTask "t1" (world s)).1; owners := owners s |} in
  let s' := run [Elapse 500; On 0 "agent:thought" 1; Elapse 1500] joined in
  socket_connected (world s) = true
  /\ promise p (world joined) = Pending
  /\ promise p (world s') = Resolved ∅.
Proof.
  intros s p joined s'.
  split; [by vm_compute |]. split; [by vm_compute |].
  destruct (joinTask_settles "t1" s
              [Elapse 500; On 0 "agent:thought" 1; Elapse 1500] ∅)
    as [_ H].
  destruct H as (_ & H & _).
  - by vm_compute.
  - split; vm_compute; repeat constructor.
  - apply H. by vm_compute.
Defined.

End Promises.

(** ** Instructions: sendInstruction *)

Section Instructions.
Import UseSocket.

Implicit Types (w : World) (s : System) (cb : Callback) (p q : nat).

(** *** Events from outside only take listeners away *)

Lemma subscriptions_listeners ev cb w :
  subscriptions ev cb w
  = length (filter (fun x => x = (ev, cb)) (listeners w)).
Proof. unfold subscriptions, listeners. by destruct (socket w). Qed.

Lemma subscriptions_off ev cb ev' cb' w :
  subscriptions ev cb (with_socket (sk_off ev' cb') w)
  = if decide ((ev', cb') = (ev, cb)) then pred (subscriptions ev cb w)
    else subscriptions ev cb w.
Proof.
  unfold subscriptions, with_socket.
  destruct (socket w) as [sk|] eqn:Hs; cbn; [|rewrite Hs; by case_decide].
  apply count_remove_first.
Qed.

Lemma subscriptions_settle ev cb q r w :
  subscriptions ev cb (settle q r w) = subscriptions ev cb w.
Proof.
  unfold subscriptions.
  by destruct (settle_fields q r w) as (_ & _ & _ & -> & _).
Qed.

Lemma sheds_refl w : sheds w w.
Proof. by intros ev cb. Qed.

Lemma sheds_trans w1 w2 w3 : sheds w1 w2 -> sheds w2 w3 -> sheds w1 w3.
Proof.
  intros H1 H2 ev cb. specialize (H1 ev cb). specialize (H2 ev cb). lia.
Qed.

Lemma sheds_settle q r w : sheds w (settle q r w).
Proof. intros ev cb. by rewrite subscriptions_settle. Qed.

Lemma sheds_off ev cb w : sheds w (with_socket (sk_off ev cb) w).
Proof. intros ev' cb'. rewrite subscriptions_off. case_decide; lia. Qed.

Lemma sheds_disconnect w : sheds w (disconnect w).
Proof.
  intros ev cb. unfold disconnect, subscriptions.
  destruct (socket w) eqn:Hs; cbn; rewrite ?Hs; lia.
Qed.

Lemma sheds_drop q x w : sheds w (drop_instruction_listeners q x w).
Proof.
  unfold drop_instruction_listeners.
  eapply sheds_trans; apply sheds_off.
Qed.

Lemma sheds_run_callback cb d w : sheds w (run_callback cb d w).
Proof.
  destruct cb; cbn [run_callback]; repeat case_decide;
    try apply sheds_refl;
    try (eapply sheds_trans; [|apply sheds_settle]);
    try apply sheds_off; try apply sheds_drop; by intros ??.
Qed.

Lemma sheds_deliver ev d w : sheds w (deliver ev d w).
Proof.
  unfold deliver. destruct (socket w); [|apply sheds_refl].
  apply (foldl_preserves (sheds w)); [|apply sheds_refl].
  intros x l _ Hx. eapply sheds_trans; [exact Hx | apply sheds_run_callback].
Qed.

Lemma sheds_fire tk w : sheds w (fire tk w).
Proof.
  destruct tk; cbn [fire]; repeat case_match;
    try apply sheds_refl; try apply sheds_disconnect;
    try apply sheds_settle;
    (eapply sheds_trans; [|apply sheds_settle]);
    try apply sheds_off; apply sheds_drop.
Qed.

Lemma sheds_elapse dt w : sheds w (elapse dt w).
Proof.
  unfold elapse.
  match goal with
  | |- sheds _ (set_clock _ ?x) => assert (H : sheds w x); [|exact H]
  end.
  apply (foldl_preserves (sheds w)); [|by intros ??].
  intros x tm _ Hx. eapply sheds_trans; [exact Hx | apply sheds_fire].
Qed.

Lemma sheds_sk_set_connected b w :
  sheds w (with_socket (sk_set_connected b) w).
Proof.
  intros ev cb. unfold subscriptions, with_socket.
  destruct (socket w) eqn:Hs; cbn; [done | by rewrite Hs].
Qed.

Lemma sheds_step a s :
  from_outside a -> sheds (world s) (world (step a s)).
Proof.
  intros Ha. destruct a; try done; cbn [step in_world world].
  - eapply sheds_trans; [apply sheds_sk_set_connected | apply sheds_deliver].
  - eapply sheds_trans; [apply sheds_sk_set_connected | apply sheds_deliver].
  - apply sheds_deliver.
  - case_match; [apply sheds_refl | apply sheds_deliver].
  - apply sheds_elapse.
Qed.

Lemma sheds_run tr s :
  Forall from_outside tr -> sheds (world s) (world (run tr s)).
Proof.
  intros Htr. revert s.
  induction Htr as [|a tr Ha _ IH]; intros s; [apply sheds_refl |].
  rewrite run_cons. eapply sheds_trans; [by apply sheds_step | apply IH].
Qed.

(** Once settled with both listeners gone, that is how things stay. *)
Lemma instr_done_run p t tr s :
  Forall from_outside tr ->
  instr_done p t (world s) ->
  instr_done p t (world (run tr s))
  /\ promise p (world (run tr s)) = promise p (world s).
Proof.
  intros Htr (Hp & Hr & He).
  pose proof (sheds_run tr s Htr) as Hsh.
  pose proof (settled_is_final p tr s Hp) as Hfin.
  split; [|done]. split; [by rewrite Hfin |].
  split.
  - specialize (Hsh "instruction_received" (onReceived p t)). lia.
  - specialize (Hsh "instruction_error" (onError p t)). lia.
Qed.

Lemma sheds_callbacks (l : list (string * Callback)) d w :
  sheds w (foldl (fun acc l => run_callback l.2 d acc) w l).
Proof.
  apply (foldl_preserves (sheds w)); [|apply sheds_refl].
  intros x y _ Hx. eapply sheds_trans; [exact Hx | apply sheds_run_callback].
Qed.

Lemma grows_callbacks (l : list (string * Callback)) d w :
  grows w (foldl (fun acc l => run_callback l.2 d acc) w l).
Proof.
  apply (foldl_preserves (grows w)); [|apply grows_refl].
  intros x y _ Hx. eapply grows_trans; [exact Hx | apply grows_run_callback].
Qed.

Lemma sheds_fires (l : list Timer) w :
  sheds w (foldl (fun acc tm => fire (task tm) acc) w l).
Proof.
  apply (foldl_preserves (sheds w)); [|apply sheds_refl].
  intros x y _ Hx. eapply sheds_trans; [exact Hx | apply sheds_fire].
Qed.

Lemma instr_done_after p t w w' :
  sheds w w' -> grows w w' -> instr_done p t w ->
  instr_done p t w' /\ promise p w' = promise p w.
Proof.
  intros Hsh [Hg _] (Hp & Hr & He).
  split; [|by apply Hg]. split; [by rewrite Hg |]. split.
  - specialize (Hsh "instruction_received" (onReceived p t)). lia.
  - specialize (Hsh "instruction_error" (onError p t)). lia.
Qed.

Section OneInstruction.
Variables (p tid : nat) (deadline : Z) (t : string).
Local Abbreviation Inv := (instr_ok p tid deadline t).
Local Abbreviation mine := (own_timer p tid deadline t).

Lemma instr_ok_settle_other c q r w :
  q ≠ p -> Inv c w -> Inv c (settle q r w).
Proof.
  intros Hne ((H1 & H2 & H3 & H4) & (Hp & Hr & He) & Hc).
  destruct (settle_fields q r w) as (Et & _ & Ec & Es & _).
  split; [split_and! | split; [split_and! |]].
  - by rewrite settle_length.
  - unfold settle. by repeat case_match.
  - by rewrite Et.
  - unfold listeners. by rewrite Es.
  - by rewrite settle_other.
  - by rewrite subscriptions_settle.
  - by rewrite subscriptions_settle.
  - by rewrite Ec.
Qed.

Lemma instr_ok_off c ev cb w :
  cb_promise cb ≠ Some p ->
  Inv c w -> Inv c (with_socket (sk_off ev cb) w).
Proof.
  intros Hcb ((H1 & H2 & H3 & H4) & (Hp & Hr & He) & Hc).
  assert (Hl : Forall
                 (fun l => (cb_promise l.2 = Some p
                            -> l = ("instruction_received", onReceived p t)
                               \/ l = ("instruction_error", onError p t))
                           /\ cb_timer l.2 ≠ Some tid)
                 (listeners (with_socket (sk_off ev cb) w))).
  { rewrite listeners_with_socket. unfold listeners in H4.
    destruct (socket w) as [sk|]; cbn in *; [|done].
    eapply Forall_on_subset; [apply remove_first_subseteq | done]. }
  assert (Hr' : subscriptions "instruction_received" (onReceived p t)
                  (with_socket (sk_off ev cb) w) = 1%nat).
  { rewrite subscriptions_off. case_decide as Heq; [|done].
    exfalso. apply Hcb. injection Heq as _ ->. done. }
  assert (He' : subscriptions "instruction_error" (onError p t)
                  (with_socket (sk_off ev cb) w) = 1%nat).
  { rewrite subscriptions_off. case_decide as Heq; [|done].
    exfalso. apply Hcb. injection Heq as _ ->. done. }
  unfold with_socket in *. destruct (socket w); [|done].
  split; [split_and!; done | split; [split_and!; done | done]].
Qed.

Lemma instr_ok_clearTimeout c id w :
  Inv c w -> Inv c (clearTimeout id w).
Proof.
  intros ((H1 & H2 & H3 & H4) & (Hp & Hr & He) & Hc).
  split; [split_and!; try done | split; [split_and!; done | done]].
  cbn. eapply Forall_on_subset; [apply filter_is_subset | done].
Qed.

Lemma instr_ok_set_connected c b w :
  Inv c w -> Inv c (set_connected b w).
Proof.
  intros ((H1 & H2 & H3 & H4) & (Hp & Hr & He) & Hc).
  split; [split_and!; done | split; [split_and!; done | done]].
Qed.

Lemma instr_ok_sk_set_connected c b w :
  Inv c w -> Inv c (with_socket (sk_set_connected b) w).
Proof.
  intros ((H1 & H2 & H3 & H4) & (Hp & Hr & He) & Hc).
  assert (Hl : listeners (with_socket (sk_set_connected b) w) = listeners w).
  { rewrite listeners_with_socket. unfold listeners. by destruct (socket w). }
  split; [split_and!; try done | split; [split_and!; try done | ]].
  - unfold with_socket. by destruct (socket w).
  - unfold with_socket. by destruct (socket w).
  - unfold with_socket. by destruct (socket w).
  - by rewrite Hl.
  - unfold with_socket. by destruct (socket w).
  - by rewrite subscriptions_listeners, Hl, <- subscriptions_listeners.
  - by rewrite subscriptions_listeners, Hl, <- subscriptions_listeners.
  - unfold with_socket. by destruct (socket w).
Qed.

Lemma instr_ok_drop c q x w :
  q ≠ p -> Inv c w -> Inv c (drop_instruction_listeners q x w).
Proof.
  intros Hne H. unfold drop_instruction_listeners.
  do 2 (apply instr_ok_off; [cbn; congruence |]). done.
Qed.

(** A closure of another promise leaves the waiting state as it is. *)
Lemma instr_ok_foreign_callback c cb d w :
  cb_promise cb ≠ Some p ->
  Inv c w -> Inv c (run_callback cb d w).
Proof.
  intros Hcb H.
  destruct cb; cbn [run_callback cb_promise] in *; repeat case_decide;
    try done.
  - apply instr_ok_settle_other; [congruence |].
    by apply instr_ok_set_connected, instr_ok_clearTimeout.
  - apply instr_ok_settle_other; [congruence |].
    by apply instr_ok_clearTimeout.
  - apply instr_ok_settle_other; [congruence |].
    by apply instr_ok_off.
  - apply instr_ok_settle_other; [congruence |].
    by apply instr_ok_off.
  - apply instr_ok_settle_other; [congruence |].
    apply instr_ok_drop; [congruence | done].
  - apply instr_ok_settle_other; [congruence |].
    apply instr_ok_drop; [congruence | done].
Qed.

(** ... and leaves the promise's own timer in the queue. *)
Lemma own_timer_foreign_callback cb d w :
  cb_timer cb ≠ Some tid ->
  mine ∈ timers w -> mine ∈ timers (run_callback cb d w).
Proof.
  intros Hcb Hin.
  assert (Hws : forall g w', timers (with_socket g w') = timers w').
  { intros g w'. unfold with_socket. by case_match. }
  assert (Hclear : forall id w', id ≠ tid ->
            mine ∈ timers w' -> mine ∈ timers (clearTimeout id w')).
  { intros id w' Hid Hw'. cbn. apply list_elem_of_filter. by split. }
  destruct cb; cbn [run_callback cb_timer] in *; repeat case_decide;
    try done;
    repeat match goal with
           | |- context [settle ?q ?r ?x] =>
               destruct (settle_fields q r x) as (-> & _)
           end;
    unfold drop_instruction_listeners; rewrite ?Hws; try done.
  - cbn. apply list_elem_of_filter. split; [cbn; congruence | done].
  - cbn. apply list_elem_of_filter. split; [cbn; congruence | done].
Qed.

(** The promise's own closures and timer: each drops both listeners and
    settles the promise. *)
Lemma own_settles c r w :
  r ≠ Pending ->
  Inv c w ->
  promise p (settle p r (drop_instruction_listeners p t w)) = r
  /\ instr_done p t (settle p r (drop_instruction_listeners p t w)).
Proof.
  intros Hr ((H1 & _) & (Hp & Hsr & Hse) & _).
  assert (Hres : promise p (settle p r (drop_instruction_listeners p t w)) = r).
  { apply settle_pending. unfold drop_instruction_listeners, with_socket.
    repeat case_match; cbn; by apply promise_pending_lookup. }
  split; [done |]. split; [by rewrite Hres |].
  rewrite !subscriptions_settle. unfold drop_instruction_listeners.
  rewrite !subscriptions_off, Hsr, Hse.
  split; repeat case_decide; try done; congruence.
Qed.

Lemma instr_ok_foreign_fire c tk w :
  task_promise tk ≠ Some p -> Inv c w -> Inv c (fire tk w).
Proof.
  intros Htk H. destruct tk; cbn [fire task_promise] in *.
  - case_match; [done |]. apply instr_ok_settle_other; [congruence | done].
  - apply instr_ok_settle_other; [congruence |]. by apply instr_ok_off.
  - apply instr_ok_settle_other; [congruence |]. by apply instr_ok_off.
  - apply instr_ok_settle_other; [congruence |].
    apply instr_ok_drop; [congruence | done].
  - pose proof H as ((_ & Hcount & _) & _). by rewrite decide_False.
Qed.

Lemma quiet_callbacks c d (l : list (string * Callback)) w :
  Forall (quiet p tid d) l ->
  Inv c w -> mine ∈ timers w ->
  Inv c (foldl (fun acc l => run_callback l.2 d acc) w l)
  /\ mine ∈ timers (foldl (fun acc l => run_callback l.2 d acc) w l).
Proof.
  intros Hl H Hin.
  apply (foldl_preserves
           (fun x => Inv c x /\ mine ∈ timers x)); [|done].
  intros x y Hy [Hx Hinx]. rewrite Forall_forall in Hl.
  destruct (Hl y Hy) as [[Hq|Hq] Ht].
  - split; [by apply instr_ok_foreign_callback
           | by apply own_timer_foreign_callback].
  - by rewrite Hq.
Qed.

Lemma waiting_listeners c w :
  Inv c w ->
  exists sk, socket w = Some sk
    /\ Forall
         (fun l => (cb_promise l.2 = Some p
                    -> l = ("instruction_received", onReceived p t)
                       \/ l = ("instruction_error", onError p t))
                   /\ cb_timer l.2 ≠ Some tid) (sk_listeners sk)
    /\ ("instruction_received", onReceived p t) ∈ sk_listeners sk
    /\ ("instruction_error", onError p t) ∈ sk_listeners sk.
Proof.
  intros ((_ & _ & _ & H4) & (_ & Hr & He) & _).
  unfold subscriptions, listeners in *.
  destruct (socket w) as [sk|]; [|done]. exists sk. cbn in H4.
  split; [done |]. split; [done |].
  assert (Hpos : forall x : string * Callback,
            length (filter (fun y => y = x) (sk_listeners sk)) = 1%nat ->
            x ∈ sk_listeners sk).
  { intros x Hx.
    destruct (filter (fun y => y = x) (sk_listeners sk)) as [|y l] eqn:Hf;
      [done |].
    assert (Hy : y ∈ filter (fun y => y = x) (sk_listeners sk))
      by (rewrite Hf; by left).
    by apply list_elem_of_filter in Hy as [-> ?]. }
  split; by apply Hpos.
Qed.

(** An event that is delivered while the promise waits. *)
Lemma deliver_waiting c ev d w :
  Inv c w -> mine ∈ timers w ->
  if decide (ev = "instruction_received" /\ d !! "task_id" = Some t) then
    promise p (deliver ev d w) = Resolved d
    /\ instr_done p t (deliver ev d w)
  else if decide (ev = "instruction_error" /\ d !! "task_id" = Some t) then
    promise p (deliver ev d w)
    = Rejected (Js.or_else (d !! "error") "发送指令失败")
    /\ instr_done p t (deliver ev d w)
  else
    Inv c (deliver ev d w) /\ mine ∈ timers (deliver ev d w).
Proof.
  intros H Hin.
  destruct (waiting_listeners c w H) as (sk & Hs & Hok & Hinr & Hine).
  unfold deliver. rewrite Hs.
  set (L := filter (fun l => l.1 = ev) (sk_listeners sk)).
  assert (HL : forall l, l ∈ L ->
            l.1 = ev
            /\ (cb_promise l.2 = Some p
                -> l = ("instruction_received", onReceived p t)
                   \/ l = ("instruction_error", onError p t))
            /\ cb_timer l.2 ≠ Some tid).
  { intros l [Hev Hl]%list_elem_of_filter. split; [done |].
    rewrite Forall_forall in Hok. by apply Hok. }
  assert (Hsplit : forall own r,
            own ∈ L ->
            (forall l, l ∈ L -> cb_promise l.2 = Some p -> l = own) ->
            r ≠ Pending ->
            (forall x, run_callback own.2 d x
                       = settle p r (drop_instruction_listeners p t x)) ->
            promise p (foldl (fun acc l => run_callback l.2 d acc) w L) = r
            /\ instr_done p t
                 (foldl (fun acc l => run_callback l.2 d acc) w L)).
  { intros own r Hown Honly Hr Hrun.
    apply list_elem_of_split_l in Hown as (l1 & l2 & HLeq & Hnotin).
    assert (Hq : Forall (quiet p tid d) l1).
    { apply Forall_forall. intros l Hl.
      assert (HlL : l ∈ L) by (rewrite HLeq; apply elem_of_app; by left).
      destruct (HL l HlL) as (_ & _ & Ht). split; [|done]. left.
      intros Hp. apply Hnotin. by rewrite <- (Honly l HlL Hp). }
    destruct (quiet_callbacks c d l1 w Hq H Hin) as [H1 _].
    rewrite HLeq, foldl_app. cbn [foldl]. rewrite Hrun.
    destruct (own_settles c r _ Hr H1) as [Hres Hdone].
    destruct (instr_done_after p t _ _
                (sheds_callbacks l2 d _) (grows_callbacks l2 d _) Hdone)
      as [Hdone' Hsame].
    split; [by rewrite Hsame | done]. }
  destruct (decide (ev = "instruction_received" /\ d !! "task_id" = Some t))
    as [[-> Hd]|Hnr].
  - apply (Hsplit ("instruction_received", onReceived p t)); [| |done |].
    + by apply list_elem_of_filter.
    + intros l Hl Hp. destruct (HL l Hl) as (Hev & [->| ->] & _); done.
    + intros x. cbn [snd run_callback]. by rewrite decide_True.
  - destruct (decide (ev = "instruction_error" /\ d !! "task_id" = Some t))
      as [[-> Hd]|Hne].
    + apply (Hsplit ("instruction_error", onError p t)); [| |done |].
      * by apply list_elem_of_filter.
      * intros l Hl Hp. destruct (HL l Hl) as (Hev & [->| ->] & _); done.
      * intros x. cbn [snd run_callback]. by rewrite decide_True.
    + apply quiet_callbacks; [|done | done].
      apply Forall_forall. intros l Hl.
      destruct (HL l Hl) as (Hev & Hown & Ht). split; [|done].
      destruct (decide (cb_promise l.2 = Some p)) as [Hp|]; [|by left].
      right. intros x. destruct (Hown Hp) as [-> | ->]; cbn in *.
      * rewrite decide_False; [done |]. intros Hd. apply Hnr. by split.
      * rewrite decide_False; [done |]. intros Hd. apply Hne. by split.
Qed.

(** Time that passes while the promise waits. *)
Lemma elapse_waiting c dt w :
  Inv c w -> mine ∈ timers w ->
  if decide (deadline <= c + dt) then
    promise p (elapse dt w) = Rejected "发送指令超时"
    /\ instr_done p t (elapse dt w)
  else
    Inv (c + dt) (elapse dt w) /\ mine ∈ timers (elapse dt w).
Proof.
  intros H Hin. pose proof H as ((H1 & H2 & H3 & H4) & Hw & Hc).
  unfold elapse. rewrite Hc.
  set (t1 := c + dt).
  set (ready := by_due (filter (fun tm => due tm <= t1) (timers w))).
  set (w0 := set_timers (filter (fun tm => ¬ due tm <= t1) (timers w)) w).
  assert (Hready : forall tm, tm ∈ ready <-> due tm <= t1 /\ tm ∈ timers w).
  { intros tm. unfold ready. by rewrite by_due_elem_of, list_elem_of_filter. }
  assert (H0 : Inv c w0).
  { split; [split_and!; try done | done].
    cbn. eapply Forall_on_subset; [apply filter_is_subset | done]. }
  assert (Hforeign : forall l x,
            (forall tm, tm ∈ l -> tm ∈ timers w /\ tm ≠ mine) ->
            Inv c x ->
            Inv c (foldl (fun acc tm => fire (task tm) acc) x l)).
  { intros l x Hl Hx. apply (foldl_preserves (Inv c)); [|done].
    intros y tm Htm Hy. apply instr_ok_foreign_fire; [|done].
    destruct (Hl tm Htm) as [Hin' Hne]. intros Hq. apply Hne.
    rewrite Forall_forall in H3. by apply H3. }
  case_decide as Hdue.
  - assert (Hin' : mine ∈ ready) by by apply Hready.
    apply list_elem_of_split_l in Hin' as (l1 & l2 & Hsplit & Hnotin).
    assert (H1' : Inv c (foldl (fun acc tm => fire (task tm) acc) w0 l1)).
    { apply Hforeign; [|done]. intros tm Htm. split.
      - apply Hready. rewrite Hsplit. apply elem_of_app. by left.
      - by intros ->. }
    rewrite Hsplit, foldl_app. cbn [foldl task own_timer fire].
    destruct (own_settles c (Rejected "发送指令超时") _ ltac:(done) H1')
      as [Hres Hdone].
    destruct (instr_done_after p t _ _
                (sheds_fires l2 _) (grows_fires l2 _) Hdone)
      as [(Hd1 & Hd2 & Hd3) Hsame].
    rewrite Hres in Hsame.
    split; [exact Hsame | split_and!; [exact Hd1 | exact Hd2 | exact Hd3]].
  - assert (Hall : Inv c
                     (foldl (fun acc tm => fire (task tm) acc) w0 ready)).
    { apply Hforeign; [|done]. intros tm [Hd Htm]%Hready. split; [done |].
      intros ->. by cbn in Hd. }
    destruct (fires_fields ready w0) as [Et Ec].
    destruct Hall as ((? & ? & ? & ?) & (? & ? & ?) & ?).
    split; [split; [by split_and! | split; [by split_and! | done]] |].
    cbn [timers set_clock]. rewrite Et. cbn.
    apply list_elem_of_filter. split; [by cbn | done].
Qed.

(** The promise follows the rule along every trace of outside events. *)
Lemma waiting_follows_rule tr s :
  Forall from_outside tr ->
  Inv (clock (world s)) (world s) ->
  mine ∈ timers (world s) ->
  promise p (world (run tr s))
  = instruction_outcome t deadline (clock (world s)) tr
  /\ (promise p (world (run tr s)) ≠ Pending ->
      instr_done p t (world (run tr s))).
Proof.
  intros Htr. revert s.
  induction Htr as [|a tr Ha Htr IH]; intros s H Hin.
  { cbn. destruct H as (_ & (Hp & _) & _). by split. }
  assert (Hsettled : forall r,
            promise p (world (step a s)) = r -> r ≠ Pending ->
            instr_done p t (world (step a s)) ->
            promise p (world (run tr (step a s))) = r
            /\ (promise p (world (run tr (step a s))) ≠ Pending ->
                instr_done p t (world (run tr (step a s))))).
  { intros r Hr Hne Hdone.
    destruct (instr_done_run p t tr (step a s) Htr Hdone) as [Hd Hsame].
    split; [by rewrite Hsame | done]. }
  assert (Hquiet : forall ev d,
            ¬ (ev = "instruction_received" /\ d !! "task_id" = Some t) ->
            ¬ (ev = "instruction_error" /\ d !! "task_id" = Some t) ->
            forall w, Inv (clock (world s)) w -> mine ∈ timers w ->
            Inv (clock (world s)) (deliver ev d w)
            /\ mine ∈ timers (deliver ev d w)).
  { intros ev d Hnr Hne w Hw Hinw.
    pose proof (deliver_waiting (clock (world s)) ev d w Hw Hinw) as Hd.
    by rewrite !decide_False in Hd. }
  assert (Hclock : forall ev d w,
            Inv (clock (world s)) (deliver ev d w) ->
            clock (deliver ev d w) = clock (world s))
    by (by intros ev d w (_ & _ & ?)).
  rewrite run_cons.
  destruct a; try done; cbn [step in_world world instruction_outcome] in *.
  - destruct (Hquiet "connect" ∅ ltac:(intros [? _]; done)
                ltac:(intros [? _]; done)
                (with_socket (sk_set_connected true) (world s))) as [H' Hin'];
      [by apply instr_ok_sk_set_connected
      | unfold with_socket; by case_match |].
    rewrite <- (Hclock _ _ _ H').
    apply (IH {| world := _; owners := owners s |}); [|done].
    cbn. by rewrite (Hclock _ _ _ H').
  - destruct (Hquiet "disconnect" {[ "reason" := reason ]}
                ltac:(intros [? _]; done) ltac:(intros [? _]; done)
                (with_socket (sk_set_connected false) (world s)))
      as [H' Hin'];
      [by apply instr_ok_sk_set_connected
      | unfold with_socket; by case_match |].
    rewrite <- (Hclock _ _ _ H').
    apply (IH {| world := _; owners := owners s |}); [|done].
    cbn. by rewrite (Hclock _ _ _ H').
  - destruct (Hquiet "connect_error" {[ "message" := msg ]}
                ltac:(intros [? _]; done) ltac:(intros [? _]; done)
                (world s)) as [H' Hin']; [done | done |].
    rewrite <- (Hclock _ _ _ H').
    apply (IH {| world := _; owners := owners s |}); [|done].
    cbn. by rewrite (Hclock _ _ _ H').
  - destruct (reserved event) eqn:Hres.
    + assert (Hev : event ≠ "instruction_received"
                    /\ event ≠ "instruction_error").
      { unfold reserved in Hres. apply bool_decide_eq_true in Hres.
        split; intros ->;
          repeat (apply elem_of_cons in Hres as [?|Hres]; [discriminate |]);
          by apply elem_of_nil in Hres. }
      destruct Hev as [Hev1 Hev2].
      rewrite !decide_False by (intros [? _]; done). by apply IH.
    + pose proof (deliver_waiting (clock (world s)) event data (world s) H Hin)
        as Hd.
      repeat case_decide.
      * destruct Hd as [Hr Hdone].
        by apply (Hsettled (Resolved data)).
      * destruct Hd as [Hr Hdone].
        by apply (Hsettled (Rejected _)).
      * destruct Hd as [H' Hin'].
        rewrite <- (Hclock _ _ _ H').
        apply (IH {| world := _; owners := owners s |}); [|done].
        cbn. by rewrite (Hclock _ _ _ H').
  - pose proof (elapse_waiting (clock (world s)) dt (world s) H Hin) as Hd.
    case_decide.
    + destruct Hd as [Hr Hdone]. by apply (Hsettled (Rejected _)).
    + destruct Hd as [H' Hin'].
      assert (Hc' : clock (elapse dt (world s)) = clock (world s) + dt)
        by by destruct H' as (_ & _ & ?).
      rewrite <- Hc'.
      apply (IH {| world := _; owners := owners s |}); [|done].
      cbn [world]. by rewrite Hc'.
Qed.

End OneInstruction.

(** A closure of a promise that does not exist yet is bound nowhere. *)
Lemma fresh_not_bound ev cb (l : list (string * Callback)) n :
  Forall (fun l => below n (cb_promise l.2)) l ->
  cb_promise cb = Some n ->
  filter (fun x => x = (ev, cb)) l = [].
Proof.
  intros Hl Hcb. induction Hl as [|y l Hy _ IH]; [done |].
  rewrite filter_cons, IH. case_decide; [|done].
  subst y. cbn in Hy. rewrite Hcb in Hy. cbn in Hy. lia.
Qed.

Lemma sendInstruction_starts t x w :
  socket_connected w = true ->
  fresh_refs w ->
  connectionRefCount w ≠ 0 ->
  (sendInstruction t x w).2 = length (promises w)
  /\ instr_ok (length (promises w)) (next_timer w) (clock w + 30000) t
       (clock w) (sendInstruction t x w).1
  /\ own_timer (length (promises w)) (next_timer w) (clock w + 30000) t
       ∈ timers (sendInstruction t x w).1.
Proof.
  intros Hc [Ht Hl] Hcount. unfold sendInstruction. cbn.
  change (socket_connected (set_promises _ w)) with (socket_connected w).
  rewrite Hc. cbn [negb fst snd]. split; [done |].
  unfold socket_connected in Hc. unfold listeners in Hl.
  destruct (socket w) as [sk|] eqn:Hs; [|done]. cbn in Hl.
  unfold with_socket. cbn. rewrite Hs. cbn.
  assert (Hnone : forall ev cb,
            cb_promise cb = Some (length (promises w)) ->
            filter (fun y => y = (ev, cb)) (sk_listeners sk) = []).
  { intros ev cb Hcb. apply (fresh_not_bound ev cb _ (length (promises w)));
      [|done].
    eapply Forall_impl; [exact Hl |]. by intros l [Hb _]. }
  split; [split; [split_and! | split; [split_and! |]] |]; cbn.
  - rewrite length_app. cbn. lia.
  - done.
  - apply Forall_app. split; [|by repeat constructor].
    eapply Forall_impl; [exact Ht |]. intros tm [Hb _] Hq.
    rewrite Hq in Hb. cbn in Hb. lia.
  - unfold listeners. cbn. rewrite <- app_assoc. apply Forall_app. split.
    + eapply Forall_impl; [exact Hl |]. intros l [Hb1 Hb2]. split.
      * intros Hq. rewrite Hq in Hb1. cbn in Hb1. lia.
      * intros Hq. rewrite Hq in Hb2. cbn in Hb2. lia.
    + repeat constructor; cbn; auto; done.
  - unfold promise. cbn. by rewrite lookup_app_r, Nat.sub_diag.
  - unfold subscriptions. cbn. rewrite <- app_assoc, filter_app, Hnone by done.
    cbn. by repeat case_decide.
  - unfold subscriptions. cbn. rewrite <- app_assoc, filter_app, Hnone by done.
    cbn. by repeat case_decide.
  - done.
  - apply elem_of_app. right. by apply list_elem_of_singleton.
Qed.

(** C5: against a live connection that some owner holds, the promise of
    [sendInstruction(t, x)] follows the rule of [instruction_outcome]
    along every trace of outside events: it resolves, with the server's
    payload, exactly when an [instruction_received] for [t] comes before
    any [instruction_error] for [t] and before 30000 ms have passed; an
    earlier [instruction_error] rejects it with the server's message, and
    the deadline rejects it with the timeout error.  Once it is settled
    neither of its listeners is bound any more, and nothing that happens
    later changes the outcome. *)
Theorem sendInstruction_outcome (t x : string) (s : System)
    (tr tr' : list Action) :
  let p := (sendInstruction t x (world s)).2 in
  let sent :=
    {| world := (sendInstruction t x (world s)).1; owners := owners s |} in
  let s' := run tr sent in
  socket_connected (world s) = true ->
  fresh_refs (world s) ->
  connectionRefCount (world s) ≠ 0 ->
  Forall from_outside tr ->
  promise p (world s')
  = instruction_outcome t (clock (world s) + 30000) (clock (world s)) tr
  /\ (promise p (world s') ≠ Pending ->
      subscriptions "instruction_received" (onReceived p t) (world s') = 0%nat
      /\ subscriptions "instruction_error" (onError p t) (world s') = 0%nat
      /\ promise p (world (run tr' s')) = promise p (world s')).
Proof.
  intros p sent s' Hc Hf Hcount Htr.
  destruct (sendInstruction_starts t x (world s) Hc Hf Hcount)
    as (Hp & H0 & Hin).
  fold p in Hp. rewrite <- Hp in H0, Hin.
  assert (Hclock : clock (world sent) = clock (world s))
    by by destruct H0 as (_ & _ & ?).
  destruct (waiting_follows_rule p (next_timer (world s))
              (clock (world s) + 30000) t tr sent Htr) as [Hrule Hdone].
  - by rewrite Hclock.
  - done.
  - rewrite Hclock in Hrule. split; [exact Hrule |].
    intros Hne. destruct (Hdone Hne) as (_ & Hr & He).
    split; [done |]. split; [done |]. by apply settled_is_final.
Qed.

Lemma sendInstruction_outcome_witness :
  let s := run [UseSocket; Mount 0; Connect; TransportUp] start in
  let ack : gmap string string := {[ "task_id" := "t1" ]} in
  let tr :=
    [Elapse 1000; Recv "agent:thought" ∅; Recv "instruction_received" ack;
     Recv "instruction_error" ack; Elapse 40000] in
  let p := (sendInstruction "t1" "x" (world s)).2 in
  let sent :=
    {| world := (sendInstruction "t1" "x" (world s)).1;
       owners := owners s |} in
  promise p (world sent) = Pending
  /\ promise p (world (run tr sent)) = Resolved ack.
Proof.
  intros s ack tr p sent. split; [by vm_compute |].
  destruct (sendInstruction_outcome "t1" "x" s tr []) as [H _].
  - by vm_compute.
  - split; vm_compute; repeat constructor.
  - by vm_compute.
  - repeat constructor.
  - etransitivity; [exact H |]. by vm_compute.
Defined.

End Instructions.

(** ** The reconnection loop (attemptReconnect) *)

Section Reconnect.
Import UseSocketReconnect.

Lemma try_calls_once a taskId :
  length (filter (fun c => c = call_connect) (try_calls a taskId)) = 1%nat.
Proof. destruct a; cbn; try done; by destruct (Js.truthy taskId). Qed.





(** A first success ends the loop with the counter back at zero. *)
Example reconnect_on_third_pass :
  let r :=
    attemptReconnect
      (fun k => if decide (k = 2%nat) then none_rejected else connect_rejected)
      0 {| reconnectAttempts := 0; isReconnecting := false;
           currentTaskId := "t1" |} in
  tries r = 3%nat
  /\ completion r = returned true
  /\ reconnectAttempts (refs r) = 0
  /\ calls r
     = [wait 2000; call_connect; wait 2000; call_connect;
        wait 2000; call_connect; call_joinTask "t1"].
Proof. by vm_compute. Qed.

End Reconnect.

(** ** Streams of any length, and the view between events *)

Section Streams.
Import CreationCenter.

Lemma append_assoc (a b c : string) : (a +:+ b) +:+ c = a +:+ (b +:+ c).
Proof.
  induction a as [|x a IH]; [done |].
  change (String x ((a +:+ b) +:+ c) = String x (a +:+ (b +:+ c))).
  by rewrite IH.
Qed.

Lemma append_empty_r (a : string) : a +:+ "" = a.
Proof.
  induction a as [|x a IH]; [done |].
  change (String x (a +:+ "") = String x a). by rewrite IH.
Qed.

Lemma deliver_app k evs1 evs2 v :
  deliver k (evs1 ++ evs2) v = deliver k evs2 (deliver k evs1 v).
Proof. apply foldl_app. Qed.

Lemma deliver_cons k e evs v :
  deliver k (e :: evs) v = deliver k evs (handleStream k e.1 e.2 v).
Proof. reflexivity. Qed.

Lemma token_extends k t a v :
  handleStream k t (ev_token a) v
  = match k with
    | thought => set_currentThinking (currentThinking v +:+ a) v
    | response => set_currentResponse (currentResponse v +:+ a) v
    end.
Proof. by destruct k. Qed.

Lemma tokens_extend k toks v :
  messages (deliver k (tokens toks) v) = messages v
  /\ buffer k (deliver k (tokens toks) v) = buffer k v +:+ joined toks.
Proof.
  revert v. induction toks as [|[t a] toks IH]; intros v.
  - cbn. by rewrite append_empty_r.
  - change (tokens ((t, a) :: toks)) with ((t, ev_token a) :: tokens toks).
    rewrite deliver_cons. cbn [fst snd].
    destruct (IH (handleStream k t (ev_token a) v)) as [-> ->].
    rewrite token_extends.
    change (joined ((t, a) :: toks)) with (a +:+ joined toks).
    destruct k; cbn [messages buffer set_currentThinking set_currentResponse
                       currentThinking currentResponse];
      by rewrite append_assoc.
Qed.

(** X1: a whole stream with any number of fragments.  [start] empties
    the thinking buffer but is ignored by the response handler, so a
    thought is assembled from its own fragments alone while a response
    also carries whatever its buffer held; [end] appends that text as one
    message, or nothing when the text is empty, and empties the buffer. *)
Theorem stream_of_fragments (k : StreamKind) (toks : list (string * string))
    (t0 tend : string) (v : View) :
  let carried :=
    match k with
    | thought => ""
    | response => currentResponse v
    end in
  let text := carried +:+ joined toks in
  let v' := deliver k ((t0, ev_start) :: tokens toks ++ [(tend, ev_end)]) v in
  messages v'
  = messages v ++ (if decide (text = "") then []
                   else [finalMessage k tend text])
  /\ buffer k v' = "".
Proof.
  intros carried text v'. subst v'.
  rewrite deliver_cons, deliver_app. cbn [fst snd].
  set (v0 := handleStream k t0 ev_start v).
  destruct (tokens_extend k toks v0) as [Hm Hb].
  assert (H0 : messages v0 = messages v /\ buffer k v0 = carried)
    by (subst v0 carried; by destruct k).
  destruct H0 as [Hm0 Hb0]. rewrite Hm0 in Hm. rewrite Hb0 in Hb.
  fold text in Hb.
  set (v1 := deliver k (tokens toks) v0) in *.
  change (deliver k [(tend, ev_end)] v1) with (handleStream k tend ev_end v1).
  destruct k; cbn [handleStream buffer finalMessage] in *.
  - rewrite end_of_thinking, Hb. unfold Js.truthy.
    destruct (decide (text = "")); cbn; rewrite Hm; [|done].
    by rewrite app_nil_r.
  - rewrite end_of_response, Hb. unfold Js.truthy.
    destruct (decide (text = "")); cbn; rewrite Hm; [|done].
    by rewrite app_nil_r.
Qed.

(** *** The two streams and the progress events do not disturb each other *)

Lemma handleProgress_buffers now d v :
  currentThinking (handleProgress now d v) = currentThinking v
  /\ currentResponse (handleProgress now d v) = currentResponse v.
Proof.
  unfold handleProgress, saveHistoryRecord.
  repeat case_decide; cbn; try done.
  destruct (negb _ || _); done.
Qed.

Lemma toggleThinking_buffers index v :
  currentThinking (toggleThinking index v) = currentThinking v
  /\ currentResponse (toggleThinking index v) = currentResponse v.
Proof. unfold toggleThinking. by repeat case_match. Qed.

Lemma handleThought_response now d v :
  currentResponse (handleThought now d v) = currentResponse v.
Proof.
  unfold handleThought. repeat case_decide; cbn; try done.
  by destruct (_ || _).
Qed.

Lemma handleResponse_thinking now d v :
  currentThinking (handleResponse now d v) = currentThinking v.
Proof.
  unfold handleResponse. repeat case_decide; cbn; try done.
  - by destruct (_ || _).
  - by destruct (Js.truthy_opt _).
Qed.

(** The buffer of a kind after one event of that kind depends on the
    buffer before and on nothing else in the view. *)
Lemma handleStream_buffer k now d v v0 :
  buffer k v = buffer k v0 ->
  buffer k (handleStream k now d v) = buffer k (handleStream k now d v0).
Proof.
  intros H.
  destruct k; cbn in *; unfold handleThought, handleResponse;
    repeat case_decide; cbn; rewrite ?H; try done;
    repeat match goal with
           | |- context [if ?b then _ else _] => destruct b
           end; done.
Qed.

(** X2: whatever else arrives in between (progress events, events of
    the other stream, clicks), the buffer of a stream is what the events
    of that stream alone would have left. *)
Theorem streams_are_independent (k : StreamKind) (xs : list Input)
    (v : View) :
  buffer k (session xs v) = buffer k (deliver k (of_kind k xs) v).
Proof.
  assert (H : forall v v0,
            buffer k v = buffer k v0 ->
            buffer k (session xs v) = buffer k (deliver k (of_kind k xs) v0));
    [|by apply H].
  induction xs as [|x xs IH]; intros v1 v0 Hb; [done |].
  change (session (x :: xs) v1) with (session xs (handle x v1)).
  change (of_kind k (x :: xs))
    with (match x, k with
          | agent_thought now data, thought => [(now, data)]
          | agent_response now data, response => [(now, data)]
          | _, _ => []
          end ++ of_kind k xs).
  rewrite deliver_app.
  apply IH.
  destruct x as [now d|now d|now d|i]; destruct k; cbn [handle deliver foldl];
    first
      [ by apply (handleStream_buffer thought)
      | by apply (handleStream_buffer response)
      | rewrite <- Hb; cbn [buffer] ].
  - apply handleProgress_buffers.
  - apply handleProgress_buffers.
  - apply handleThought_response.
  - apply handleResponse_thinking.
  - apply toggleThinking_buffers.
  - apply toggleThinking_buffers.
Qed.

End Streams.

Section ViewState.
Import CreationCenter.

Lemma progress_cons e evs v :
  progress (e :: evs) v = progress evs (handleProgress e.1 e.2 v).
Proof. reflexivity. Qed.

Lemma handleProgress_keeps_subject now d v :
  topic (handleProgress now d v) = topic v
  /\ generatedPages (handleProgress now d v) = generatedPages v.
Proof.
  unfold handleProgress, saveHistoryRecord.
  repeat case_decide; cbn; try done.
  destruct (negb _ || _); done.
Qed.

Lemma handleProgress_requests now d v :
  historyRequests (handleProgress now d v)
  = if decide (pd_type d = "complete") then
      historyRequests (saveHistoryRecord v)
    else historyRequests v.
Proof.
  unfold handleProgress.
  destruct (decide (pd_type d = "start")) as [Hs|Hs].
  { rewrite decide_False by (rewrite Hs; discriminate). done. }
  destruct (decide (pd_type d = "complete")) as [Hc|Hc].
  { unfold saveHistoryRecord. cbn. by destruct (negb _ || _). }
  repeat case_decide; done.
Qed.

(** X3: the history record is requested once for every [complete]
    event, as long as the view has a topic and outline pages, and never
    otherwise: neither another kind of progress event asks for it, nor a
    [complete] event of a task without topic or pages, and a repeated
    [complete] event asks again. *)
Theorem history_requests_follow_completions
    (evs : list (string * ProgressData)) (v : View) :
  historyRequests (progress evs v)
  = if Js.truthy (topic v) && negb (length (generatedPages v) =? 0)%nat
    then (historyRequests v + completions evs)%nat
    else historyRequests v.
Proof.
  revert v. induction evs as [|[now d] evs IH]; intros v.
  { unfold completions. cbn. destruct (_ && _); lia. }
  rewrite progress_cons, IH. cbn [fst snd].
  destruct (handleProgress_keeps_subject now d v) as [-> ->].
  rewrite handleProgress_requests.
  unfold completions. rewrite filter_cons. cbn [snd].
  unfold saveHistoryRecord.
  destruct (Js.truthy (topic v)), (length (generatedPages v) =? 0)%nat;
    cbn; case_decide; cbn; lia.
Qed.

Lemma or_else_nonempty x d : d ≠ "" -> Js.or_else x d ≠ "".
Proof.
  intros Hd. destruct x as [s|]; cbn; [|done].
  unfold Js.truthy. by case_decide.
Qed.

Lemma handleProgress_error_text now d v :
  (hasError v = true -> errorMessage v ≠ "") ->
  hasError (handleProgress now d v) = true ->
  errorMessage (handleProgress now d v) ≠ "".
Proof.
  unfold handleProgress, saveHistoryRecord.
  repeat case_decide; cbn; try done.
  - by destruct (negb _ || _).
  - intros _ _. by do 2 apply or_else_nonempty.
Qed.

(** X4: a view that starts without an error and shows one after some
    progress events has a non-empty error text (the server's [error],
    else its [message], else the fixed text), and the status card shows
    that text: its own fallback line is never reached this way. *)
Theorem error_text_is_shown (evs : list (string * ProgressData))
    (v : View) :
  hasError v = false ->
  hasError (progress evs v) = true ->
  errorMessage (progress evs v) ≠ ""
  /\ statusMessage (progress evs v) = errorMessage (progress evs v).
Proof.
  intros H0 H1.
  assert (H : errorMessage (progress evs v) ≠ "").
  { assert (Hinv : forall v,
              (hasError v = true -> errorMessage v ≠ "") ->
              hasError (progress evs v) = true ->
              errorMessage (progress evs v) ≠ "").
    { clear. induction evs as [|[now d] evs IH]; intros v Hv; [done |].
      rewrite progress_cons. apply IH. cbn [fst snd].
      by apply handleProgress_error_text. }
    apply Hinv; [|done]. by rewrite H0. }
  split; [done |]. unfold statusMessage. rewrite H1.
  unfold Js.truthy. by case_decide.
Qed.

Lemma error_text_is_shown_witness :
  let v := progress [("09:00:00", pd_of "error" None)] initial in
  errorMessage v ≠ "" /\ statusMessage v = errorMessage v.
Proof.
  apply (error_text_is_shown [("09:00:00", pd_of "error" None)] initial);
    reflexivity.
Defined.

(** *** The message list *)

Lemma handle_keeps_messages x v j m :
  messages v !! j = Some m ->
  exists m', messages (handle x v) !! j = Some m' /\ same_but_expanded m m'.
Proof.
  intros Hj.
  assert (Hsame : forall v', messages v' = messages v \/
                             (exists e, messages v' = messages v ++ [e]) ->
            exists m', messages v' !! j = Some m' /\ same_but_expanded m m').
  { intros v' [->|[e ->]]; exists m; split; try done.
    by apply lookup_app_l_Some. }
  destruct x as [now d|now d|now d|i]; cbn [handle].
  - apply Hsame. unfold handleProgress, saveHistoryRecord.
    repeat case_decide; cbn; eauto.
    destruct (negb _ || _); cbn; eauto.
  - apply Hsame. unfold handleThought.
    repeat case_decide; cbn; eauto.
    destruct (_ || _); cbn; eauto.
  - apply Hsame. unfold handleResponse.
    repeat case_decide; cbn; eauto.
    + destruct (_ || _); cbn; eauto.
    + destruct (Js.truthy_opt _); cbn; eauto.
  - unfold toggleThinking.
    destruct (messages v !! i) as [msg|] eqn:Hi; [|by eauto].
    destruct (Js.truthy_opt (thinking msg)); [|by eauto]. cbn.
    destruct (decide (i = j)) as [->|Hne].
    + rewrite list_lookup_insert_eq by by eapply lookup_lt_Some.
      eexists. split; [done |]. by simplify_eq.
    + rewrite list_lookup_insert_ne by done. by eauto.
Qed.

(** X5: nothing that reaches the view removes, moves or rewrites a
    message that is on display: after any inputs the message is at the
    same position with the same role, content, thinking text, icon and
    time; only whether its thinking block is open can have changed. *)
Theorem displayed_messages_stay (xs : list Input) (v : View) (j : nat)
    (m : Message) :
  messages v !! j = Some m ->
  exists m',
    messages (session xs v) !! j = Some m' /\ same_but_expanded m m'.
Proof.
  revert v m. induction xs as [|x xs IH]; intros v m Hj;
    [exists m; by split |].
  change (session (x :: xs) v) with (session xs (handle x v)).
  destruct (handle_keeps_messages x v j m Hj) as (m1 & H1 & Hs1).
  destruct (IH _ _ H1) as (m2 & H2 & Hs2).
  exists m2. split; [done |]. unfold same_but_expanded in *. congruence.
Qed.

Lemma displayed_messages_stay_witness :
  let v := session [agent_thought "09:00:00" (ev_token "Hm");
                    agent_thought "09:00:01" ev_end] initial in
  let xs := [click_thinking 0;
             agent_progress "09:00:02" (pd_of "start" None)] in
  exists m',
    messages (session xs v) !! 0%nat = Some m'
    /\ same_but_expanded (thoughtMessage "09:00:01" "Hm") m'.
Proof.
  intros v xs.
  apply (displayed_messages_stay xs v 0 (thoughtMessage "09:00:01" "Hm")).
  reflexivity.
Defined.

Lemma handle_flagged x v : flagged v -> flagged (handle x v).
Proof.
  unfold flagged. intros H.
  assert (Hadd : forall e,
            is_Some (thinkingExpanded e) ->
            Forall (fun m => Js.truthy_opt (thinking m) = true
                             -> is_Some (thinkingExpanded m))
              (messages v ++ [e])).
  { intros e He. apply Forall_app. split; [done |]. by repeat constructor. }
  destruct x as [now d|now d|now d|i]; cbn [handle].
  - unfold handleProgress, saveHistoryRecord, addSystemMessage.
    repeat case_decide; cbn; try done;
      try (apply Forall_app; split; [done |]; by repeat constructor).
    destruct (negb _ || _); cbn;
      apply Forall_app; split; try done; by repeat constructor.
  - unfold handleThought. repeat case_decide; cbn; try done.
    destruct (_ || _); cbn; [|done]. by apply Hadd.
  - unfold handleResponse. repeat case_decide; cbn; try done.
    + destruct (_ || _); cbn; [|done]. by apply Hadd.
    + destruct (Js.truthy_opt _); cbn; [|done]. by apply Hadd.
  - unfold toggleThinking.
    destruct (messages v !! i) as [msg|] eqn:Hi; [|done].
    destruct (Js.truthy_opt (thinking msg)); [|done]. cbn.
    apply Forall_insert; [done |]. by eauto.
Qed.

Lemma session_flagged xs v : flagged v -> flagged (session xs v).
Proof.
  revert v. induction xs as [|x xs IH]; intros v H; [done |].
  apply IH, handle_flagged, H.
Qed.

Lemma toggleThinking_twice index v :
  flagged v -> toggleThinking index (toggleThinking index v) = v.
Proof.
  intros Hf. unfold toggleThinking at 2.
  destruct (messages v !! index) as [msg|] eqn:Hi;
    [|unfold toggleThinking; by rewrite Hi].
  destruct (Js.truthy_opt (thinking msg)) eqn:Ht;
    [|unfold toggleThinking; by rewrite Hi, Ht].
  unfold flagged in Hf. rewrite Forall_lookup in Hf.
  destruct (Hf _ _ Hi Ht) as [b Hb].
  unfold toggleThinking. cbn [messages set_messages].
  rewrite list_lookup_insert_eq by by eapply lookup_lt_Some.
  cbn [thinking set_thinkingExpanded]. rewrite Ht.
  rewrite list_insert_insert_eq. cbn [thinkingExpanded set_thinkingExpanded].
  rewrite Hb.
  assert (Hm : set_thinkingExpanded (Some (not_opt (Some (not_opt (Some b)))))
                 (set_thinkingExpanded (Some (not_opt (Some b))) msg) = msg).
  { destruct msg. cbn in *. subst. by destruct b. }
  rewrite Hm, list_insert_id by done. by destruct v.
Qed.

(** X6: in a view built up from the initial one by events and clicks,
    a second click on the same thinking header undoes the first, whatever
    the position clicked; a click on a position past the end or on a
    message without thinking text changes nothing at all. *)
Theorem toggleThinking_undoes_itself (xs : list Input) (index : nat) :
  let v := session xs initial in
  toggleThinking index (toggleThinking index v) = v
  /\ (match messages v !! index with
      | Some m => Js.truthy_opt (thinking m) = false
      | None => True
      end -> toggleThinking index v = v).
Proof.
  intros v. split.
  - apply toggleThinking_twice, session_flagged. constructor.
  - unfold toggleThinking. destruct (messages v !! index); [|done].
    by intros ->.
Qed.

End ViewState.

(** ** The reconnection loop, call by call *)

Section ReconnectProtocol.
Import UseSocketReconnect.

Lemma attemptReconnect_exhausted env k sup :
  MAX_RECONNECT_ATTEMPTS <= reconnectAttempts sup ->
  attemptReconnect env k sup
  = {| refs := {| reconnectAttempts := reconnectAttempts sup;
                  isReconnecting := false;
                  currentTaskId := currentTaskId sup |};
       calls := [];
       completion := returned false |}.
Proof.
  intros H. funelim (attemptReconnect env k sup); try done.
Qed.

Lemma attemptReconnect_retries env k sup :
  reconnectAttempts sup < MAX_RECONNECT_ATTEMPTS ->
  caught (env k) (currentTaskId sup) = true ->
  attemptReconnect env k sup
  = more_calls (try_calls (env k) (currentTaskId sup))
      (attemptReconnect env (S k)
         {| reconnectAttempts := reconnectAttempts sup + 1;
            isReconnecting := true;
            currentTaskId := currentTaskId sup |}).
Proof.
  intros H Hc. funelim (attemptReconnect env k sup); try done; try lia.
  all: congruence.
Qed.

Lemma attemptReconnect_succeeds env k sup :
  reconnectAttempts sup < MAX_RECONNECT_ATTEMPTS ->
  caught (env k) (currentTaskId sup) = false ->
  attemptReconnect env k sup
  = {| refs := {| reconnectAttempts := 0;
                  isReconnecting := false;
                  currentTaskId := currentTaskId sup |};
       calls := try_calls (env k) (currentTaskId sup);
       completion := returned true |}.
Proof.
  intros H Hc. funelim (attemptReconnect env k sup); try done; try lia.
  all: congruence.
Qed.

Lemma budget_positive sup :
  (0 < budget sup)%nat <-> reconnectAttempts sup < MAX_RECONNECT_ATTEMPTS.
Proof. unfold budget, MAX_RECONNECT_ATTEMPTS. lia. Qed.

Lemma budget_retry sup :
  reconnectAttempts sup < MAX_RECONNECT_ATTEMPTS ->
  budget {| reconnectAttempts := reconnectAttempts sup + 1;
            isReconnecting := true;
            currentTaskId := currentTaskId sup |}
  = pred (budget sup).
Proof. unfold budget, MAX_RECONNECT_ATTEMPTS. cbn. lia. Qed.

Lemma passes_cons env taskId k n :
  passes env taskId k (S n)
  = try_calls (env k) taskId ++ passes env taskId (S k) n.
Proof. reflexivity. Qed.

Lemma waited_app cs1 cs2 : waited (cs1 ++ cs2) = waited cs1 + waited cs2.
Proof.
  unfold waited. induction cs1 as [|c cs1 IH]; [done |].
  cbn [app foldr]. rewrite IH. destruct c; lia.
Qed.

Lemma waited_try_calls a taskId : waited (try_calls a taskId) = RECONNECT_DELAY.
Proof. destruct a; cbn; try done; by destruct (Js.truthy taskId). Qed.

Lemma waited_passes env taskId k n :
  waited (passes env taskId k n) = RECONNECT_DELAY * Z.of_nat n.
Proof.
  revert k. induction n as [|n IH]; intros k; [done |].
  rewrite passes_cons, waited_app, waited_try_calls, IH. lia.
Qed.

(** X7: the loop stops at the first pass whose awaited promises all
    resolve, if the counter allows that many passes.  After [n] failed
    passes and a good one it returns true with the counter back at zero,
    and what it called is exactly the passes [k .. k+n], each a wait of
    2000 ms, [connect()] and, for a task that is set and only then,
    [joinTask] after a [connect()] that resolved. *)
Theorem reconnect_stops_at_first_success (env : nat -> Awaited) (n k : nat)
    (sup : Supervisor) :
  (n < budget sup)%nat ->
  (forall j, (j < n)%nat ->
     caught (env (k + j)%nat) (currentTaskId sup) = true) ->
  caught (env (k + n)%nat) (currentTaskId sup) = false ->
  let r := attemptReconnect env k sup in
  completion r = returned true
  /\ calls r = passes env (currentTaskId sup) k (S n)
  /\ tries r = S n
  /\ waited (calls r) = RECONNECT_DELAY * Z.of_nat (S n)
  /\ refs r = {| reconnectAttempts := 0; isReconnecting := false;
                 currentTaskId := currentTaskId sup |}.
Proof.
  intros Hn Hfail Hgood r.
  assert (H : completion r = returned true
              /\ calls r = passes env (currentTaskId sup) k (S n)
              /\ refs r = {| reconnectAttempts := 0; isReconnecting := false;
                             currentTaskId := currentTaskId sup |}).
  { subst r. revert k sup Hn Hfail Hgood.
    induction n as [|n IH]; intros k sup Hn Hfail Hgood.
    - rewrite Nat.add_0_r in Hgood.
      rewrite attemptReconnect_succeeds; [|apply budget_positive; lia | done].
      cbn. unfold passes. cbn. by rewrite app_nil_r.
    - assert (Hlt : reconnectAttempts sup < MAX_RECONNECT_ATTEMPTS)
        by (apply budget_positive; lia).
      rewrite attemptReconnect_retries; [|done |].
      2: { specialize (Hfail 0%nat). rewrite Nat.add_0_r in Hfail.
           apply Hfail. lia. }
      cbn [completion calls refs more_calls].
      edestruct (IH (S k)) as (H1 & H2 & H3).
      + rewrite budget_retry by done. lia.
      + intros j Hj. cbn [currentTaskId].
        replace (S k + j)%nat with (k + S j)%nat by lia. apply Hfail. lia.
      + cbn [currentTaskId].
        by replace (S k + n)%nat with (k + S n)%nat by lia.
      + rewrite H1, H2, H3. cbn [currentTaskId].
        split; [done |]. split; [|done]. by rewrite (passes_cons _ _ k). }
  destruct H as (H1 & H2 & H3).
  split_and!; try done.
  - unfold tries. rewrite H2. clear. revert k.
    induction (S n) as [|m IH]; intros k; [done |].
    rewrite passes_cons, filter_app, length_app, try_calls_once, IH. done.
  - by rewrite H2, waited_passes.
Qed.

Lemma reconnect_stops_at_first_success_witness :
  let env := fun k : nat =>
    if decide (k = 2%nat) then none_rejected else connect_rejected in
  let sup := {| reconnectAttempts := 0; isReconnecting := false;
                currentTaskId := "t1" |} in
  let r := attemptReconnect env 0 sup in
  completion r = returned true
  /\ calls r = passes env (currentTaskId sup) 0 3
  /\ tries r = 3%nat
  /\ waited (calls r) = RECONNECT_DELAY * Z.of_nat 3
  /\ refs r = {| reconnectAttempts := 0; isReconnecting := false;
                 currentTaskId := currentTaskId sup |}.
Proof.
  intros env sup.
  apply (reconnect_stops_at_first_success env 2 0 sup).
  - vm_compute. lia.
  - intros [|[|j]] Hj; [done | done | lia].
  - done.
Defined.

Lemma tries_passes env taskId k n :
  length (filter (fun c => c = call_connect) (passes env taskId k n)) = n.
Proof.
  revert k. induction n as [|m IH]; intros k; [done |].
  by rewrite passes_cons, filter_app, length_app, try_calls_once, IH.
Qed.

Lemma gives_up env k sup :
  (forall j, (j < budget sup)%nat ->
     caught (env (k + j)%nat) (currentTaskId sup) = true) ->
  attemptReconnect env k sup
  = {| refs := {| reconnectAttempts :=
                    Z.max (reconnectAttempts sup) MAX_RECONNECT_ATTEMPTS;
                  isReconnecting := false;
                  currentTaskId := currentTaskId sup |};
       calls := passes env (currentTaskId sup) k (budget sup);
       completion := returned false |}.
Proof.
  remember (budget sup) as b eqn:Hb. revert k sup Hb.
  induction b as [|b IH]; intros k sup Hb Hfail.
  - assert (Hge : MAX_RECONNECT_ATTEMPTS <= reconnectAttempts sup).
    { pose proof (budget_positive sup). lia. }
    rewrite attemptReconnect_exhausted by done.
    by rewrite Z.max_l by done.
  - assert (Hlt : reconnectAttempts sup < MAX_RECONNECT_ATTEMPTS)
      by (apply budget_positive; lia).
    rewrite attemptReconnect_retries; [|done |].
    2: { specialize (Hfail 0%nat). rewrite Nat.add_0_r in Hfail.
         apply Hfail. lia. }
    rewrite (IH (S k)).
    + unfold more_calls.
      cbn [refs calls completion currentTaskId reconnectAttempts].
      rewrite passes_cons.
      f_equal. f_equal. unfold MAX_RECONNECT_ATTEMPTS in *. lia.
    + rewrite budget_retry by done. lia.
    + intros j Hj. cbn [currentTaskId].
      replace (S k + j)%nat with (k + S j)%nat by lia. apply Hfail. lia.
Qed.

(** X8: when every pass the counter allows fails, the loop gives up
    after exactly that many passes (five from a fresh counter, none from
    a counter at five or more): it returns false, has waited 2000 ms
    before each [connect()], leaves [isReconnecting] cleared and the
    counter at five (or where it was, if that was more). *)
Theorem reconnect_gives_up_after_budget (env : nat -> Awaited) (k : nat)
    (sup : Supervisor) :
  (forall j, (j < budget sup)%nat ->
     caught (env (k + j)%nat) (currentTaskId sup) = true) ->
  let r := attemptReconnect env k sup in
  completion r = returned false
  /\ calls r = passes env (currentTaskId sup) k (budget sup)
  /\ tries r = budget sup
  /\ waited (calls r) = RECONNECT_DELAY * Z.of_nat (budget sup)
  /\ isReconnecting (refs r) = false
  /\ reconnectAttempts (refs r)
     = Z.max (reconnectAttempts sup) MAX_RECONNECT_ATTEMPTS.
Proof.
  intros Hfail r. subst r. rewrite gives_up by done. cbn.
  split_and!; try done.
  - unfold tries. cbn. apply tries_passes.
  - apply waited_passes.
Qed.

Lemma reconnect_gives_up_after_budget_witness :
  let r := attemptReconnect (fun _ => join_rejected) 0
             {| reconnectAttempts := 0; isReconnecting := false;
                currentTaskId := "t1" |} in
  completion r = returned false
  /\ tries r = 5%nat
  /\ waited (calls r) = 10000.
Proof.
  intros r.
  destruct (reconnect_gives_up_after_budget (fun _ => join_rejected) 0
              {| reconnectAttempts := 0; isReconnecting := false;
                currentTaskId := "t1" |})
    as (H1 & _ & H3 & H4 & _); [done |].
  split_and!; [exact H1 | exact H3 | exact H4].
Defined.

(** X9: the counter of the loop is the ref that the transport's own
    notifications write.  After [reconnect_attempt] number five (or
    more) a disconnect by the server finds the counter used up: the loop
    returns without one call.  After [reconnect_failed] the counter is at
    zero again, and the same disconnect with a transport that keeps
    failing runs all five passes.  A disconnect for any other reason
    starts nothing. *)
Theorem transport_attempts_count_too (env : nat -> Awaited)
    (attemptNumber : Z) (reason : string) (sup : Supervisor) :
  (MAX_RECONNECT_ATTEMPTS <= attemptNumber ->
   onDisconnect env "io server disconnect"
     (onReconnectAttempt attemptNumber sup)
   = ({| reconnectAttempts := attemptNumber; isReconnecting := false;
         currentTaskId := currentTaskId sup |}, []))
  /\ ((forall j, caught (env j) (currentTaskId sup) = true) ->
      onDisconnect env "io server disconnect" (onReconnectFailed sup)
      = ({| reconnectAttempts := MAX_RECONNECT_ATTEMPTS;
            isReconnecting := false;
            currentTaskId := currentTaskId sup |},
         passes env (currentTaskId sup) 0 5))
  /\ (reason ≠ "io server disconnect" ->
      onDisconnect env reason sup = (sup, [])).
Proof.
  split_and!.
  - intros Hn. unfold onDisconnect. cbn.
    by rewrite attemptReconnect_exhausted.
  - intros Hfail. unfold onDisconnect. cbn.
    rewrite gives_up by (intros; apply Hfail). done.
  - intros Hr. unfold onDisconnect. by rewrite decide_False.
Qed.

End ReconnectProtocol.

(** ** The registry across the whole module *)

Section RegistryInvariant.
Import UseSocket.

Implicit Types (w : World) (i : Instance) (s : System) (cb : Callback).

Lemma spares_refl w : spares_handlers w w.
Proof. by split. Qed.

Lemma spares_trans w1 w2 w3 :
  spares_handlers w1 w2 -> spares_handlers w2 w3 -> spares_handlers w1 w3.
Proof.
  intros [H1 H2] [H3 H4]. split; [congruence |].
  intros event f. specialize (H2 event f). specialize (H4 event f). lia.
Qed.

Lemma spares_registry_ok w w' :
  spares_handlers w w' -> registry_ok w -> registry_ok w'.
Proof.
  intros [Hg Hs] H event f. specialize (H event f). specialize (Hs event f).
  unfold binding in *. rewrite Hg.
  destruct H as [H1 H2]. split; [lia |].
  destruct (globalEventListeners w !! event ≫= _); [done | lia].
Qed.

Lemma sheds_spares w w' :
  globalEventListeners w' = globalEventListeners w ->
  sheds w w' -> spares_handlers w w'.
Proof. intros Hg Hs. split; [done |]. intros event f. apply Hs. Qed.

Lemma with_socket_registry g w :
  globalEventListeners (with_socket g w) = globalEventListeners w.
Proof. unfold with_socket. by case_match. Qed.

Lemma settle_registry p r w :
  globalEventListeners (settle p r w) = globalEventListeners w.
Proof. unfold settle. by repeat case_match. Qed.

Lemma subscriptions_on ev cb ev' cb' w :
  subscriptions ev cb (with_socket (sk_on ev' cb') w)
  = match socket w with
    | Some _ =>
        if decide ((ev', cb') = (ev, cb)) then S (subscriptions ev cb w)
        else subscriptions ev cb w
    | None => 0%nat
    end.
Proof.
  unfold subscriptions, with_socket.
  destruct (socket w) as [sk|] eqn:Hs; cbn; [|by rewrite Hs].
  apply count_snoc.
Qed.

Lemma spares_sk_on ev cb w :
  (forall f, cb ≠ handler f) ->
  spares_handlers w (with_socket (sk_on ev cb) w).
Proof.
  intros Hcb. split; [apply with_socket_registry |].
  intros event f. rewrite subscriptions_on.
  unfold subscriptions. destruct (socket w); [|done].
  rewrite decide_False; [done |]. intros [= _ ->]. by eapply Hcb.
Qed.

Lemma spares_same_listeners w w' :
  globalEventListeners w' = globalEventListeners w ->
  listeners w' = listeners w ->
  spares_handlers w w'.
Proof.
  intros Hg Hl. split; [done |]. intros event f.
  by rewrite !subscriptions_listeners, Hl.
Qed.

Lemma spares_sk_emit ev d w : spares_handlers w (with_socket (sk_emit ev d) w).
Proof.
  apply spares_same_listeners; [apply with_socket_registry |].
  rewrite listeners_with_socket. unfold listeners. by destruct (socket w).
Qed.

Lemma spares_setTimeout tk d w : spares_handlers w (setTimeout tk d w).1.
Proof. by apply spares_same_listeners. Qed.

Lemma spares_new_promise w : spares_handlers w (new_promise w).1.
Proof. by apply spares_same_listeners. Qed.

Lemma spares_settle p r w : spares_handlers w (settle p r w).
Proof.
  apply sheds_spares; [apply settle_registry | apply sheds_settle].
Qed.

Lemma spares_set_count c w : spares_handlers w (set_connectionRefCount c w).
Proof. by apply spares_same_listeners. Qed.

Lemma deliver_registry ev d w :
  globalEventListeners (deliver ev d w) = globalEventListeners w.
Proof.
  unfold deliver. destruct (socket w) as [sk|]; [|done].
  apply (foldl_preserves
           (fun x => globalEventListeners x = globalEventListeners w));
    [|done].
  intros x l _ <-. destruct l as [e cb]. cbn [snd].
  destruct cb; cbn [run_callback]; repeat case_decide;
    unfold drop_instruction_listeners;
    rewrite ?settle_registry, ?with_socket_registry; done.
Qed.

Lemma disconnect_registry w :
  globalEventListeners (disconnect w) = globalEventListeners w.
Proof. unfold disconnect. by case_match. Qed.

Lemma fire_registry tk w :
  globalEventListeners (fire tk w) = globalEventListeners w.
Proof.
  destruct tk; cbn [fire]; repeat case_match;
    unfold drop_instruction_listeners;
    rewrite ?settle_registry, ?with_socket_registry, ?disconnect_registry;
    done.
Qed.

Lemma elapse_registry dt w :
  globalEventListeners (elapse dt w) = globalEventListeners w.
Proof.
  unfold elapse. cbn.
  match goal with
  | |- globalEventListeners (foldl ?g ?x ?l) = _ =>
      change (globalEventListeners w) with (globalEventListeners x);
      apply (foldl_preserves
               (fun y => globalEventListeners y = globalEventListeners x));
      [|done]
  end.
  intros y tm _ <-. apply fire_registry.
Qed.

Lemma spares_deliver ev d w : spares_handlers w (deliver ev d w).
Proof. apply sheds_spares; [apply deliver_registry | apply sheds_deliver]. Qed.

Lemma spares_elapse dt w : spares_handlers w (elapse dt w).
Proof. apply sheds_spares; [apply elapse_registry | apply sheds_elapse]. Qed.

Lemma spares_disconnect w : spares_handlers w (disconnect w).
Proof.
  apply sheds_spares; [apply disconnect_registry | apply sheds_disconnect].
Qed.

Lemma spares_sk_set_connected b w :
  spares_handlers w (with_socket (sk_set_connected b) w).
Proof.
  apply sheds_spares; [apply with_socket_registry |].
  apply sheds_sk_set_connected.
Qed.

Ltac spares_step lem := eapply spares_trans; [|apply lem].
Ltac spares_bind :=
  eapply spares_trans; [|apply spares_sk_on; intros ?; discriminate].

Lemma spares_joinTask t w : spares_handlers w (joinTask t w).1.
Proof.
  unfold joinTask.
  destruct (new_promise w) as [w1 p] eqn:Hn.
  assert (H1 : spares_handlers w w1)
    by (change w1 with (w1, p).1; rewrite <- Hn; apply spares_new_promise).
  eapply spares_trans; [exact H1 |].
  case_match; cbn [fst]; [apply spares_settle |].
  spares_step spares_setTimeout. spares_bind. apply spares_sk_emit.
Qed.

Lemma spares_confirmRoom t w : spares_handlers w (confirmRoom t w).1.
Proof.
  unfold confirmRoom.
  destruct (new_promise w) as [w1 p] eqn:Hn.
  assert (H1 : spares_handlers w w1)
    by (change w1 with (w1, p).1; rewrite <- Hn; apply spares_new_promise).
  eapply spares_trans; [exact H1 |].
  case_match; cbn [fst]; [apply spares_settle |].
  spares_step spares_setTimeout. spares_bind. apply spares_sk_emit.
Qed.

Lemma spares_sendInstruction t x w :
  spares_handlers w (sendInstruction t x w).1.
Proof.
  unfold sendInstruction.
  destruct (new_promise w) as [w1 p] eqn:Hn.
  assert (H1 : spares_handlers w w1)
    by (change w1 with (w1, p).1; rewrite <- Hn; apply spares_new_promise).
  eapply spares_trans; [exact H1 |].
  case_match; cbn [fst]; [apply spares_settle |].
  spares_step spares_setTimeout. spares_bind. spares_bind.
  apply spares_sk_emit.
Qed.

Lemma spares_leaveTask t w : spares_handlers w (leaveTask t w).
Proof.
  unfold leaveTask. case_match; [apply spares_sk_emit | apply spares_refl].
Qed.

Lemma spares_fresh_socket w : spares_handlers w (set_socket (Some io) w).
Proof. split; [done |]. intros event f. unfold subscriptions. cbn. lia. Qed.

Lemma spares_connect w : spares_handlers w (connect w).1.
Proof.
  unfold connect.
  destruct (new_promise w) as [w1 p] eqn:Hn.
  assert (H1 : spares_handlers w w1)
    by (change w1 with (w1, p).1; rewrite <- Hn; apply spares_new_promise).
  eapply spares_trans; [exact H1 |].
  case_match; cbn [fst]; [apply spares_settle |].
  unfold setTimeout. cbn [fst].
  spares_bind. spares_bind. spares_bind.
  spares_step (spares_setTimeout (connectTimeout p) CONNECTION_TIMEOUT).
  apply spares_fresh_socket.
Qed.

Lemma on_subscriptions_other event cb event' cb' w i :
  (event', cb') ≠ (event, cb) ->
  subscriptions event cb (on event' cb' (w, i)).1 = subscriptions event cb w.
Proof.
  intros Hne. unfold on.
  destruct (socket w) as [sk|] eqn:Hs; [|done].
  destruct (default ∅ _ !! cb'); cbn [fst]; [done |].
  rewrite subscriptions_on. cbn [socket set_globalEventListeners].
  rewrite Hs. by rewrite decide_False.
Qed.

Lemma off_subscriptions_other event cb event' cb' w i :
  (event', cb') ≠ (event, cb) ->
  subscriptions event cb (off event' (Some cb') (w, i)).1
  = subscriptions event cb w.
Proof.
  intros Hne. unfold off.
  destruct (socket w) as [sk|] eqn:Hs; [|done]. cbn [fst].
  destruct (globalEventListeners w !! event') as [m|]; [|done].
  destruct (m !! cb') as [c|]; [|done].
  case_decide; [done |].
  rewrite subscriptions_off. by rewrite decide_False.
Qed.

Lemma registry_ok_on event cb w i :
  registry_ok w -> registry_ok (on event cb (w, i)).1.
Proof.
  intros H e f. specialize (H e f).
  destruct (socket w) as [sk|] eqn:Hs;
    [|by rewrite on_without_socket].
  destruct (decide ((event, cb) = (e, handler f))) as [Heq|Hne].
  - injection Heq as -> ->.
    rewrite (on_binding _ _ _ _ _ Hs), (on_subscriptions _ _ _ _ _ Hs).
    destruct (binding e (handler f) w); [split; lia |].
    destruct H as [_ ->]. split; lia.
  - by rewrite on_binding_other, on_subscriptions_other.
Qed.

Lemma off_without_socket event c w i :
  socket w = None -> off event c (w, i) = (w, i).
Proof. intros Hs. unfold off. by rewrite Hs. Qed.

Lemma registry_ok_off event cb w i :
  registry_ok w -> registry_ok (off event (Some cb) (w, i)).1.
Proof.
  intros H e f. specialize (H e f).
  destruct (socket w) as [sk|] eqn:Hs;
    [|by rewrite off_without_socket].
  destruct (decide ((event, cb) = (e, handler f))) as [Heq|Hne].
  - injection Heq as -> ->.
    rewrite (off_binding _ _ _ _ _ Hs), (off_subscriptions _ _ _ _ _ Hs).
    destruct (binding e (handler f) w) as [c|]; [|done].
    case_decide; [split; lia |]. split; lia.
  - by rewrite off_binding_other, off_subscriptions_other.
Qed.

Lemma count_off_all (ev' : string) (y : string * Callback)
    (l : list (string * Callback)) :
  length (filter (fun z => z = y) (filter (fun x => x.1 ≠ ev') l))
  = if decide (y.1 = ev') then 0%nat
    else length (filter (fun z => z = y) l).
Proof.
  induction l as [|z l IH]; [by case_decide |].
  rewrite !filter_cons.
  destruct (decide (z.1 ≠ ev')) as [Hz|Hz].
  - rewrite filter_cons.
    destruct (decide (z = y)) as [->|]; cbn; rewrite IH; by case_decide.
  - rewrite IH. apply dec_stable in Hz.
    destruct (decide (z = y)) as [->|]; [|reflexivity].
    by rewrite !decide_True.
Qed.

(** [off(event)] with no function. *)
Lemma off_all_world event w i sk :
  socket w = Some sk ->
  (off event None (w, i)).1
  = set_globalEventListeners (delete event (globalEventListeners w))
      (set_socket (Some (sk_off_all event sk)) w).
Proof. intros Hs. unfold off, with_socket. by rewrite Hs. Qed.

Lemma off_all_binding event event' cb w i :
  is_Some (socket w) ->
  binding event cb (off event' None (w, i)).1
  = if decide (event = event') then None else binding event cb w.
Proof.
  intros [sk Hs]. rewrite (off_all_world _ _ _ _ Hs).
  unfold binding. cbn. case_decide as He.
  - subst. by rewrite lookup_delete_eq.
  - by rewrite lookup_delete_ne.
Qed.

Lemma off_all_subscriptions event event' cb w i :
  is_Some (socket w) ->
  subscriptions event cb (off event' None (w, i)).1
  = if decide (event = event') then 0%nat else subscriptions event cb w.
Proof.
  intros [sk Hs]. rewrite (off_all_world _ _ _ _ Hs).
  unfold subscriptions. cbn. rewrite Hs.
  apply (count_off_all event' (event, cb)).
Qed.

Lemma registry_ok_off_all event w i :
  registry_ok w -> registry_ok (off event None (w, i)).1.
Proof.
  intros H e f. specialize (H e f).
  destruct (socket w) as [sk|] eqn:Hs;
    [|by rewrite off_without_socket].
  rewrite off_all_binding, off_all_subscriptions by by rewrite Hs.
  case_decide; [split; [lia | done] | done].
Qed.

Lemma registry_ok_cleanup w i :
  registry_ok w -> registry_ok (cleanupComponentListeners (w, i)).1.
Proof.
  intros H. unfold cleanupComponentListeners. cbn [snd].
  rewrite cleanup_is_one_pass.
  match goal with
  | |- registry_ok (let (_, _) := ?x in _).1 =>
      assert (Hx : registry_ok x.1); [|by destruct x]
  end.
  apply (foldl_preserves (fun x => registry_ok x.1)); [|done].
  intros [w' i'] [e cb] _ Hx. by apply registry_ok_off.
Qed.

Lemma registry_ok_onUnmounted w i :
  registry_ok w -> registry_ok (onUnmounted (w, i)).1.
Proof.
  intros H. unfold onUnmounted. case_match; [|done].
  match goal with
  | |- context [cleanupComponentListeners (?x, ?y)] =>
      pose proof (registry_ok_cleanup x y) as Hc;
      destruct (cleanupComponentListeners (x, y)) as [w' i']
  end.
  cbn [fst] in Hc.
  assert (Hw' : registry_ok w').
  { apply Hc. eapply spares_registry_ok; [apply spares_set_count | done]. }
  case_decide; [|done]. cbn [fst].
  eapply spares_registry_ok; [apply spares_setTimeout | done].
Qed.

Lemma registry_ok_step a s :
  registry_ok (world s) -> registry_ok (world (step a s)).
Proof.
  intros H.
  assert (Hown : forall o g,
            (forall w i, registry_ok w -> registry_ok (g (w, i)).1) ->
            registry_ok (world (as_owner o g s))).
  { intros o g Hg. destruct (owners s !! o) as [i|] eqn:Ho;
      [|by rewrite as_owner_nobody].
    rewrite (as_owner_world _ _ _ _ Ho). by apply Hg. }
  assert (Hsp : forall g,
            (forall w, spares_handlers w (g w)) ->
            registry_ok (world (in_world g s))).
  { intros g Hg. cbn. eapply spares_registry_ok; [apply Hg | done]. }
  destruct a; cbn [step]; try done.
  - apply Hown. intros w i Hw. cbn.
    eapply spares_registry_ok; [apply spares_set_count | done].
  - apply Hown. intros w i. apply registry_ok_onUnmounted.
  - apply Hown. intros w i. apply registry_ok_on.
  - apply Hown. intros w i. destruct f; cbn.
    + apply registry_ok_off.
    + apply registry_ok_off_all.
  - apply Hown. intros w i. apply registry_ok_cleanup.
  - apply Hsp. apply spares_connect.
  - apply Hsp. apply spares_disconnect.
  - apply Hsp. intros w. apply spares_joinTask.
  - apply Hsp. apply spares_leaveTask.
  - apply Hsp. intros w. apply spares_confirmRoom.
  - apply Hsp. intros w. apply spares_sendInstruction.
  - apply Hsp. intros w. apply spares_sk_emit.
  - apply Hsp. intros w.
    eapply spares_trans; [apply spares_sk_set_connected | apply spares_deliver].
  - apply Hsp. intros w.
    eapply spares_trans; [apply spares_sk_set_connected | apply spares_deliver].
  - apply Hsp. intros w. apply spares_deliver.
  - case_match; [done |]. apply Hsp. intros w. apply spares_deliver.
  - apply Hsp. apply spares_elapse.
Qed.

Lemma registry_ok_loaded : registry_ok loaded.
Proof.
  intros event f. unfold binding, subscriptions. cbn.
  rewrite lookup_empty. cbn. split; [lia | done].
Qed.

(** X10: whatever the UI, the transport, the server and the clock do
    from the moment the module is loaded, the socket never holds the same
    (event, function) pair of a caller twice, a pair that is bound on the
    socket is in the registry, and every count the registry stores is at
    least one. *)
Theorem registry_stays_consistent (tr : list Action) (event : string)
    (f : nat) :
  let w := world (run tr start) in
  (subscriptions event (handler f) w <= 1)%nat
  /\ (binding event (handler f) w = None ->
      subscriptions event (handler f) w = 0%nat)
  /\ (forall c, binding event (handler f) w = Some c -> 1 <= c).
Proof.
  intros w.
  assert (H : registry_ok w).
  { subst w. generalize start (registry_ok_loaded : registry_ok (world start)).
    induction tr as [|a tr IH]; intros s Hs; [done |].
    rewrite run_cons. by apply IH, registry_ok_step. }
  destruct (H event f) as [H1 H2]. split; [done |].
  destruct (binding event (handler f) w) as [c|]; split; try done.
  by intros ? [= <-].
Qed.

Lemma cl_get_filter ev event (m : list (string * list Callback)) :
  cl_get ev (filter (fun x => x.1 ≠ event) m)
  = if decide (ev = event) then None else cl_get ev m.
Proof.
  induction m as [|[e x] m IH]; [by case_decide |].
  rewrite filter_cons. cbn [fst].
  destruct (decide (e ≠ event)) as [He|He]; cbn [cl_get].
  - destruct (decide (e = ev)) as [->|]; [by rewrite decide_False | done].
  - apply dec_stable in He. subst e. rewrite IH.
    destruct (decide (ev = event)) as [->|Hne]; [done |].
    by rewrite decide_False.
Qed.

(** X11: [off(event)] without a function removes the event as a whole:
    no listener of the event is left on the socket, whoever bound it
    (another owner, or [joinTask] and its like for their own events), no
    count is left in the registry and the caller tracks nothing for it;
    every other event is left as it was. *)
Theorem off_event_removes_every_listener (event : string) (w : World)
    (i : Instance) :
  is_Some (socket w) ->
  let w' := (off event None (w, i)).1 in
  let i' := (off event None (w, i)).2 in
  (forall cb,
     binding event cb w' = None /\ subscriptions event cb w' = 0%nat)
  /\ cl_get event (componentListeners i') = None
  /\ (forall other cb,
        other ≠ event ->
        binding other cb w' = binding other cb w
        /\ subscriptions other cb w' = subscriptions other cb w
        /\ cl_get other (componentListeners i')
           = cl_get other (componentListeners i)).
Proof.
  intros Hs w' i'.
  assert (Hi : componentListeners i'
               = filter (fun x => x.1 ≠ event) (componentListeners i)).
  { subst i'. destruct Hs as [sk Hs]. unfold off. by rewrite Hs. }
  split_and!.
  - intros cb. subst w'.
    rewrite off_all_binding, off_all_subscriptions by done.
    by rewrite !decide_True.
  - rewrite Hi, cl_get_filter. by rewrite decide_True.
  - intros other cb Hne. subst w'.
    rewrite off_all_binding, off_all_subscriptions by done.
    rewrite Hi, cl_get_filter. by rewrite !decide_False.
Qed.

Lemma off_event_removes_every_listener_witness :
  let w0 := deliver "connect" ∅ (with_socket (sk_set_connected true)
                                   (connect loaded).1) in
  let w1 := (joinTask "t1" w0).1 in
  subscriptions "joined" (onJoined 1 "t1") w1 = 1%nat
  /\ subscriptions "joined" (onJoined 1 "t1")
       (off "joined" None (w1, fresh_instance)).1 = 0%nat.
Proof.
  intros w0 w1. split; [by vm_compute |].
  destruct (off_event_removes_every_listener "joined" w1 fresh_instance)
    as [H _]; [vm_compute; eauto |].
  apply H.
Defined.

Lemma connect_fresh_socket w :
  socket_connected w = false -> is_Some (socket (connect w).1).
Proof.
  intros Hc. unfold connect. cbn.
  change (socket_connected (set_promises _ w)) with (socket_connected w).
  rewrite Hc. cbn. eauto.
Qed.

(** X12: [disconnect()] leaves the registry as it is.  A pair that was
    registered before is therefore still counted after [disconnect()] and
    a new [connect()], but the new socket does not hold it, and
    registering it again only counts it up: the function is not bound on
    the new socket. *)
Theorem reconnect_does_not_rebind (event : string) (f : nat) (c : Z)
    (w : World) (i : Instance) :
  binding event (handler f) w = Some c ->
  let w1 := (connect (disconnect w)).1 in
  let w2 := (on event (handler f) (w1, i)).1 in
  is_Some (socket w1)
  /\ binding event (handler f) w1 = Some c
  /\ subscriptions event (handler f) w1 = 0%nat
  /\ binding event (handler f) w2 = Some (c + 1)
  /\ subscriptions event (handler f) w2 = 0%nat.
Proof.
  intros Hb w1 w2.
  assert (Hd : socket (disconnect w) = None)
    by (unfold disconnect; by destruct (socket w) eqn:Hs).
  assert (Hs1 : is_Some (socket w1)).
  { apply connect_fresh_socket. unfold socket_connected. by rewrite Hd. }
  destruct (spares_trans _ _ _ (spares_disconnect w)
              (spares_connect (disconnect w))) as [Hg Hsub].
  fold w1 in Hg, Hsub.
  assert (Hb1 : binding event (handler f) w1 = Some c)
    by (unfold binding in *; by rewrite Hg).
  assert (Hn1 : subscriptions event (handler f) w1 = 0%nat).
  { pose proof (spares_connect (disconnect w)) as [_ H].
    specialize (H event f). fold w1 in H.
    unfold subscriptions in H at 2. rewrite Hd in H. lia. }
  destruct Hs1 as [sk Hsk].
  split_and!; try done.
  - subst w2. by rewrite (on_binding _ _ _ _ _ Hsk), Hb1.
  - subst w2. by rewrite (on_subscriptions _ _ _ _ _ Hsk), Hb1.
Qed.

Lemma reconnect_does_not_rebind_witness :
  let s := run [UseSocket; Connect; TransportUp; On 0 "agent:thought" 1]
             start in
  let w1 := (connect (disconnect (world s))).1 in
  subscriptions "agent:thought" (handler 1) (world s) = 1%nat
  /\ subscriptions "agent:thought" (handler 1)
       (on "agent:thought" (handler 1) (w1, fresh_instance)).1 = 0%nat.
Proof.
  intros s w1. split; [by vm_compute |].
  destruct (reconnect_does_not_rebind "agent:thought" 1 1 (world s)
              fresh_instance) as (_ & _ & _ & _ & H); [by vm_compute |].
  exact H.
Defined.

Lemma pass_subscriptions_other event cb ps (wi : World * Instance) :
  (event, cb) ∉ ps ->
  subscriptions event cb
    (foldl (fun acc p => off p.1 (Some p.2) acc) wi ps).1
  = subscriptions event cb wi.1.
Proof.
  revert wi. induction ps as [|[e c] ps IH]; intros [w i] H; [done |].
  apply not_elem_of_cons in H as [Hne H]. cbn. rewrite IH by done.
  apply off_subscriptions_other. congruence.
Qed.

Lemma pass_subscriptions_once event cb ps (wi : World * Instance) :
  NoDup ps -> (event, cb) ∈ ps ->
  is_Some (socket wi.1) ->
  subscriptions event cb
    (foldl (fun acc p => off p.1 (Some p.2) acc) wi ps).1
  = match binding event cb wi.1 with
    | Some c =>
        if decide (1 < c) then subscriptions event cb wi.1
        else pred (subscriptions event cb wi.1)
    | None => subscriptions event cb wi.1
    end.
Proof.
  intros Hnd Hin Hs.
  apply list_elem_of_split in Hin as (l1 & l2 & ->).
  apply NoDup_app in Hnd as (_ & H1 & [H2 _]%NoDup_cons).
  rewrite foldl_app. cbn [foldl fst snd].
  rewrite pass_subscriptions_other by done.
  assert (Hl1 : (event, cb) ∉ l1).
  { intros Hin. by apply (H1 _ Hin), elem_of_cons; left. }
  pose proof (pass_keeps_socket l1 wi Hs) as Hs1.
  pose proof (pass_binding_other event cb l1 wi Hl1) as Hb1.
  pose proof (pass_subscriptions_other event cb l1 wi Hl1) as Hn1.
  destruct (foldl _ wi l1) as [w1 i1]. cbn [fst snd] in *.
  destruct Hs1 as [sk Hsk].
  by rewrite (off_subscriptions _ _ _ _ _ Hsk), Hb1, Hn1.
Qed.

Lemma cleanup_world w i :
  (cleanupComponentListeners (w, i)).1
  = (foldl (fun acc p => off p.1 (Some p.2) acc) (w, i)
       (tracked_pairs (componentListeners i))).1.
Proof.
  unfold cleanupComponentListeners. rewrite cleanup_is_one_pass. cbn [snd].
  by destruct (foldl _ _ _).
Qed.

Lemma cleanup_forgets w i :
  componentListeners (cleanupComponentListeners (w, i)).2 = [].
Proof. unfold cleanupComponentListeners. by destruct (foldl _ _ _). Qed.

(** X13: what an owner's cleanup does to the registry, pair by pair.  A
    pair the owner tracks is released once: its count goes down by one,
    and with the last reference the count and the subscription go.  A
    pair the owner does not track keeps its count and its subscription.
    Afterwards the owner tracks nothing. *)
Theorem cleanup_releases_what_is_tracked (event : string) (cb : Callback)
    (w : World) (i : Instance) :
  well_tracked (componentListeners i) ->
  is_Some (socket w) ->
  let w' := (cleanupComponentListeners (w, i)).1 in
  let i' := (cleanupComponentListeners (w, i)).2 in
  componentListeners i' = []
  /\ if decide ((event, cb) ∈ tracked_pairs (componentListeners i)) then
       match binding event cb w with
       | Some c =>
           if decide (1 < c) then
             binding event cb w' = Some (c - 1)
             /\ subscriptions event cb w' = subscriptions event cb w
           else
             binding event cb w' = None
             /\ subscriptions event cb w' = pred (subscriptions event cb w)
       | None =>
           binding event cb w' = None
           /\ subscriptions event cb w' = subscriptions event cb w
       end
     else
       binding event cb w' = binding event cb w
       /\ subscriptions event cb w' = subscriptions event cb w.
Proof.
  intros Hwt Hs w' i'. split; [apply cleanup_forgets |].
  subst w'. rewrite cleanup_world.
  case_decide as Hin.
  - rewrite pass_binding_once, pass_subscriptions_once;
      try done; try by apply well_tracked_NoDup.
    cbn [fst]. destruct (binding event cb w) as [c|]; [|done].
    by case_decide.
  - by rewrite pass_binding_other, pass_subscriptions_other.
Qed.

Lemma cleanup_releases_what_is_tracked_witness :
  let s := run [UseSocket; UseSocket; Connect; TransportUp;
                On 0 "agent:thought" 1; On 1 "agent:thought" 1] start in
  let i := {| componentMounted := false;
              componentListeners := [("agent:thought", [handler 1])] |} in
  let w' := (cleanupComponentListeners (world s, i)).1 in
  let i' := (cleanupComponentListeners (world s, i)).2 in
  componentListeners i' = []
  /\ if decide (("agent:thought", handler 1)
                ∈ tracked_pairs (componentListeners i)) then
       match binding "agent:thought" (handler 1) (world s) with
       | Some c =>
           if decide (1 < c) then
             binding "agent:thought" (handler 1) w' = Some (c - 1)
             /\ subscriptions "agent:thought" (handler 1) w'
                = subscriptions "agent:thought" (handler 1) (world s)
           else
             binding "agent:thought" (handler 1) w' = None
             /\ subscriptions "agent:thought" (handler 1) w'
                = pred (subscriptions "agent:thought" (handler 1) (world s))
       | None =>
           binding "agent:thought" (handler 1) w' = None
           /\ subscriptions "agent:thought" (handler 1) w'
              = subscriptions "agent:thought" (handler 1) (world s)
       end
     else
       binding "agent:thought" (handler 1) w'
       = binding "agent:thought" (handler 1) (world s)
       /\ subscriptions "agent:thought" (handler 1) w'
          = subscriptions "agent:thought" (handler 1) (world s).
Proof.
  intros s i.
  apply (cleanup_releases_what_is_tracked "agent:thought" (handler 1)
           (world s) i).
  - split; cbn; [apply NoDup_singleton |].
    constructor; [apply NoDup_singleton | constructor].
  - vm_compute. eauto.
Defined.

(** X14: without a socket every [off] returns at once, so a cleanup
    made after [disconnect()] releases nothing: the shared state is what
    it was, counts included, while the owner's record of what it
    registered is emptied all the same, and a later cleanup has nothing
    left to release. *)
Theorem cleanup_without_socket_releases_nothing (w w2 : World)
    (i : Instance) :
  socket w = None ->
  cleanupComponentListeners (w, i) = (w, set_componentListeners [] i)
  /\ cleanupComponentListeners (w2, set_componentListeners [] i)
     = (w2, set_componentListeners [] i).
Proof.
  intros Hs. split; [|done].
  unfold cleanupComponentListeners. rewrite cleanup_is_one_pass. cbn [snd].
  assert (H : foldl (fun acc p => off p.1 (Some p.2) acc) (w, i)
                (tracked_pairs (componentListeners i)) = (w, i)).
  { apply (foldl_preserves (fun x => x = (w, i))); [|done].
    intros x p _ ->. by apply off_without_socket. }
  by rewrite H.
Qed.

Lemma cleanup_without_socket_releases_nothing_witness :
  let s := run [UseSocket; Connect; TransportUp; On 0 "agent:thought" 1;
                Disconnect] start in
  let i := {| componentMounted := false;
              componentListeners := [("agent:thought", [handler 1])] |} in
  cleanupComponentListeners (world s, i)
  = (world s, set_componentListeners [] i)
  /\ cleanupComponentListeners (world s, set_componentListeners [] i)
     = (world s, set_componentListeners [] i).
Proof.
  intros s i.
  apply (cleanup_without_socket_releases_nothing (world s) (world s) i).
  by vm_compute.
Defined.

(** X15: unmounting is guarded by the owner's own flag: a second
    [onUnmounted] of the same owner changes nothing, so the shared count
    goes down once per owner however often the hook runs, and an owner
    that was never mounted does not touch the count. *)
Theorem unmount_counts_once (w : World) (i : Instance) :
  onUnmounted (onUnmounted (w, i)) = onUnmounted (w, i)
  /\ (componentMounted i = false -> onUnmounted (w, i) = (w, i))
  /\ connectionRefCount (onUnmounted (onUnmounted (w, i))).1
     = connectionRefCount w - b2z (componentMounted i).
Proof.
  destruct (onUnmounted_count w i) as [Hc Hm].
  assert (H : onUnmounted (onUnmounted (w, i)) = onUnmounted (w, i)).
  { destruct (onUnmounted (w, i)) as [w' i'] eqn:Hu. cbn in Hm.
    unfold onUnmounted at 1. by rewrite Hm. }
  split_and!.
  - done.
  - intros Hf. unfold onUnmounted. by rewrite Hf.
  - rewrite H, Hc. by destruct (componentMounted i).
Qed.

End RegistryInvariant.

(** ** The end of the grace window *)

Section Teardown.
Import UseSocket.

Implicit Types (w : World) (i : Instance) (s : System) (cb : Callback).

Lemma off_time event c w i :
  timers (off event c (w, i)).1 = timers w
  /\ clock (off event c (w, i)).1 = clock w.
Proof.
  unfold off, with_socket. destruct (socket w) as [sk|] eqn:Hs; [|done].
  destruct c as [cb|]; cbn; [|done].
  repeat case_match; cbn; rewrite ?Hs; done.
Qed.

Lemma cleanup_time w i :
  timers (cleanupComponentListeners (w, i)).1 = timers w
  /\ clock (cleanupComponentListeners (w, i)).1 = clock w.
Proof.
  rewrite cleanup_world.
  apply (foldl_preserves
           (fun x => timers x.1 = timers w /\ clock x.1 = clock w)); [|done].
  intros [w' i'] p _ [<- <-]. apply off_time.
Qed.

(** The last owner leaving sets the teardown timer, five seconds ahead. *)
Lemma onUnmounted_sets_teardown w i :
  componentMounted i = true ->
  connectionRefCount w = 1 ->
  let w1 := (onUnmounted (w, i)).1 in
  connectionRefCount w1 = 0
  /\ clock w1 = clock w
  /\ timers w1
     = timers w ++ [{| timer_id := next_timer w1 - 1;
                       due := clock w + 5000; task := graceTeardown |}].
Proof.
  intros Hm Hc w1. subst w1. unfold onUnmounted. rewrite Hm.
  match goal with
  | |- context [cleanupComponentListeners (?w0, ?i0)] =>
      pose proof (cleanup_keeps w0 i0) as [Hk _];
      pose proof (cleanup_time w0 i0) as [Ht Hcl];
      destruct (cleanupComponentListeners (w0, i0)) as [w' i']
  end.
  cbn in Hk, Ht, Hcl. rewrite decide_True by lia. cbn.
  rewrite Ht, Hcl. split_and!; [lia | done |].
  do 3 f_equal. lia.
Qed.

Lemma fire_without_socket tk w :
  socket w = None -> socket (fire tk w) = None.
Proof.
  intros Hs.
  assert (Hws : forall g w', socket w' = None ->
                             socket (with_socket g w') = None)
    by (intros g w' H; unfold with_socket; by rewrite H).
  destruct tk; cbn [fire]; repeat case_match; try done;
    unfold drop_instruction_listeners;
    repeat match goal with
           | |- socket (settle ?q ?r ?x) = _ =>
               destruct (settle_fields q r x) as (_ & _ & _ & -> & _)
           end;
    auto.
Qed.

Lemma fires_without_socket (l : list Timer) w :
  socket w = None ->
  socket (foldl (fun acc tm => fire (task tm) acc) w l) = None.
Proof.
  intros Hs. apply (foldl_preserves (fun x => socket x = None)); [|done].
  intros x tm _ Hx. by apply fire_without_socket.
Qed.

(** Among timers that run while nobody holds the connection, a teardown
    leaves no socket behind. *)
Lemma fires_teardown (l : list Timer) w :
  connectionRefCount w = 0 ->
  Exists (fun tm => task tm = graceTeardown) l ->
  socket (foldl (fun acc tm => fire (task tm) acc) w l) = None.
Proof.
  intros Hc Hex. revert w Hc.
  induction Hex as [tm l Htm|tm l _ IH]; intros w Hc; cbn [foldl].
  - apply fires_without_socket. rewrite Htm. cbn [fire].
    rewrite decide_True by done.
    destruct (socket w) eqn:Hs; [|done].
    unfold disconnect. by rewrite Hs.
  - apply IH. by rewrite fire_count.
Qed.

(** A flag that is down whenever there is no socket stays so while
    timers run. *)
Lemma fire_flag tk w :
  (socket w = None -> connected w = false) ->
  socket (fire tk w) = None -> connected (fire tk w) = false.
Proof.
  intros H.
  assert (Hws : forall g w',
            (socket w' = None -> connected w' = false) ->
            socket (with_socket g w') = None ->
            connected (with_socket g w') = false).
  { intros g w' Hw'. unfold with_socket.
    destruct (socket w') eqn:Hs; [done | by rewrite Hs]. }
  assert (Hst : forall q r w',
            (socket w' = None -> connected w' = false) ->
            socket (settle q r w') = None ->
            connected (settle q r w') = false).
  { intros q r w' Hw'.
    destruct (settle_fields q r w') as (_ & _ & _ & -> & ->). done. }
  destruct tk; cbn [fire]; repeat case_match; try done;
    unfold drop_instruction_listeners; auto.
  - intros Hs. by specialize (H Hs).
  - unfold disconnect. destruct (socket w) eqn:Hs; [done | by rewrite Hs].
Qed.

Lemma fires_flag (l : list Timer) w :
  (socket w = None -> connected w = false) ->
  socket (foldl (fun acc tm => fire (task tm) acc) w l) = None ->
  connected (foldl (fun acc tm => fire (task tm) acc) w l) = false.
Proof.
  intros H.
  apply (foldl_preserves
           (fun x => socket x = None -> connected x = false)); [|done].
  intros x tm _ Hx. by apply fire_flag.
Qed.

(** X16: when the last owner unmounts, the connection outlives it by
    five seconds and no longer.  Whatever other timers are pending, once
    5000 ms have passed with nothing else happening there is no socket
    and the flag is down; and if no older teardown is pending, the socket
    is still there at any moment before that. *)
Theorem last_unmount_tears_down (w : World) (i : Instance) (dt : Z) :
  componentMounted i = true ->
  connectionRefCount w = 1 ->
  is_Some (socket w) ->
  let w1 := (onUnmounted (w, i)).1 in
  is_Some (socket w1)
  /\ (5000 <= dt ->
      socket (elapse dt w1) = None /\ connected (elapse dt w1) = false)
  /\ (dt < 5000 ->
      Forall (fun tm => task tm ≠ graceTeardown) (timers w) ->
      is_Some (socket (elapse dt w1))).
Proof.
  intros Hm Hc Hs w1.
  destruct (onUnmounted_sets_teardown w i Hm Hc) as (Hc1 & Hcl1 & Ht1).
  fold w1 in Hc1, Hcl1, Ht1.
  assert (Hs1 : is_Some (socket w1)) by by apply onUnmounted_keeps_socket.
  split; [done |]. split.
  - intros Hdt.
    assert (Hnone : socket (elapse dt w1) = None).
    { unfold elapse. cbn [socket set_clock].
      apply fires_teardown; [done |].
      apply Exists_exists.
      exists {| timer_id := next_timer w1 - 1; due := clock w + 5000;
                task := graceTeardown |}.
      split; [|done]. apply by_due_elem_of, list_elem_of_filter.
      split; [cbn; lia |]. rewrite Ht1. apply elem_of_app. right.
      by apply list_elem_of_singleton. }
    split; [done |].
    unfold elapse in *. cbn [socket connected set_clock] in *.
    apply fires_flag; [|done]. cbn. intros Hn.
    destruct Hs1 as [sk Hsk]. congruence.
  - intros Hdt Hold.
    apply (elapse_keeps dt w1); [|done].
    intros Hdue. exfalso.
    unfold teardown_due in Hdue. apply bool_decide_eq_true in Hdue.
    apply Exists_exists in Hdue as (tm & Hin & Htk & Hdue).
    rewrite Ht1 in Hin. apply elem_of_app in Hin as [Hin|Hin].
    + rewrite Forall_forall in Hold. by apply (Hold _ Hin).
    + apply list_elem_of_singleton in Hin. subst tm. cbn in Hdue. lia.
Qed.

Lemma last_unmount_tears_down_witness :
  let s := run [UseSocket; Mount 0; Connect; TransportUp; JoinTask "t1"]
             start in
  let i := {| componentMounted := true; componentListeners := [] |} in
  let w1 := (onUnmounted (world s, i)).1 in
  is_Some (socket w1)
  /\ socket (elapse 5000 w1) = None
  /\ connected (elapse 5000 w1) = false.
Proof.
  intros s i w1.
  destruct (last_unmount_tears_down (world s) i 5000) as (H1 & H2 & _).
  - done.
  - by vm_compute.
  - vm_compute. eauto.
  - split; [exact H1 |]. apply H2. lia.
Defined.

End Teardown.

(** ** The promise of connect *)

Section Connecting.
Import UseSocket.

Implicit Types (w : World) (i : Instance) (s : System) (cb : Callback)
  (p q : nat).

(** What [connect()] leaves when it has to open a socket. *)
Lemma connect_opens w :
  socket_connected w = false ->
  connect w
  = ({| socket :=
          Some {| sk_connected := false;
                  sk_listeners :=
                    [("connect",
                      onConnect (length (promises w)) (next_timer w));
                     ("disconnect", onDisconnect (length (promises w)));
                     ("connect_error",
                      onConnectError (length (promises w)) (next_timer w))];
                  sk_sent := [] |};
        connected := connected w;
        connectionRefCount := connectionRefCount w;
        globalEventListeners := globalEventListeners w;
        clock := clock w;
        timers :=
          timers w ++ [{| timer_id := next_timer w;
                          due := clock w + CONNECTION_TIMEOUT;
                          task := connectTimeout (length (promises w)) |}];
        next_timer := S (next_timer w);
        promises := promises w ++ [Pending] |},
     length (promises w)).
Proof.
  intros Hc. unfold connect. cbn.
  change (socket_connected (set_promises _ w)) with (socket_connected w).
  by rewrite Hc.
Qed.

Lemma fire_foreign p tk w :
  task_promise tk ≠ Some p -> promise p (fire tk w) = promise p w.
Proof.
  intros Hne.
  assert (Hws : forall g w', promise p (with_socket g w') = promise p w')
    by (intros g w'; unfold with_socket; by case_match).
  destruct tk as [q|q t|q t|q t|]; cbn [fire]; cbn in Hne;
    repeat case_match; try done;
    unfold drop_instruction_listeners;
    rewrite ?settle_other, ?Hws by congruence; try done.
  all: unfold disconnect; by case_match.
Qed.

Lemma fire_flag_down tk w :
  connected w = false -> connected (fire tk w) = false.
Proof.
  intros H.
  assert (Hws : forall g w', connected (with_socket g w') = connected w')
    by (intros g w'; unfold with_socket; by case_match).
  destruct tk as [q|q t|q t|q t|]; cbn [fire]; repeat case_match; try done;
    unfold drop_instruction_listeners;
    repeat match goal with
           | |- connected (settle ?q ?r ?x) = _ =>
               destruct (settle_fields q r x) as (_ & _ & _ & _ & ->)
           end;
    rewrite ?Hws; try done.
  all: unfold disconnect; by case_match.
Qed.

Lemma fires_foreign p (l : list Timer) w :
  Forall (fun tm => task_promise (task tm) ≠ Some p) l ->
  promise p (foldl (fun acc tm => fire (task tm) acc) w l) = promise p w.
Proof.
  intros Hl. revert w. induction Hl as [|tm l Htm _ IH]; intros w; [done |].
  cbn [foldl]. by rewrite IH, fire_foreign.
Qed.

(** The timers due run while the flag is down and the promise is
    pending: the promise's own timeout rejects it. *)
Lemma fires_timeout p (l : list Timer) w :
  Forall (fun tm => task_promise (task tm) = Some p
                    -> task tm = connectTimeout p) l ->
  Exists (fun tm => task tm = connectTimeout p) l ->
  promises w !! p = Some Pending ->
  connected w = false ->
  promise p (foldl (fun acc tm => fire (task tm) acc) w l)
  = Rejected "WebSocket 连接超时".
Proof.
  intros Hl Hex. revert w.
  induction Hex as [tm l Htm|tm l _ IH]; intros w Hp Hc; cbn [foldl].
  - assert (Hr : promise p (fire (task tm) w) = Rejected "WebSocket 连接超时").
    { rewrite Htm. cbn [fire]. rewrite Hc. by apply settle_pending. }
    destruct (grows_fires l (fire (task tm) w)) as [Hg _].
    rewrite Hg; [done | by rewrite Hr].
  - apply Forall_cons in Hl as [Htm Hl].
    destruct (decide (task tm = connectTimeout p)) as [Heq|Hne].
    + assert (Hr : promise p (fire (task tm) w)
                   = Rejected "WebSocket 连接超时").
      { rewrite Heq. cbn [fire]. rewrite Hc. by apply settle_pending. }
      destruct (grows_fires l (fire (task tm) w)) as [Hg _].
      rewrite Hg; [done | by rewrite Hr].
    + assert (Hf : task_promise (task tm) ≠ Some p) by (intros H; auto).
      apply IH; [done | | by apply fire_flag_down].
      pose proof (fire_foreign p (task tm) w Hf) as Hsame.
      destruct (grows_fire (task tm) w) as (_ & Hlen & _).
      apply promise_pending_lookup.
      * apply lookup_lt_Some in Hp. lia.
      * rewrite Hsame. unfold promise. by rewrite Hp.
Qed.

(** X17: what becomes of the promise of [connect()].  On a socket that
    is connected it resolves at once and nothing else changes: no second
    socket, no timer.  Otherwise it is pending on a new socket, and the
    first of three things settles it: the transport coming up resolves
    it, raises the flag, and it stays resolved whatever follows (the
    timeout is cleared); a connect error rejects it with the error's
    message; and with the flag down, 10000 ms without either reject it
    with the timeout error, while before that it is still pending. *)
Theorem connect_outcomes (s : System) (msg : string) (dt : Z)
    (tr : list Action) :
  let p := (connect (world s)).2 in
  let opened := {| world := (connect (world s)).1; owners := owners s |} in
  (socket_connected (world s) = true ->
   promise p (world opened) = Resolved ∅
   /\ socket (world opened) = socket (world s)
   /\ timers (world opened) = timers (world s))
  /\ (socket_connected (world s) = false ->
      promise p (world opened) = Pending
      /\ (promise p (world (run (TransportUp :: tr) opened)) = Resolved ∅
          /\ connected (world (step TransportUp opened)) = true)
      /\ promise p (world (step (TransportError msg) opened)) = Rejected msg
      /\ (fresh_refs (world s) ->
          (connected (world s) = false -> CONNECTION_TIMEOUT <= dt ->
           promise p (world (step (Elapse dt) opened))
           = Rejected "WebSocket 连接超时")
          /\ (dt < CONNECTION_TIMEOUT ->
              promise p (world (step (Elapse dt) opened)) = Pending))).
Proof.
  intros p opened. split.
  - intros Hc. subst p opened. unfold connect. cbn.
    change (socket_connected (set_promises _ (world s)))
      with (socket_connected (world s)).
    rewrite Hc. cbn. split_and!.
    + apply settle_pending. cbn. by rewrite lookup_app_r, Nat.sub_diag.
    + unfold settle. cbn. by repeat case_match.
    + unfold settle. cbn. by repeat case_match.
  - intros Hc. subst p opened. rewrite (connect_opens _ Hc). cbn [fst snd].
    set (p := length (promises (world s))).
    set (tid := next_timer (world s)).
    assert (Hp : (promises (world s) ++ [Pending]) !! p = Some Pending)
      by (subst p; by rewrite lookup_app_r, Nat.sub_diag).
    split_and!.
    + unfold promise. cbn. by rewrite Hp.
    + match goal with
      | |- context [run (TransportUp :: tr) ?o] =>
          assert (H1 : promise p (world (step TransportUp o)) = Resolved ∅)
      end.
      { cbn. unfold deliver, with_socket. cbn.
        repeat (case_decide; try done; try discriminate). cbn.
        apply settle_pending. cbn. exact Hp. }
      rewrite run_cons. rewrite settled_is_final; [exact H1 |].
      by rewrite H1.
    + cbn. unfold deliver, with_socket. cbn.
      repeat (case_decide; try done; try discriminate). cbn.
      unfold settle. cbn. rewrite Hp. done.
    + cbn. unfold deliver. cbn.
      repeat (case_decide; try done; try discriminate). cbn.
      rewrite lookup_singleton_eq. cbn.
      apply settle_pending. cbn. exact Hp.
    + intros [Hft _]. split.
      * intros Hflag Hdt. cbn. unfold elapse. cbn.
        match goal with
        | |- promise p (set_clock _ ?x) = _ =>
            change (promise p x = Rejected "WebSocket 连接超时")
        end.
        apply fires_timeout; cbn; try done.
        -- apply Forall_forall. intros tm Hin.
           apply by_due_elem_of, list_elem_of_filter in Hin as [_ Hin].
           apply elem_of_app in Hin as [Hin|Hin].
           ++ rewrite Forall_forall in Hft. destruct (Hft _ Hin) as [Hb _].
              intros Hq. rewrite Hq in Hb. cbn in Hb. subst p. lia.
           ++ apply list_elem_of_singleton in Hin. by subst tm.
        -- apply Exists_exists.
           exists {| timer_id := tid;
                     due := clock (world s) + CONNECTION_TIMEOUT;
                     task := connectTimeout p |}.
           split; [|reflexivity].
           apply by_due_elem_of, list_elem_of_filter. split; [cbn; lia |].
           apply elem_of_app. right. by apply list_elem_of_singleton.
      * intros Hdt. cbn. unfold elapse. cbn.
        match goal with
        | |- promise p (set_clock _ ?x) = _ => change (promise p x = Pending)
        end.
        rewrite fires_foreign.
        -- unfold promise. cbn. by rewrite Hp.
        -- apply Forall_forall. intros tm Hin.
           apply by_due_elem_of, list_elem_of_filter in Hin as [Hdue Hin].
           apply elem_of_app in Hin as [Hin|Hin].
           ++ rewrite Forall_forall in Hft. destruct (Hft _ Hin) as [Hb _].
              intros Hq. rewrite Hq in Hb. cbn in Hb. subst p. lia.
           ++ apply list_elem_of_singleton in Hin. subst tm. cbn in Hdue. lia.
Qed.

Lemma connect_outcomes_witness :
  let s := run [UseSocket; Mount 0] start in
  let p := (connect (world s)).2 in
  let opened := {| world := (connect (world s)).1; owners := owners s |} in
  promise p (world opened) = Pending
  /\ promise p (world (run [TransportUp; Elapse 10000] opened)) = Resolved ∅
  /\ promise p (world (step (Elapse 10000) opened))
     = Rejected "WebSocket 连接超时".
Proof.
  intros s p opened.
  destruct (connect_outcomes s "" 10000 [Elapse 10000]) as [_ H].
  destruct H as (H1 & [H2 _] & _ & H4); [by vm_compute |].
  split; [exact H1 |]. split; [exact H2 |].
  destruct H4 as [H4 _]; [split; vm_compute; constructor |].
  apply H4; [by vm_compute | unfold CONNECTION_TIMEOUT; lia].
Defined.

End Connecting.

(** ** Instructions side by side, and requests without a connection *)

Section Sending.
Import UseSocket.

Implicit Types (w : World) (i : Instance) (s : System) (cb : Callback)
  (p q : nat).

(** What [sendInstruction] leaves on a connected socket. *)
Lemma sendInstruction_sends t x w sk :
  socket w = Some sk ->
  sk_connected sk = true ->
  sendInstruction t x w
  = ({| socket :=
          Some {| sk_connected := sk_connected sk;
                  sk_listeners :=
                    (sk_listeners sk
                     ++ [("instruction_received",
                          onReceived (length (promises w)) t)])
                    ++ [("instruction_error",
                         onError (length (promises w)) t)];
                  sk_sent :=
                    sk_sent sk
                    ++ [("send_instruction",
                         <[ "instruction" := x ]> {[ "task_id" := t ]})] |};
        connected := connected w;
        connectionRefCount := connectionRefCount w;
        globalEventListeners := globalEventListeners w;
        clock := clock w;
        timers :=
          timers w ++ [{| timer_id := next_timer w;
                          due := clock w + 30000;
                          task :=
                            instructionTimeout (length (promises w)) t |}];
        next_timer := S (next_timer w);
        promises := promises w ++ [Pending] |},
     length (promises w)).
Proof.
  intros Hs Hc. unfold sendInstruction. cbn.
  unfold socket_connected. cbn. rewrite Hs, Hc. cbn.
  unfold with_socket. cbn. rewrite Hs. cbn.
  unfold sk_on, sk_emit. cbn. by rewrite Hc.
Qed.

Lemma fresh_refs_sendInstruction t x w :
  socket_connected w = true ->
  fresh_refs w -> fresh_refs (sendInstruction t x w).1.
Proof.
  intros Hc [Ht Hl]. unfold socket_connected in Hc.
  destruct (socket w) as [sk|] eqn:Hs; [|done].
  rewrite (sendInstruction_sends _ _ _ _ Hs Hc). cbn [fst].
  unfold fresh_refs, listeners in *. rewrite Hs in Hl. cbn in *.
  rewrite length_app. cbn. split.
  - apply Forall_app. split.
    + eapply Forall_impl; [exact Ht |]. intros tm [Hb Hid]. split; [|lia].
      destruct (task_promise (task tm)); cbn in *; lia.
    + repeat constructor; cbn; lia.
  - rewrite !Forall_app. split_and!.
    + eapply Forall_impl; [exact Hl |]. intros l [Hb1 Hb2]. split.
      * destruct (cb_promise l.2); cbn in *; lia.
      * destruct (cb_timer l.2); cbn in *; lia.
    + repeat constructor; cbn; lia.
    + repeat constructor; cbn; lia.
Qed.

(** An instruction that waits is not disturbed by another one sent. *)
Lemma instr_ok_sendInstruction p tid deadline t c t' x' w :
  instr_ok p tid deadline t c w ->
  own_timer p tid deadline t ∈ timers w ->
  instr_ok p tid deadline t c (sendInstruction t' x' w).1
  /\ own_timer p tid deadline t ∈ timers (sendInstruction t' x' w).1.
Proof.
  intros H Hin.
  destruct (waiting_listeners p tid deadline t c w H) as (sk & Hs & _).
  destruct H as ((H1 & H2 & H3 & H4) & (Hp & Hr & He) & Hc).
  destruct (sk_connected sk) eqn:Hcon.
  - rewrite (sendInstruction_sends _ _ _ _ Hs Hcon). cbn [fst].
    unfold listeners in H4. rewrite Hs in H4. cbn in H4.
    assert (Hsub : forall ev cb,
              cb_promise cb = Some p ->
              subscriptions ev cb
                {| socket :=
                     Some {| sk_connected := sk_connected sk;
                             sk_listeners :=
                               (sk_listeners sk
                                ++ [("instruction_received",
                                     onReceived (length (promises w)) t')])
                               ++ [("instruction_error",
                                    onError (length (promises w)) t')];
                             sk_sent :=
                               sk_sent sk
                               ++ [("send_instruction",
                                    <[ "instruction" := x' ]>
                                      {[ "task_id" := t' ]})] |};
                   connected := connected w;
                   connectionRefCount := connectionRefCount w;
                   globalEventListeners := globalEventListeners w;
                   clock := clock w;
                   timers :=
                     timers w
                     ++ [{| timer_id := next_timer w;
                            due := clock w + 30000;
                            task := instructionTimeout
                                      (length (promises w)) t' |}];
                   next_timer := S (next_timer w);
                   promises := promises w ++ [Pending] |}
              = subscriptions ev cb w).
    { intros ev cb Hcb. unfold subscriptions. cbn. rewrite Hs.
      rewrite !filter_app, !length_app. cbn.
      repeat case_decide; simplify_eq; cbn in *; simplify_eq; lia. }
    split; [split; [split_and! | split; [split_and! |]] |].
    + cbn. rewrite length_app. cbn. lia.
    + done.
    + cbn. apply Forall_app. split; [done |].
      apply Forall_singleton. cbn. intros [= ?]. lia.
    + unfold listeners. cbn. rewrite !Forall_app. split_and!; [done | |].
      * apply Forall_singleton. cbn. split; [intros [= ?]; lia | done].
      * apply Forall_singleton. cbn. split; [intros [= ?]; lia | done].
    + unfold promise in *. cbn. by rewrite lookup_app_l.
    + by rewrite Hsub.
    + by rewrite Hsub.
    + done.
    + cbn. apply elem_of_app. by left.
  - assert (Hno : socket_connected w = false)
      by (unfold socket_connected; by rewrite Hs).
    assert (Hsend : (sendInstruction t' x' w).1
                    = settle (length (promises w))
                        (Rejected "WebSocket 未连接") (new_promise w).1).
    { unfold sendInstruction. cbn.
      change (socket_connected (set_promises _ w)) with (socket_connected w).
      by rewrite Hno. }
    rewrite Hsend.
    assert (Hinv : instr_ok p tid deadline t c (new_promise w).1).
    { split; [split_and! | split; [split_and! |]]; try done.
      - cbn. rewrite length_app. cbn. lia.
      - unfold promise in *. cbn. by rewrite lookup_app_l. }
    split.
    + apply instr_ok_settle_other; [lia | exact Hinv].
    + by destruct (settle_fields (length (promises w))
                     (Rejected "WebSocket 未连接") (new_promise w).1)
        as (-> & _).
Qed.

Lemma sendInstruction_keeps_live t x w :
  socket_connected w = true ->
  socket_connected (sendInstruction t x w).1 = true
  /\ connectionRefCount (sendInstruction t x w).1 = connectionRefCount w.
Proof.
  intros Hc. pose proof Hc as Hc'. unfold socket_connected in Hc'.
  destruct (socket w) as [sk|] eqn:Hs; [|done].
  by rewrite (sendInstruction_sends _ _ _ _ Hs Hc').
Qed.

(** X18: the server's answer names the task, not the instruction, and
    each pending [sendInstruction] for the task listens for it with the
    same test.  So with two instructions pending for one task, a single
    [instruction_received] resolves both promises with the same payload,
    and a single [instruction_error] rejects both with the same
    message. *)
Theorem one_answer_settles_every_instruction (t x1 x2 : string)
    (d : gmap string string) (w : World) :
  socket_connected w = true ->
  fresh_refs w ->
  connectionRefCount w ≠ 0 ->
  d !! "task_id" = Some t ->
  let p1 := (sendInstruction t x1 w).2 in
  let w1 := (sendInstruction t x1 w).1 in
  let p2 := (sendInstruction t x2 w1).2 in
  let w2 := (sendInstruction t x2 w1).1 in
  p1 ≠ p2
  /\ (promise p1 w2 = Pending /\ promise p2 w2 = Pending)
  /\ (promise p1 (deliver "instruction_received" d w2) = Resolved d
      /\ promise p2 (deliver "instruction_received" d w2) = Resolved d)
  /\ (promise p1 (deliver "instruction_error" d w2)
      = Rejected (Js.or_else (d !! "error") "发送指令失败")
      /\ promise p2 (deliver "instruction_error" d w2)
         = Rejected (Js.or_else (d !! "error") "发送指令失败")).
Proof.
  intros Hc Hf Hcount Hd p1 w1 p2 w2.
  destruct (sendInstruction_starts t x1 w Hc Hf Hcount) as (Hp1 & Hi1 & Ht1).
  fold p1 in Hp1. fold w1 in Hi1, Ht1. rewrite <- Hp1 in Hi1, Ht1.
  destruct (sendInstruction_keeps_live t x1 w Hc) as [Hc1 Hn1].
  fold w1 in Hc1, Hn1.
  assert (Hf1 : fresh_refs w1) by by apply fresh_refs_sendInstruction.
  assert (Hcount1 : connectionRefCount w1 ≠ 0) by by rewrite Hn1.
  destruct (sendInstruction_starts t x2 w1 Hc1 Hf1 Hcount1)
    as (Hp2 & Hi2 & Ht2).
  fold p2 in Hp2. fold w2 in Hi2, Ht2. rewrite <- Hp2 in Hi2, Ht2.
  destruct (instr_ok_sendInstruction _ _ _ _ _ t x2 w1 Hi1 Ht1)
    as [Hi1' Ht1'].
  fold w2 in Hi1', Ht1'.
  assert (Hne : p1 ≠ p2).
  { destruct Hi1 as ((Hlt & _) & _). lia. }
  split; [done |]. split.
  { destruct Hi1' as (_ & (? & _) & _), Hi2 as (_ & (? & _) & _). done. }
  split.
  - pose proof (deliver_waiting _ _ _ _ _ "instruction_received" d w2
                  Hi1' Ht1') as H1.
    pose proof (deliver_waiting _ _ _ _ _ "instruction_received" d w2
                  Hi2 Ht2) as H2.
    rewrite decide_True in H1, H2 by done.
    by destruct H1 as [-> _], H2 as [-> _].
  - pose proof (deliver_waiting _ _ _ _ _ "instruction_error" d w2
                  Hi1' Ht1') as H1.
    pose proof (deliver_waiting _ _ _ _ _ "instruction_error" d w2
                  Hi2 Ht2) as H2.
    rewrite decide_False in H1, H2 by (intros [? _]; done).
    rewrite decide_True in H1, H2 by done.
    by destruct H1 as [-> _], H2 as [-> _].
Qed.

Lemma one_answer_settles_every_instruction_witness :
  let s := run [UseSocket; Mount 0; Connect; TransportUp] start in
  let d : gmap string string := {[ "task_id" := "t1" ]} in
  let p1 := (sendInstruction "t1" "a" (world s)).2 in
  let w1 := (sendInstruction "t1" "a" (world s)).1 in
  let p2 := (sendInstruction "t1" "b" w1).2 in
  let w2 := (sendInstruction "t1" "b" w1).1 in
  p1 ≠ p2
  /\ (promise p1 w2 = Pending /\ promise p2 w2 = Pending)
  /\ (promise p1 (deliver "instruction_received" d w2) = Resolved d
      /\ promise p2 (deliver "instruction_received" d w2) = Resolved d)
  /\ (promise p1 (deliver "instruction_error" d w2)
      = Rejected (Js.or_else (d !! "error") "发送指令失败")
      /\ promise p2 (deliver "instruction_error" d w2)
         = Rejected (Js.or_else (d !! "error") "发送指令失败")).
Proof.
  intros s d.
  apply (one_answer_settles_every_instruction "t1" "a" "b" d (world s)).
  - by vm_compute.
  - split; vm_compute; repeat constructor.
  - by vm_compute.
  - by vm_compute.
Defined.

Lemma rejected_at_once (w : World) :
  let w' := settle (length (promises w)) (Rejected "WebSocket 未连接")
              (new_promise w).1 in
  promise (length (promises w)) w' = Rejected "WebSocket 未连接"
  /\ socket w' = socket w
  /\ timers w' = timers w.
Proof.
  intros w'. subst w'.
  destruct (settle_fields (length (promises w)) (Rejected "WebSocket 未连接")
              (new_promise w).1) as (-> & _ & _ & -> & _).
  split; [|done].
  apply settle_pending. cbn. by rewrite lookup_app_r, Nat.sub_diag.
Qed.

(** X19: without a connected socket [sendInstruction] and [confirmRoom]
    fail fast: the promise is rejected with the connection error before
    the call returns and stays rejected whatever happens later; nothing is
    sent, no listener is bound and no timer is set.  [leaveTask] then does
    nothing at all. *)
Theorem requests_need_a_connection (t x : string) (s : System)
    (tr : list Action) :
  socket_connected (world s) = false ->
  let sent := sendInstruction t x (world s) in
  let confirmed := confirmRoom t (world s) in
  (promise sent.2 (world (run tr {| world := sent.1; owners := owners s |}))
   = Rejected "WebSocket 未连接"
   /\ socket sent.1 = socket (world s)
   /\ timers sent.1 = timers (world s))
  /\ (promise confirmed.2
        (world (run tr {| world := confirmed.1; owners := owners s |}))
      = Rejected "WebSocket 未连接"
      /\ socket confirmed.1 = socket (world s)
      /\ timers confirmed.1 = timers (world s))
  /\ leaveTask t (world s) = world s.
Proof.
  intros Hc sent confirmed.
  assert (Hsent : sent = (settle (length (promises (world s)))
                            (Rejected "WebSocket 未连接")
                            (new_promise (world s)).1,
                          length (promises (world s)))).
  { subst sent. unfold sendInstruction. cbn.
    change (socket_connected (set_promises _ (world s)))
      with (socket_connected (world s)).
    by rewrite Hc. }
  assert (Hconf : confirmed = (settle (length (promises (world s)))
                                 (Rejected "WebSocket 未连接")
                                 (new_promise (world s)).1,
                               length (promises (world s)))).
  { subst confirmed. unfold confirmRoom. cbn.
    change (socket_connected (set_promises _ (world s)))
      with (socket_connected (world s)).
    by rewrite Hc. }
  destruct (rejected_at_once (world s)) as (Hr & Hs & Ht).
  rewrite Hsent, Hconf. cbn [fst snd].
  split_and!; try done.
  - rewrite settled_is_final; cbn [world]; by rewrite Hr.
  - rewrite settled_is_final; cbn [world]; by rewrite Hr.
  - unfold leaveTask. by rewrite Hc.
Qed.

Lemma requests_need_a_connection_witness :
  let s := run [UseSocket; Mount 0; Connect] start in
  let sent := sendInstruction "t1" "x" (world s) in
  promise sent.2
    (world (run [TransportUp; Recv "instruction_received"
                                {[ "task_id" := "t1" ]}]
              {| world := sent.1; owners := owners s |}))
  = Rejected "WebSocket 未连接".
Proof.
  intros s sent.
  destruct (requests_need_a_connection "t1" "x" s
              [TransportUp; Recv "instruction_received"
                              {[ "task_id" := "t1" ]}]) as [[H _] _].
  - by vm_compute.
  - exact H.
Defined.

End Sending.

(** ** Confirming the room: confirmRoom *)

Section Rooms.
Import UseSocket.

Implicit Types (w : World) (i : Instance) (s : System) (cb : Callback)
  (p q : nat).

Section Confirm.
Variables (p tid : nat) (deadline : Z) (t : string) (strict : bool).
Local Abbreviation Inv := (confirm_ok p tid deadline t strict).

Lemma cf_settle_other q r w : q ≠ p -> Inv w -> Inv (settle q r w).
Proof.
  intros Hne [(H1 & H2 & H3 & H4 & H5) Ha].
  destruct (settle_fields q r w) as (Et & En & Ec & Es & _).
  split; [split_and! | intros Hst Hp].
  - by rewrite settle_length.
  - by rewrite En.
  - by rewrite Et.
  - unfold listeners. by rewrite Es.
  - by rewrite settle_other.
  - rewrite settle_other in Hp by done. rewrite Et, Ec. by apply Ha.
Qed.

Lemma cf_settle_own w : Inv w -> Inv (settle p (Resolved ∅) w).
Proof.
  intros [(H1 & H2 & H3 & H4 & H5) Ha].
  destruct (settle_fields p (Resolved ∅) w) as (Et & En & Ec & Es & _).
  assert (Hp : promise p (settle p (Resolved ∅) w) = Resolved ∅).
  { destruct H5 as [H5|H5].
    - by apply settle_pending, promise_pending_lookup.
    - rewrite settle_settled; [done | by rewrite H5]. }
  split; [split_and! | intros _ Hq; by rewrite Hp in Hq].
  - by rewrite settle_length.
  - by rewrite En.
  - by rewrite Et.
  - unfold listeners. by rewrite Es.
  - by right.
Qed.

Lemma cf_with_socket g w :
  (forall sk, sk_listeners (g sk) ⊆ sk_listeners sk) ->
  Inv w -> Inv (with_socket g w).
Proof.
  intros Hg [(H1 & H2 & H3 & H4 & H5) Ha].
  assert (Hl : Forall (confirm_listener p tid t) (listeners (with_socket g w))).
  { rewrite listeners_with_socket. unfold listeners in H4.
    destruct (socket w) as [sk|]; cbn in *; [|done].
    eapply Forall_on_subset; [apply Hg | done]. }
  unfold with_socket in *. destruct (socket w); [|done].
  split; [split_and!; done | done].
Qed.

Lemma cf_sk_on ev cb w :
  confirm_listener p tid t (ev, cb) ->
  Inv w -> Inv (with_socket (sk_on ev cb) w).
Proof.
  intros Hcb [(H1 & H2 & H3 & H4 & H5) Ha].
  assert (Hl : Forall (confirm_listener p tid t)
                 (listeners (with_socket (sk_on ev cb) w))).
  { rewrite listeners_with_socket. unfold listeners in H4.
    destruct (socket w) as [sk|]; cbn in *; [|done].
    apply Forall_app. split; [done | by constructor]. }
  unfold with_socket in *. destruct (socket w); [|done].
  split; [split_and!; done | done].
Qed.

Lemma cf_set_socket x w :
  Forall (confirm_listener p tid t) (from_option sk_listeners [] x) ->
  Inv w -> Inv (set_socket x w).
Proof.
  intros Hx [(H1 & H2 & H3 & H4 & H5) Ha]. split; [split_and! |]; done.
Qed.

Lemma cf_setTimeout tk d w :
  confirm_task p t tk -> Inv w -> Inv (setTimeout tk d w).1.
Proof.
  intros Htk [(H1 & H2 & H3 & H4 & H5) Ha].
  split; [split_and! |]; cbn; try done.
  - lia.
  - apply Forall_app. split; [done | by constructor].
  - intros Hst Hp. destruct (Ha Hst Hp) as [Hin Hc]. split; [|done].
    apply elem_of_app. by left.
Qed.

Lemma cf_clearTimeout id w :
  id ≠ tid -> Inv w -> Inv (clearTimeout id w).
Proof.
  intros Hne [(H1 & H2 & H3 & H4 & H5) Ha].
  split; [split_and! |]; cbn; try done.
  - eapply Forall_on_subset; [apply filter_is_subset | done].
  - intros Hst Hp. destruct (Ha Hst Hp) as [Hin Hc]. split; [|done].
    apply list_elem_of_filter. split; [by cbn | done].
Qed.

Lemma cf_new_promise w :
  Inv w -> Inv (new_promise w).1 /\ (new_promise w).2 ≠ p.
Proof.
  intros [(H1 & H2 & H3 & H4 & H5) Ha].
  assert (Hp : promise p (new_promise w).1 = promise p w)
    by by apply new_promise_old.
  split; [|cbn; lia].
  split; [split_and! |]; try done.
  - cbn. rewrite length_app. lia.
  - by rewrite Hp.
  - intros Hst Hq. rewrite Hp in Hq. by apply Ha.
Qed.

Lemma cf_set_connected b w : Inv w -> Inv (set_connected b w).
Proof. intros [(H1 & H2 & H3 & H4 & H5) Ha]. split; [split_and! |]; done. Qed.

Lemma cf_set_count c w : Inv w -> Inv (set_connectionRefCount c w).
Proof. intros [(H1 & H2 & H3 & H4 & H5) Ha]. split; [split_and! |]; done. Qed.

Lemma cf_set_registry g w : Inv w -> Inv (set_globalEventListeners g w).
Proof. intros [(H1 & H2 & H3 & H4 & H5) Ha]. split; [split_and! |]; done. Qed.

Lemma cf_sk_off ev cb w : Inv w -> Inv (with_socket (sk_off ev cb) w).
Proof. apply cf_with_socket. intros sk. apply remove_first_subseteq. Qed.

Lemma cf_sk_off_all ev w : Inv w -> Inv (with_socket (sk_off_all ev) w).
Proof.
  apply cf_with_socket. intros sk. apply filter_is_subset.
Qed.

Lemma cf_sk_emit ev d w : Inv w -> Inv (with_socket (sk_emit ev d) w).
Proof. by apply cf_with_socket. Qed.

Lemma cf_sk_set_connected b w :
  Inv w -> Inv (with_socket (sk_set_connected b) w).
Proof. by apply cf_with_socket. Qed.

Lemma cf_drop_instruction_listeners q x w :
  Inv w -> Inv (drop_instruction_listeners q x w).
Proof.
  intros H. unfold drop_instruction_listeners. by do 2 apply cf_sk_off.
Qed.

Lemma cf_run_callback cb d w ev :
  confirm_listener p tid t (ev, cb) -> Inv w -> Inv (run_callback cb d w).
Proof.
  intros [Hp Ht] H. cbn [snd] in Hp, Ht.
  destruct cb; cbn [run_callback cb_promise cb_timer] in *;
    repeat case_decide; try done.
  - apply cf_settle_other; [naive_solver |].
    apply cf_set_connected, cf_clearTimeout; [congruence | done].
  - apply cf_settle_other; [naive_solver |].
    apply cf_clearTimeout; [congruence | done].
  - apply cf_settle_other; [naive_solver |].
    by apply cf_sk_off.
  - destruct (decide (p0 = p)) as [->|].
    + assert (taskId = t) as -> by naive_solver.
      by apply cf_settle_own, cf_sk_off.
    + by apply cf_settle_other, cf_sk_off.
  - apply cf_settle_other; [naive_solver |].
    by apply cf_drop_instruction_listeners.
  - apply cf_settle_other; [naive_solver |].
    by apply cf_drop_instruction_listeners.
Qed.

Lemma cf_deliver ev d w : Inv w -> Inv (deliver ev d w).
Proof.
  intros H. unfold deliver.
  destruct (socket w) as [sk|] eqn:Hs; [|done].
  assert (Hl : Forall (confirm_listener p tid t) (sk_listeners sk)).
  { destruct H as [(_ & _ & _ & H4 & _) _]. unfold listeners in H4.
    by rewrite Hs in H4. }
  apply (foldl_preserves Inv); [|done].
  intros x l Hin Hx. apply (cf_run_callback _ _ _ l.1); [|done].
  apply list_elem_of_filter in Hin as [_ Hin].
  rewrite Forall_forall in Hl. destruct l. by apply Hl.
Qed.

Lemma cf_disconnect w : Inv w -> Inv (disconnect w).
Proof.
  intros H. unfold disconnect. destruct (socket w); [|done].
  apply cf_set_connected, cf_set_socket; [by constructor | done].
Qed.

Lemma cf_fresh_promise w w1 p1 :
  new_promise w = (w1, p1) -> Inv w ->
  Inv w1 /\ p1 ≠ p /\ (tid < next_timer w1)%nat.
Proof.
  intros Hn H. destruct (cf_new_promise w H) as [H1 H2].
  rewrite Hn in H1, H2. cbn in H1, H2. split; [done |]. split; [done |].
  by destruct H1 as [(_ & ? & _) _].
Qed.

Lemma cf_connect w : Inv w -> Inv (connect w).1.
Proof.
  intros H. unfold connect.
  destruct (new_promise w) as [w1 p1] eqn:Hn.
  destruct (cf_fresh_promise _ _ _ Hn H) as (H1 & Hp1 & Htid).
  case_match; cbn [fst].
  - by apply cf_settle_other.
  - set (w2 := set_socket (Some io) w1).
    assert (H2 : Inv w2) by (apply cf_set_socket; [constructor | done]).
    assert (Hid : (setTimeout (connectTimeout p1) CONNECTION_TIMEOUT w2).2
                  ≠ tid) by (cbn; lia).
    pose proof (cf_setTimeout (connectTimeout p1) CONNECTION_TIMEOUT w2) as H3.
    destruct (setTimeout (connectTimeout p1) CONNECTION_TIMEOUT w2)
      as [w3 id]. cbn [fst snd] in *.
    repeat apply cf_sk_on; try (split; cbn; congruence).
    apply H3; [|done]. intros Hq; cbn in Hq; congruence.
Qed.

Lemma cf_confirmRoom x w : Inv w -> Inv (confirmRoom x w).1.
Proof.
  intros H. unfold confirmRoom.
  destruct (new_promise w) as [w1 p1] eqn:Hn.
  destruct (cf_fresh_promise _ _ _ Hn H) as (H1 & Hp1 & Htid).
  case_match; cbn [fst]; [by apply cf_settle_other |].
  apply cf_setTimeout; [intros Hq; cbn in Hq; congruence |].
  apply cf_sk_on; [split; cbn; congruence |]. by apply cf_sk_emit.
Qed.

Lemma cf_joinTask x w : Inv w -> Inv (joinTask x w).1.
Proof.
  intros H. unfold joinTask.
  destruct (new_promise w) as [w1 p1] eqn:Hn.
  destruct (cf_fresh_promise _ _ _ Hn H) as (H1 & Hp1 & Htid).
  case_match; cbn [fst]; [by apply cf_settle_other |].
  apply cf_setTimeout; [intros Hq; cbn in Hq; congruence |].
  apply cf_sk_on; [split; cbn; congruence |]. by apply cf_sk_emit.
Qed.

Lemma cf_sendInstruction x y w :
  Inv w -> Inv (sendInstruction x y w).1.
Proof.
  intros H. unfold sendInstruction.
  destruct (new_promise w) as [w1 p1] eqn:Hn.
  destruct (cf_fresh_promise _ _ _ Hn H) as (H1 & Hp1 & Htid).
  case_match; cbn [fst]; [by apply cf_settle_other |].
  apply cf_setTimeout; [intros Hq; cbn in Hq; congruence |].
  do 2 (apply cf_sk_on; [split; cbn; congruence |]). by apply cf_sk_emit.
Qed.

Lemma cf_leaveTask x w : Inv w -> Inv (leaveTask x w).
Proof.
  intros H. unfold leaveTask. case_match; [by apply cf_sk_emit | done].
Qed.

Lemma cf_on event cb w i :
  confirm_listener p tid t (event, cb) -> Inv w -> Inv (on event cb (w, i)).1.
Proof.
  intros Hcb H. unfold on. destruct (socket w); [|done].
  cbn [fst]. case_match.
  - by apply cf_set_registry.
  - by apply cf_sk_on, cf_set_registry.
Qed.

Lemma cf_off event c w i : Inv w -> Inv (off event c (w, i)).1.
Proof.
  intros H. unfold off. destruct (socket w); [|done].
  destruct c as [cb|]; cbn [fst].
  - repeat case_match; try done. by apply cf_sk_off, cf_set_registry.
  - by apply cf_set_registry, cf_sk_off_all.
Qed.

Lemma cf_cleanup w i :
  Inv w -> Inv (cleanupComponentListeners (w, i)).1.
Proof.
  intros H. unfold cleanupComponentListeners.
  rewrite cleanup_is_one_pass. cbn [snd].
  assert (H' : Inv
                 (foldl (fun acc x => off x.1 (Some x.2) acc) (w, i)
                    (tracked_pairs (componentListeners i))).1).
  { apply (foldl_preserves (fun x => Inv x.1)); [|done].
    intros [w' i'] x _ Hx. by apply cf_off. }
  by destruct (foldl _ _ _).
Qed.

Lemma cf_onUnmounted w i : Inv w -> Inv (onUnmounted (w, i)).1.
Proof.
  intros H. unfold onUnmounted. destruct (componentMounted i); [|done].
  match goal with
  | |- context [cleanupComponentListeners (?w0, ?i0)] =>
      pose proof (cf_cleanup w0 i0 (cf_set_count _ _ H)) as Hk;
      destruct (cleanupComponentListeners (w0, i0)) as [w' i']
  end.
  cbn [fst] in Hk. case_decide; cbn [fst]; [|done].
  by apply cf_setTimeout.
Qed.

Lemma cf_fire tk w : confirm_task p t tk -> Inv w -> Inv (fire tk w).
Proof.
  intros Htk H. destruct tk; cbn [fire].
  - case_match; [done |]. apply cf_settle_other; [|done].
    intros ->. by specialize (Htk eq_refl).
  - apply cf_settle_other; [|by apply cf_sk_off].
    intros ->. by specialize (Htk eq_refl).
  - destruct (decide (p0 = p)) as [->|].
    + assert (taskId = t) as ->
        by (specialize (Htk eq_refl); congruence).
      by apply cf_settle_own, cf_sk_off.
    + by apply cf_settle_other, cf_sk_off.
  - apply cf_settle_other; [|by apply cf_drop_instruction_listeners].
    intros ->. by specialize (Htk eq_refl).
  - case_decide; [|done]. case_match; [|done]. by apply cf_disconnect.
Qed.

(** Every action but the passing of time. *)
Lemma cf_step a s :
  (forall dt, a ≠ Elapse dt) ->
  Inv (world s) -> Inv (world (step a s)).
Proof.
  intros Ha H. destruct a; cbn [step];
    try (destruct (owners s !! o) as [i|] eqn:Ho;
         [rewrite (as_owner_world _ _ _ _ Ho)
         | by rewrite as_owner_nobody by done]);
    cbn [in_world world].
  - done.
  - by apply cf_set_count.
  - by apply cf_onUnmounted.
  - by apply cf_on.
  - by apply cf_off.
  - by apply cf_cleanup.
  - by apply cf_connect.
  - by apply cf_disconnect.
  - by apply cf_joinTask.
  - by apply cf_leaveTask.
  - by apply cf_confirmRoom.
  - by apply cf_sendInstruction.
  - by apply cf_sk_emit.
  - by apply cf_deliver, cf_sk_set_connected.
  - by apply cf_deliver, cf_sk_set_connected.
  - by apply cf_deliver.
  - case_match; [done | by apply cf_deliver].
  - by destruct (Ha dt).
Qed.

Lemma settle_own_confirms w :
  Inv w -> promise p (settle p (Resolved ∅) w) = Resolved ∅.
Proof.
  intros [(H1 & _ & _ & _ & [H5|H5]) _].
  - by apply settle_pending, promise_pending_lookup.
  - rewrite settle_settled; [done | by rewrite H5].
Qed.

End Confirm.

Lemma cf_fires p tid deadline t (l : list Timer) w :
  Forall (fun tm => confirm_task p t (task tm)) l ->
  confirm_ok p tid deadline t false w ->
  confirm_ok p tid deadline t false
    (foldl (fun acc tm => fire (task tm) acc) w l).
Proof.
  intros Hl H. apply (foldl_preserves (confirm_ok p tid deadline t false));
    [|done].
  intros x tm Hin Hx. apply cf_fire; [|done].
  rewrite Forall_forall in Hl. by apply Hl.
Qed.

(** Time passing: the promise's own timer either stays ahead or runs,
    and then the promise is resolved. *)
Lemma cf_elapse p tid deadline t dt w :
  confirm_ok p tid deadline t true w ->
  confirm_ok p tid deadline t true (elapse dt w).
Proof.
  intros [Hc Ha]. specialize (Ha eq_refl).
  pose proof Hc as (H1 & H2 & H3 & H4 & H5).
  unfold elapse.
  set (t1 := clock w + dt).
  set (ready := by_due (filter (fun tm => due tm <= t1) (timers w))).
  set (w0 := set_timers (filter (fun tm => ¬ due tm <= t1) (timers w)) w).
  assert (Hready : forall tm, tm ∈ ready <-> due tm <= t1 /\ tm ∈ timers w).
  { intros tm. unfold ready. by rewrite by_due_elem_of, list_elem_of_filter. }
  assert (H0 : confirm_ok p tid deadline t false w0).
  { split; [|done]. split_and!; try done.
    cbn. eapply Forall_on_subset; [apply filter_is_subset | done]. }
  assert (Hl : Forall (fun tm => confirm_task p t (task tm)) ready).
  { apply Forall_forall. intros tm [_ Hin]%Hready.
    rewrite Forall_forall in H3. exact (H3 tm Hin). }
  pose proof (cf_fires p tid deadline t ready w0 Hl H0) as [Hc' _].
  pose proof (fires_fields ready w0) as [Et Ec].
  pose proof (grows_fires ready w0) as [Hg _].
  set (w' := foldl (fun acc tm => fire (task tm) acc) w0 ready) in *.
  split; [destruct Hc' as (? & ? & ? & ? & ?); by split_and! |].
  intros _ Hp. change (promise p w' = Pending) in Hp.
  assert (Hpw : promise p w = Pending).
  { destruct H5 as [|H5]; [done |].
    assert (Hw0 : promise p w0 = promise p w) by done.
    rewrite (Hg p) in Hp by (by rewrite Hw0, H5).
    by rewrite Hw0, H5 in Hp. }
  destruct (Ha Hpw) as [Hin Hclock].
  cbn [timers clock set_clock]. rewrite Et.
  destruct (decide (deadline <= t1)) as [Hdue|Hdue].
  - exfalso.
    assert (Hin' : {| timer_id := tid; due := deadline;
                      task := confirmTimeout p t |} ∈ ready)
      by by apply Hready.
    apply list_elem_of_split in Hin' as (l1 & l2 & Hsplit).
    rewrite Hsplit in Hl. apply Forall_app in Hl as [Hl1 _].
    pose proof (cf_fires p tid deadline t l1 w0 Hl1 H0) as Hx1.
    subst w'. rewrite Hsplit, foldl_app in Hp. cbn [foldl task fire] in Hp.
    set (x1 := foldl (fun acc tm => fire (task tm) acc) w0 l1) in *.
    pose proof (settle_own_confirms p tid deadline t false _
                  (cf_sk_off p tid deadline t false "room_confirmed"
                     (onConfirmed p t)
                     x1 Hx1)) as Hres.
    destruct (grows_fires l2
                (settle p (Resolved ∅)
                   (with_socket
                      (sk_off "room_confirmed" (onConfirmed p t)) x1)))
      as [Hg2 _].
    rewrite (Hg2 p) in Hp by by rewrite Hres. by rewrite Hres in Hp.
  - split; [|lia]. apply list_elem_of_filter. split; [by cbn | done].
Qed.

Lemma cf_run p tid deadline t tr s :
  confirm_ok p tid deadline t true (world s) ->
  confirm_ok p tid deadline t true (world (run tr s)).
Proof.
  revert s. induction tr as [|a tr IH]; intros s H; [done |].
  rewrite run_cons. apply IH.
  assert (Hcase : (exists dt, a = Elapse dt) \/ forall dt, a ≠ Elapse dt)
    by (destruct a; eauto).
  destruct Hcase as [[dt ->]|Hne].
  - by apply cf_elapse.
  - by apply cf_step.
Qed.

Lemma confirmRoom_starts t w :
  socket_connected w = true ->
  fresh_refs w ->
  (confirmRoom t w).2 = length (promises w)
  /\ confirm_ok (length (promises w)) (next_timer w) (clock w + 1000) t true
       (confirmRoom t w).1.
Proof.
  intros Hc [Ht Hl]. unfold confirmRoom. cbn.
  change (socket_connected (set_promises _ w)) with (socket_connected w).
  rewrite Hc. cbn [negb fst snd]. split; [done |].
  unfold socket_connected in Hc. unfold listeners in Hl.
  destruct (socket w) as [sk|] eqn:Hs; [|done]. cbn in Hl.
  unfold with_socket. cbn. rewrite Hs. cbn.
  split; [split_and! | intros _ _; split]; cbn.
  - rewrite length_app. cbn. lia.
  - lia.
  - apply Forall_app. split; [|by repeat constructor].
    eapply Forall_impl; [exact Ht |]. intros tm [Hb _] Hq.
    rewrite Hq in Hb. cbn in Hb. lia.
  - unfold listeners. cbn. apply Forall_app. split.
    + eapply Forall_impl; [exact Hl |]. intros l [Hb1 Hb2]. split.
      * intros Hq. rewrite Hq in Hb1. cbn in Hb1. lia.
      * intros Hq. rewrite Hq in Hb2. cbn in Hb2. lia.
    + by repeat constructor.
  - left. unfold promise. cbn. by rewrite lookup_app_r, Nat.sub_diag.
  - apply elem_of_app. right. by apply list_elem_of_singleton.
  - lia.
Qed.

(** An acknowledgment that finds the listener bound resolves the promise. *)
Lemma confirmed_resolves p tid deadline t strict d w :
  confirm_ok p tid deadline t strict w ->
  ("room_confirmed", onConfirmed p t) ∈ listeners w ->
  d !! "task_id" = Some t ->
  promise p (deliver "room_confirmed" d w) = Resolved ∅.
Proof.
  intros H Hin Hd. unfold deliver, listeners in *.
  destruct (socket w) as [sk|] eqn:Hs; [|by apply elem_of_nil in Hin].
  cbn in Hin.
  assert (Hok : Forall (confirm_listener p tid t) (sk_listeners sk)).
  { destruct H as [(_ & _ & _ & H4 & _) _]. unfold listeners in H4.
    by rewrite Hs in H4. }
  assert (Hin' : ("room_confirmed", onConfirmed p t)
                 ∈ filter (fun l => l.1 = "room_confirmed") (sk_listeners sk))
    by by apply list_elem_of_filter.
  apply list_elem_of_split in Hin' as (l1 & l2 & Hsplit).
  rewrite Hsplit, foldl_app. cbn [foldl snd run_callback].
  rewrite decide_True by done.
  assert (Hx1 : confirm_ok p tid deadline t strict
                  (foldl (fun acc l => run_callback l.2 d acc) w l1)).
  { apply (foldl_preserves (confirm_ok p tid deadline t strict)); [|done].
    intros x l Hl Hx. apply (cf_run_callback _ _ _ _ _ _ _ _ l.1); [|done].
    assert (Hl' : l ∈ filter (fun l => l.1 = "room_confirmed")
                        (sk_listeners sk)).
    { rewrite Hsplit. apply elem_of_app. by left. }
    apply list_elem_of_filter in Hl' as [_ Hl'].
    rewrite Forall_forall in Hok. destruct l. by apply Hok. }
  set (x1 := foldl (fun acc l => run_callback l.2 d acc) w l1) in *.
  pose proof (settle_own_confirms p tid deadline t strict _
                (cf_sk_off p tid deadline t strict "room_confirmed"
                   (onConfirmed p t)
                   x1 Hx1)) as Hres.
  match goal with
  | |- promise p (foldl ?g ?x ?l) = _ =>
      assert (Hg : grows x (foldl g x l))
  end.
  { apply (foldl_preserves (grows _)); [|apply grows_refl].
    intros x l _ Hx.
    eapply grows_trans; [exact Hx | apply grows_run_callback]. }
  destruct Hg as [Hg _]. rewrite (Hg p) by by rewrite Hres. done.
Qed.

(** X20: against a live connection, whatever happens after
    [confirmRoom] (calls of the UI, events of the transport, messages of
    the server, time passing), its promise is never rejected; it is
    resolved once 1000 ms have passed, confirmation or not; and a
    [room_confirmed] for the task that arrives while the listener is bound
    resolves it on the spot. *)
Theorem confirmRoom_settles (t : string) (s : System) (tr : list Action)
    (d : gmap string string) :
  socket_connected (world s) = true ->
  fresh_refs (world s) ->
  let p := (confirmRoom t (world s)).2 in
  let confirming :=
    {| world := (confirmRoom t (world s)).1; owners := owners s |} in
  let s' := run tr confirming in
  (forall msg, promise p (world s') ≠ Rejected msg)
  /\ (clock (world s) + 1000 <= clock (world s') ->
      promise p (world s') = Resolved ∅)
  /\ (("room_confirmed", onConfirmed p t) ∈ listeners (world s') ->
      d !! "task_id" = Some t ->
      promise p (world (step (Recv "room_confirmed" d) s')) = Resolved ∅).
Proof.
  intros Hc Hf p confirming s'.
  destruct (confirmRoom_starts t (world s) Hc Hf) as [Hp H0].
  fold p in Hp. rewrite <- Hp in H0.
  pose proof (cf_run p _ _ t tr confirming H0) as H. fold s' in H.
  pose proof H as [(_ & _ & _ & _ & H5) Ha]. specialize (Ha eq_refl).
  split; [|split].
  - intros msg. destruct H5 as [-> | ->]; done.
  - intros Hclock. destruct H5 as [H5|H5]; [|done].
    destruct (Ha H5) as [_ Hlt]. lia.
  - intros Hin Hd. cbn. by apply (confirmed_resolves _ _ _ _ _ _ _ H).
Qed.

Lemma confirmRoom_settles_witness :
  let s := run [UseSocket; Mount 0; Connect; TransportUp] start in
  let p := (confirmRoom "t1" (world s)).2 in
  let confirming :=
    {| world := (confirmRoom "t1" (world s)).1; owners := owners s |} in
  let s' := run [Elapse 400; On 0 "agent:thought" 1; Elapse 600] confirming in
  promise p (world confirming) = Pending
  /\ promise p (world s') = Resolved ∅.
Proof.
  intros s p confirming s'.
  split; [by vm_compute |].
  destruct (confirmRoom_settles "t1" s
              [Elapse 400; On 0 "agent:thought" 1; Elapse 600] ∅)
    as (_ & H & _).
  - by vm_compute.
  - split; vm_compute; repeat constructor.
  - apply H. by vm_compute.
Defined.

End Rooms.

(** ** A session of the creation view: registering and releasing the
    agent listeners *)

Section Session.
Import UseSocket CreationCenterSocket.

Implicit Types (w : World) (i : Instance) (c : Component) (cb : Callback).

Lemma agent_listeners_NoDup c : NoDup (agent_listeners c).
Proof.
  apply (NoDup_fmap_1 fst). cbn. apply (bool_decide_unpack _). by vm_compute.
Qed.

Lemma on_pass_keeps_socket ps (wi : World * Instance) :
  is_Some (socket wi.1) ->
  is_Some (socket (foldl (fun acc l => on l.1 l.2 acc) wi ps).1).
Proof.
  revert wi. induction ps as [|[e cb] ps IH]; intros [w i] H; [done |].
  cbn [foldl fst snd]. apply IH. by apply on_keeps_socket.
Qed.

Lemma on_pass_other event cb ps (wi : World * Instance) :
  (event, cb) ∉ ps ->
  binding event cb (foldl (fun acc l => on l.1 l.2 acc) wi ps).1
  = binding event cb wi.1
  /\ subscriptions event cb (foldl (fun acc l => on l.1 l.2 acc) wi ps).1
     = subscriptions event cb wi.1.
Proof.
  revert wi. induction ps as [|[e x] ps IH]; intros [w i] H; [done |].
  apply not_elem_of_cons in H as [Hne H]. cbn [foldl fst snd].
  destruct (IH (on e x (w, i)) H) as [-> ->].
  rewrite on_binding_other, on_subscriptions_other by congruence. done.
Qed.

(** A pass of [on] over distinct pairs binds a pair that was not bound. *)
Lemma on_pass_binds event cb ps (wi : World * Instance) :
  NoDup ps -> (event, cb) ∈ ps ->
  is_Some (socket wi.1) ->
  binding event cb wi.1 = None ->
  binding event cb (foldl (fun acc l => on l.1 l.2 acc) wi ps).1 = Some 1
  /\ subscriptions event cb (foldl (fun acc l => on l.1 l.2 acc) wi ps).1
     = S (subscriptions event cb wi.1).
Proof.
  intros Hnd Hin Hs Hb.
  apply list_elem_of_split in Hin as (l1 & l2 & ->).
  apply NoDup_app in Hnd as (_ & H1 & [H2 _]%NoDup_cons).
  rewrite foldl_app. cbn [foldl fst snd].
  assert (Hl1 : (event, cb) ∉ l1).
  { intros Hin. by apply (H1 _ Hin), elem_of_cons; left. }
  pose proof (on_pass_keeps_socket l1 wi Hs) as Hs1.
  destruct (on_pass_other event cb l1 wi Hl1) as [Hb1 Hn1].
  destruct (foldl _ wi l1) as [w1 i1]. cbn [fst snd] in *.
  destruct Hs1 as [sk Hsk].
  destruct (on_pass_other event cb l2 (on event cb (w1, i1)) H2) as [-> ->].
  rewrite (on_binding _ _ _ _ _ Hsk), (on_subscriptions _ _ _ _ _ Hsk).
  rewrite Hb1, Hb, Hn1. done.
Qed.

Lemma leaveTask_spares_listeners t w :
  listeners (leaveTask t w) = listeners w
  /\ globalEventListeners (leaveTask t w) = globalEventListeners w
  /\ (is_Some (socket w) -> is_Some (socket (leaveTask t w))).
Proof.
  unfold leaveTask. destruct (socket_connected w); [|done].
  rewrite listeners_with_socket, with_socket_registry.
  unfold listeners, with_socket. by destruct (socket w).
Qed.

Lemma registerEventListeners_again c (wi : World * Instance) :
  eventListenersRegistered c = true -> registerEventListeners c wi = (c, wi).
Proof. intros H. unfold registerEventListeners. by rewrite H. Qed.

Lemma handleNewTask_resets c (wi : World * Instance) :
  eventListenersRegistered (handleNewTask c wi).1 = eventListenersRegistered c
  /\ CreationCenter.messages (view (handleNewTask c wi).1) = []
  /\ taskId (handleNewTask c wi).1 = "".
Proof. unfold handleNewTask. cbn [fst]. split_and!; reflexivity. Qed.

Lemma handleNewTask_world c (wi : World * Instance) :
  (handleNewTask c wi).2
  = foldl (fun acc l => off l.1 (Some l.2) acc)
      (if Js.truthy (taskId c) then leaveTask (taskId c) wi.1 else wi.1,
       wi.2)
      (agent_listeners c).
Proof. reflexivity. Qed.

(** X21: [registerEventListeners] is guarded by a flag that
    [handleNewTask] does not reset.  So, for each of the five agent
    events, on a socket where the handler was not bound before: the first
    registration binds it once, a second registration changes nothing,
    [handleNewTask] releases it again (count and subscription gone) and
    empties the view, and a registration after that does nothing at all:
    the handler stays unbound for the next task. *)
Theorem new_task_stops_listening (c : Component) (w : World) (i : Instance)
    (event : string) (cb : Callback) :
  eventListenersRegistered c = false ->
  is_Some (socket w) ->
  (event, cb) ∈ agent_listeners c ->
  binding event cb w = None ->
  subscriptions event cb w = 0%nat ->
  let r1 := registerEventListeners c (w, i) in
  let r2 := handleNewTask r1.1 r1.2 in
  (binding event cb r1.2.1 = Some 1
   /\ subscriptions event cb r1.2.1 = 1%nat)
  /\ registerEventListeners r1.1 r1.2 = r1
  /\ (binding event cb r2.2.1 = None
      /\ subscriptions event cb r2.2.1 = 0%nat)
  /\ (CreationCenter.messages (view r2.1) = [] /\ taskId r2.1 = "")
  /\ registerEventListeners r2.1 r2.2 = r2.
Proof.
  intros Hflag Hs Hin Hb Hn r1 r2.
  assert (Hr1 : r1 = (set_eventListenersRegistered true c,
                      foldl (fun acc l => on l.1 l.2 acc) (w, i)
                        (agent_listeners c)))
    by (subst r1; unfold registerEventListeners; by rewrite Hflag).
  destruct (on_pass_binds event cb (agent_listeners c) (w, i)
              (agent_listeners_NoDup c) Hin Hs Hb) as [Hb1 Hn1].
  pose proof (on_pass_keeps_socket (agent_listeners c) (w, i) Hs) as Hs1.
  cbn [fst] in Hb1, Hn1. rewrite Hn in Hn1.
  assert (H1 : binding event cb r1.2.1 = Some 1
               /\ subscriptions event cb r1.2.1 = 1%nat)
    by by rewrite Hr1.
  assert (Hs1' : is_Some (socket r1.2.1)) by by rewrite Hr1.
  assert (Hf1 : eventListenersRegistered r1.1 = true) by by rewrite Hr1.
  assert (Hl1 : agent_listeners r1.1 = agent_listeners c) by by rewrite Hr1.
  clearbody r1. clear Hr1 Hb1 Hn1 Hs1.
  destruct r1 as [c1 [w1 i1]]. cbn [fst snd] in *.
  destruct H1 as [Hb1 Hn1].
  split; [done |]. split.
  { unfold registerEventListeners. by rewrite Hf1. }
  set (w1' := if Js.truthy (taskId c1) then leaveTask (taskId c1) w1
              else w1).
  assert (Hleft : is_Some (socket w1')
                  /\ binding event cb w1' = Some 1
                  /\ (subscriptions event cb w1' <= 1)%nat).
  { subst w1'. destruct (Js.truthy (taskId c1)); [|by rewrite Hn1].
    destruct (leaveTask_spares_listeners (taskId c1) w1) as (Hl & Hg & Hk).
    split; [by apply Hk |].
    rewrite subscriptions_listeners, Hl, <- subscriptions_listeners.
    unfold binding in *. rewrite Hg. by rewrite Hn1. }
  destruct Hleft as (Hs2 & Hb2 & Hn2).
  destruct (handleNewTask_resets c1 (w1, i1)) as (Hf2 & Hm2 & Ht2).
  pose proof (handleNewTask_world c1 (w1, i1)) as Hw2.
  fold r2 in Hf2, Hm2, Ht2, Hw2. cbn [fst snd] in Hw2. fold w1' in Hw2.
  rewrite Hl1 in Hw2. clearbody r2. destruct r2 as [c2 wi2].
  cbn [fst snd] in *. subst wi2.
  split.
  { rewrite pass_binding_once, pass_subscriptions_once;
      try done; try apply agent_listeners_NoDup.
    cbn [fst]. rewrite Hb2. rewrite !decide_False by lia.
    split; [done | lia]. }
  split; [done |].
  apply registerEventListeners_again. by rewrite Hf2.
Qed.

Lemma new_task_stops_listening_witness :
  let s := run [UseSocket; Mount 0; Connect; TransportUp] start in
  let c := {| view := CreationCenter.initial; taskId := "t1";
              topicInput := "tea"; isTaskStarted := true;
              generatedTitle := ""; generatedSummary := "";
              generatedImages := []; eventListenersRegistered := false;
              handlers := 0 |} in
  let r1 := registerEventListeners c (world s, fresh_instance) in
  let r2 := handleNewTask r1.1 r1.2 in
  (binding "agent:thought" (handler 1) r1.2.1 = Some 1
   /\ subscriptions "agent:thought" (handler 1) r1.2.1 = 1%nat)
  /\ registerEventListeners r1.1 r1.2 = r1
  /\ (binding "agent:thought" (handler 1) r2.2.1 = None
      /\ subscriptions "agent:thought" (handler 1) r2.2.1 = 0%nat)
  /\ (CreationCenter.messages (view r2.1) = [] /\ taskId r2.1 = "")
  /\ registerEventListeners r2.1 r2.2 = r2.
Proof.
  intros s c.
  apply (new_task_stops_listening c (world s) fresh_instance
           "agent:thought" (handler 1)).
  - reflexivity.
  - vm_compute. eauto.
  - apply list_elem_of_further, list_elem_of_here.
  - by vm_compute.
  - by vm_compute.
Defined.

End Session.
